(** * Merkle authentication paths, accumulator and bundle (snarkfront)

    A shallow embedding of [MerkleTree.hpp]: the classes [MerkleAuthPath],
    [MerkleTree] and [MerkleBundle] in their numeric ("eval") instantiation,
    where [BIT] is [int] and a digest is an opaque value of the hash family,
    followed by the proofs of their properties: what [updatePath] computes
    and what it leaves alone, the position counter and the full flag, the
    agreement of the retained paths with the tree the accumulator stands
    for, garbage collection, and marshalling.

    Conventions.
    - A [std::vector] is a [list]; [v[i]] outside the vector is undefined
      behaviour in C++ and is an error ([None]) here, so every function that
      indexes a vector returns an [option].
    - [std::size_t] lengths and loop indices are [nat]; values of type [int]
      ([overlap], [pathLen], the result of [incChildBits], the child bits)
      are [Z]. A depth is the length of three vectors held in memory, so the
      conversions between the two stay in range and are not written out; the
      two places where [size_t] arithmetic would wrap, [m_depth - 1] at
      depth 0 and [index - 1] at index 0, are treated where they occur.
    - Member functions take the receiver as an argument and return the
      updated receiver; [updatePath] also returns the old paths it patches,
      which the caller passes by reference.
    - The hash family, [ternary], [matchMSB] and the stream operators are
      not part of [MerkleTree.hpp]; they are modelled from their
      description and marked as such. *)

From Stdlib Require Import ZArith Lia.
From stdpp Require Import base option list gmap.

Set Default Proof Using "Type".

(** ** Loops and vectors *)

(** [for (std::size_t i = lo; i < lo + n; ++i) body], with the loop state
    threaded through and undefined behaviour propagated. *)
Fixpoint for_range {St : Type} (lo n : nat) (body : nat → St → option St)
    (s : St) : option St :=
  match n with
  | O => Some s
  | S n' => s' ← body lo s; for_range (S lo) n' body s'
  end.

(** [v[i] = x]: defined only inside the vector. *)
Definition vset {A : Type} (v : list A) (i : nat) (x : A) : option (list A) :=
  if decide (i < length v) then Some (<[i := x]> v) else None.

(** [v.resize(n)] with value-initialised new elements. *)
Definition resize_vec {A : Type} (d : A) (n : nat) (v : list A) : list A :=
  take n v ++ replicate (n - length v) d.

(** ** Streams *)

(** Modelled from the spec: the text streams and the [<<] and [>>] operators
    for unsigned integers, booleans, digests and vectors of digests
    (DSL_utility.hpp, the standard library) are external collaborators. A
    stream is a sequence of whitespace-delimited tokens. A type that can be
    streamed comes with a writer and a reader of a prefix of the tokens; the
    reader fails on an exhausted stream and reads back what the writer
    wrote. *)
Class Codec (Tok A : Type) := {
  put : A → list Tok;
  get : list Tok → option (A * list Tok)
}.
Global Hint Mode Codec ! ! : typeclass_instances.

(** A stream that ends before the end of [full]. *)
Definition truncation_of {Tok : Type} (s full : list Tok) : Prop :=
  ∃ t, t ≠ [] ∧ full = s ++ t.

(** Modelled from the spec: what the stream operators of a streamable type
    guarantee. The reader fails on an exhausted stream and on a stream that
    ends inside a value, and it reads back what the writer wrote, leaving the
    rest of the stream. *)
Class CodecLaws (Tok A : Type) `{!Codec Tok A} : Prop := {
  get_nil : get (Tok := Tok) (A := A) [] = None;
  get_put : ∀ (x : A) (rest : list Tok), get (put x ++ rest) = Some (x, rest);
  get_truncated : ∀ (x : A) (s : list Tok),
    truncation_of s (put x) → get (A := A) s = None
}.
Global Hint Mode CodecLaws ! ! - : typeclass_instances.

(** A [std::istream]: the tokens not yet consumed and the fail bit. *)
Record istream (Tok : Type) := mkIs { is_buf : list Tok; is_fail : bool }.
Arguments mkIs {Tok} _ _.
Arguments is_buf {Tok} _.
Arguments is_fail {Tok} _.

(** Modelled from the spec: [is >> x] of the stream abstraction. Nothing
    happens on a failed stream; a failed extraction sets the fail bit, and
    the variable is taken to keep its value. *)
Definition extract {Tok A : Type} `{!Codec Tok A} (ins : istream Tok) (x : A)
    : istream Tok * A :=
  if is_fail ins then (ins, x)
  else match get (is_buf ins) with
       | Some (v, rest) => (mkIs rest false, v)
       | None => (mkIs (is_buf ins) true, x)
       end.

(** Modelled from the spec: the elements of a homogeneous sequence, written
    one after the other. *)
Fixpoint put_elems {Tok A : Type} `{!Codec Tok A} (v : list A) : list Tok :=
  match v with
  | [] => []
  | x :: v => put x ++ put_elems v
  end.

(** Modelled from the spec: [n] elements of a homogeneous sequence, read one
    after the other. *)
Fixpoint get_elems {Tok A : Type} `{!Codec Tok A} (n : nat) (toks : list Tok)
    : option (list A * list Tok) :=
  match n with
  | O => Some ([], toks)
  | S n' =>
      '(x, toks) ← get toks;
      '(xs, toks) ← get_elems n' toks;
      Some (x :: xs, toks)
  end.

(** Modelled from the spec: [<<] and [>>] on a [std::vector] of digests
    (DSL_utility.hpp); a homogeneous sequence is streamed length first, then
    its elements. *)
#[global] Instance vector_codec {Tok A : Type}
    `{!Codec Tok nat, !Codec Tok A} : Codec Tok (list A) := {|
  put v := put (length v) ++ put_elems v;
  get toks := '(n, toks) ← get toks; get_elems n toks
|}.

(** ** Blessing an array of words from one wide variable

    [bless(std::array<T, N>& x, const U& a)] of DSL_bless.hpp. The variable
    classes are external: the bits of [a] ([splitBits]), their terms
    ([argBits]), and the functions [bitsValue] and [getNumber] of a
    vector of bits come from outside, and a blessed word is what
    [x[i].bless] receives. *)

(** [std::vector<A>(v.begin() + lo, v.begin() + hi)]: defined only for a
    range inside the vector. *)
Definition slice {A : Type} (v : list A) (lo hi : nat) : option (list A) :=
  if decide (lo ≤ hi ∧ hi ≤ length v) then Some (take (hi - lo) (drop lo v))
  else None.

(** What a word is blessed with: the arguments of
    [x[i].bless(value, number, split_vec, term_vec)]. *)
Record blessed_word (V F R : Type) := mkWord {
  bw_value : V;
  bw_number : F;
  bw_split : list Z;
  bw_terms : list R
}.
Arguments mkWord {V F R} _ _ _ _.
Arguments bw_value {V F R} _.
Arguments bw_number {V F R} _.
Arguments bw_split {V F R} _.
Arguments bw_terms {V F R} _.

Definition bless_word {V F R : Type} (bitsValue : list Z → V)
    (getNumber : list Z → F) (sizeT : nat) (term_bits : list R)
    (split_bits : list Z) (i : nat) (x : list (blessed_word V F R))
    : option (list (blessed_word V F R)) :=
  term_vec ← slice term_bits (sizeT * i) (sizeT * (i + 1));
  split_vec ← slice split_bits (sizeT * i) (sizeT * (i + 1));
  Some (x ++ [mkWord (bitsValue split_vec) (getNumber split_vec)
                     split_vec term_vec]).

Definition bless_words {V F R : Type} (bitsValue : list Z → V)
    (getNumber : list Z → F) (sizeT N : nat) (term_bits : list R)
    (split_bits : list Z) : option (list (blessed_word V F R)) :=
  for_range 0 N (bless_word bitsValue getNumber sizeT term_bits split_bits)
            [].

(** ** A small instance

    Digests are natural numbers, a stream is a sequence of integers, one
    token per number; used for the examples at the end. *)
Module Sample.

Definition compress (l : list nat) : nat :=
  foldr (λ x acc, x + 3 * acc + 1) 7 l.

Definition nat_codec : Codec Z nat := {|
  put n := [Z.of_nat n];
  get toks := match toks with
              | t :: rest =>
                  if decide (0 ≤ t)%Z then Some (Z.to_nat t, rest) else None
              | [] => None
              end
|}.

Definition bool_codec : Codec Z bool := {|
  put (b : bool) := [if b then 1%Z else 0%Z];
  get toks := match toks with
              | t :: rest =>
                  if decide (t = 0)%Z then Some (false, rest)
                  else if decide (t = 1)%Z then Some (true, rest)
                  else None
              | [] => None
              end
|}.

Definition int_codec : Codec Z Z := {|
  put z := [z];
  get toks := match toks with
              | t :: rest => Some (t, rest)
              | [] => None
              end
|}.

Definition count_codec : Codec Z N := {|
  put n := [Z.of_N n];
  get toks := match toks with
              | t :: rest =>
                  if decide (0 ≤ t)%Z then Some (Z.to_N t, rest) else None
              | [] => None
              end
|}.

(** Three calls of [addLeaf], the second without [keepPath], and two calls
    that fill a tree of depth 1. *)
Definition ops3 : list (nat * bool) := [(10, true); (11, false); (12, true)].
Definition ops2 : list (nat * bool) := [(10, true); (11, true)].

End Sample.

Section Merkle.

Context {Dig : Type} `{Countable Dig}.

(** The canonical zero digest [zero()], which is also what a
    value-initialised [DigType] holds. *)
Variable zero : Dig.

(** The hash function of the family [HASH], applied to the message
    accumulated as a sequence of digest-sized chunks. *)
Variable compress : list Dig → Dig.

(** Width of the [COUNT] type of a bundle. *)
Variable COUNT_bits : N.

(** ** The hash capability *)

(** Modelled from the spec: the class [HASH] (SHA_256.hpp, SHA_512.hpp) is an
    external collaborator; it holds the accumulated message and the last
    digest computed, with [clearMessage], [msgInput], [computeHash] and
    [digest]. *)
Record HASH := mkHASH { h_message : list Dig; h_digest : Dig }.

Definition HASH_new : HASH := mkHASH [] zero.
Definition clearMessage (h : HASH) : HASH := mkHASH [] (h_digest h).
Definition msgInput (d : Dig) (h : HASH) : HASH :=
  mkHASH (h_message h ++ [d]) (h_digest h).
Definition computeHash (h : HASH) : HASH :=
  mkHASH (h_message h) (compress (h_message h)).
Definition digest (h : HASH) : Dig := h_digest h.

(** Modelled from the spec: [ternary(bit, a, b)] of DSL_utility.hpp returns
    [a] when the bit is truthy and [b] otherwise. *)
Definition ternary (b : Z) (x y : Dig) : Dig :=
  if decide (b = 0)%Z then y else x.

(** Modelled from the spec: the length of the longest common prefix of two
    bit vectors, for [matchMSB]. *)
Fixpoint common_prefix_len (a b : list Z) : nat :=
  match a, b with
  | x :: a', y :: b' =>
      if decide (x = y) then S (common_prefix_len a' b') else O
  | _, _ => O
  end.

(** Modelled from the spec: [matchMSB(a, b)] of DSL_utility.hpp is the length,
    counted from the most significant end of the bottom-up bit vectors, of the
    longest common prefix of the two positions read top-down. *)
Definition matchMSB (a b : list Z) : Z :=
  Z.of_nat (common_prefix_len (reverse a) (reverse b)).

(** ** MerkleAuthPath *)

Record MerkleAuthPath := mkPath {
  m_depth : nat;
  m_rootPath : list Dig;
  m_siblings : list Dig;
  m_childBits : list Z
}.

Definition set_rootPath (v : list Dig) (p : MerkleAuthPath) : MerkleAuthPath :=
  mkPath (m_depth p) v (m_siblings p) (m_childBits p).
Definition set_siblings (v : list Dig) (p : MerkleAuthPath) : MerkleAuthPath :=
  mkPath (m_depth p) (m_rootPath p) v (m_childBits p).
Definition set_childBits (v : list Z) (p : MerkleAuthPath) : MerkleAuthPath :=
  mkPath (m_depth p) (m_rootPath p) (m_siblings p) v.
Definition set_depth (d : nat) (p : MerkleAuthPath) : MerkleAuthPath :=
  mkPath d (m_rootPath p) (m_siblings p) (m_childBits p).

(** [MerkleAuthPath()] *)
Definition AuthPath_default : MerkleAuthPath := mkPath 0 [] [] [].

(** [MerkleAuthPath(depth)] *)
Definition AuthPath_new (depth : nat) : MerkleAuthPath :=
  mkPath depth (replicate depth zero) (replicate depth zero)
         (replicate depth 0%Z).

(** [rootHash()] is [m_rootPath.back()], undefined on an empty vector. *)
Definition rootHash (p : MerkleAuthPath) : option Dig := last (m_rootPath p).

(** The body of the inner loop of [updatePath] for old path [j], after the
    node at level [i] has been hashed to [dig]. *)
Definition patch_old (overlap : list Z) (i : nat) (pathLen : Z) (dig : Dig)
    (j : nat) (oldPaths : list MerkleAuthPath) : option (list MerkleAuthPath) :=
  ov ← overlap !! j;
  if decide (pathLen ≤ ov)%Z then
    p ← oldPaths !! j;
    rp ← vset (m_rootPath p) i dig;
    vset oldPaths j (set_rootPath rp p)
  else if decide (pathLen = ov + 1)%Z then
    p ← oldPaths !! j;
    sb ← vset (m_siblings p) (i + 1) dig;
    vset oldPaths j (set_siblings sb p)
  else Some oldPaths.

(** The body of the loop after the ascent: [m_depth - 1 == overlap[j]] is a
    comparison of [size_t] values; at depth 0 its left side wraps to the
    largest [size_t], which no overlap equals, as [-1] equals none here. *)
Definition patch_leaf (overlap : list Z) (depth : nat) (leaf : Dig)
    (j : nat) (oldPaths : list MerkleAuthPath) : option (list MerkleAuthPath) :=
  ov ← overlap !! j;
  if decide (Z.of_nat depth - 1 = ov)%Z then
    p ← oldPaths !! j;
    sb ← vset (m_siblings p) 0 leaf;
    vset oldPaths j (set_siblings sb p)
  else Some oldPaths.

(** Loop state of the ascent: the hasher, [dig], the receiver, the old
    paths. *)
Definition ascent_state : Type :=
  HASH * Dig * MerkleAuthPath * list MerkleAuthPath.

Definition ascend (overlap : list Z) (i : nat) (st : ascent_state)
    : option ascent_state :=
  let '(hashAlgo, dig, self, oldPaths) := st in
  let hashAlgo := clearMessage hashAlgo in
  isRightChild ← m_childBits self !! i;
  sib ← m_siblings self !! i;
  let leftDigest := ternary isRightChild sib dig in
  let rightDigest := ternary isRightChild dig sib in
  let hashAlgo := msgInput leftDigest hashAlgo in
  let hashAlgo := msgInput rightDigest hashAlgo in
  let hashAlgo := computeHash hashAlgo in
  rp ← vset (m_rootPath self) i (digest hashAlgo);
  let self := set_rootPath rp self in
  let dig := digest hashAlgo in
  let pathLen := (Z.of_nat (m_depth self) - 1 - Z.of_nat i)%Z in
  oldPaths ← for_range 0 (length overlap)
                 (patch_old overlap i pathLen dig) oldPaths;
  Some (hashAlgo, dig, self, oldPaths).

(** [updatePath(leaf, oldPaths)] *)
Definition updatePath (leaf : Dig) (self : MerkleAuthPath)
    (oldPaths : list MerkleAuthPath)
    : option (MerkleAuthPath * list MerkleAuthPath) :=
  let overlap :=
    (λ a, matchMSB (m_childBits self) (m_childBits a)) <$> oldPaths in
  '(_, _, self, oldPaths) ←
     for_range 0 (m_depth self) (ascend overlap)
               (HASH_new, leaf, self, oldPaths);
  oldPaths ← for_range 0 (length overlap)
                 (patch_leaf overlap (m_depth self) leaf) oldPaths;
  Some (self, oldPaths).

(** [updatePath(leaf)]: the same with an empty vector of old paths. *)
Definition updatePath1 (leaf : Dig) (self : MerkleAuthPath)
    : option MerkleAuthPath :=
  fst <$> updatePath leaf self [].

(** [leafSibling(leaf)] *)
Definition leafSibling (leaf : Dig) (self : MerkleAuthPath)
    : option MerkleAuthPath :=
  sb ← vset (m_siblings self) 0 leaf;
  Some (set_siblings sb self).

(** [hashSibling(index)]: [index - 1] is a [size_t], so index 0 reads far
    outside [m_rootPath]. *)
Definition hashSibling (index : nat) (self : MerkleAuthPath)
    : option MerkleAuthPath :=
  match index with
  | O => None
  | S k =>
      d ← m_rootPath self !! k;
      sb ← vset (m_siblings self) index d;
      sb ← for_range 0 index (λ i sb, vset sb i zero) sb;
      Some (set_siblings sb self)
  end.

(** The loop of [incChildBits] from index [i], with [n] iterations left; the
    result is the vector and the returned [int]. *)
Fixpoint incChildBits_from (n i : nat) (bits : list Z)
    : option (list Z * Z) :=
  match n with
  | O => Some (bits, (-1)%Z)
  | S n' =>
      a ← bits !! i;
      if decide (0 = a)%Z then
        bits ← vset bits i 1%Z;
        Some (bits, Z.of_nat i)
      else
        bits ← vset bits i 0%Z;
        incChildBits_from n' (S i) bits
  end.

(** [incChildBits()] *)
Definition incChildBits (self : MerkleAuthPath)
    : option (MerkleAuthPath * Z) :=
  '(bits, r) ← incChildBits_from (m_depth self) 0 (m_childBits self);
  Some (set_childBits bits self, r).

(** ** MerkleTree *)

Record MerkleTree := mkTree {
  t_isFull : bool;
  t_authPath : MerkleAuthPath
}.

(** [MerkleTree()] and [MerkleTree(depth)] *)
Definition Tree_default : MerkleTree := mkTree true (AuthPath_new 0).
Definition Tree_new (depth : nat) : MerkleTree :=
  mkTree false (AuthPath_new depth).

Definition isFull (t : MerkleTree) : bool := t_isFull t.

Definition Tree_updatePath (leaf : Dig) (t : MerkleTree)
    (v : list MerkleAuthPath) : option (MerkleTree * list MerkleAuthPath) :=
  '(p, v) ← updatePath leaf (t_authPath t) v;
  Some (mkTree (t_isFull t) p, v).

Definition Tree_updatePath1 (leaf : Dig) (t : MerkleTree)
    : option MerkleTree :=
  p ← updatePath1 leaf (t_authPath t);
  Some (mkTree (t_isFull t) p).

(** [updateSiblings(leaf)] *)
Definition updateSiblings (leaf : Dig) (t : MerkleTree) : option MerkleTree :=
  '(p, firstBit) ← incChildBits (t_authPath t);
  if decide (-1 = firstBit)%Z then
    Some (mkTree true p)
  else if decide (0 = firstBit)%Z then
    p ← leafSibling leaf p;
    Some (mkTree (t_isFull t) p)
  else
    p ← hashSibling (Z.to_nat firstBit) p;
    Some (mkTree (t_isFull t) p).

(** ** MerkleBundle *)

Record MerkleBundle := mkBundle {
  b_tree : MerkleTree;
  b_treeSize : N;
  b_authLeaf : list Dig;
  b_authPath : list MerkleAuthPath
}.

(** [MerkleBundle()] and [MerkleBundle(depth)] *)
Definition Bundle_default : MerkleBundle := mkBundle Tree_default 0 [] [].
Definition Bundle_new (depth : nat) : MerkleBundle :=
  mkBundle (Tree_new depth) 0 [] [].

Definition Bundle_isFull (b : MerkleBundle) : bool := isFull (b_tree b).
Definition Bundle_rootHash (b : MerkleBundle) : option Dig :=
  rootHash (t_authPath (b_tree b)).

(** The root recomputed from a leaf and its path, as the test driver does
    it: [updatePath(leaf)] on a copy of the path, then [rootHash()]. *)
Definition reconstruct (leaf : Dig) (p : MerkleAuthPath) : option Dig :=
  p' ← updatePath1 leaf p; rootHash p'.

(** [++m_treeSize] on the unsigned type [COUNT]. *)
Definition count_inc (n : N) : N := ((n + 1) mod 2 ^ COUNT_bits)%N.

(** [addLeaf(cm, keepPath)] *)
Definition addLeaf (cm : Dig) (keepPath : bool) (b : MerkleBundle)
    : option MerkleBundle :=
  '(t, paths) ← Tree_updatePath cm (b_tree b) (b_authPath b);
  let leafs := if keepPath then b_authLeaf b ++ [cm] else b_authLeaf b in
  let paths := if keepPath then paths ++ [t_authPath t] else paths in
  t ← updateSiblings cm t;
  Some (mkBundle t (count_inc (b_treeSize b)) leafs paths).

(** The state of the loop of [authGarbageCollect]: [keepLeaf], [keepPath]. *)
Definition gc_step (b : MerkleBundle) (keepSet : gset Dig) (i : nat)
    (st : list Dig * list MerkleAuthPath)
    : option (list Dig * list MerkleAuthPath) :=
  let '(keepLeaf, keepPath) := st in
  cm ← b_authLeaf b !! i;
  if decide (cm ∈ keepSet) then
    p ← b_authPath b !! i;
    Some (keepLeaf ++ [cm], keepPath ++ [p])
  else Some (keepLeaf, keepPath).

(** [authGarbageCollect(keepSet)] *)
Definition authGarbageCollect (keepSet : gset Dig) (b : MerkleBundle)
    : option MerkleBundle :=
  '(keepLeaf, keepPath) ←
     for_range 0 (length (b_authLeaf b)) (gc_step b keepSet) ([], []);
  Some (mkBundle (b_tree b) (b_treeSize b) keepLeaf keepPath).

(** ** Marshalling *)

Context {Tok : Type}.
Context `{!Codec Tok nat, !Codec Tok bool, !Codec Tok Z, !Codec Tok N,
          !Codec Tok Dig}.

(** [MerkleAuthPath::marshal_out] *)
Definition AuthPath_marshal_out (p : MerkleAuthPath) : list Tok :=
  put (m_depth p) ++ put (m_rootPath p) ++ put (m_siblings p)
  ++ put_elems (m_childBits p).

(** The loop over [m_childBits] of [marshal_in], from element [i] with [n]
    elements left; the boolean tells whether every extraction succeeded. *)
Fixpoint read_childBits (n i : nat) (ins : istream Tok) (bits : list Z)
    : istream Tok * list Z * bool :=
  match n with
  | O => (ins, bits, true)
  | S n' =>
      let '(ins, r) := extract ins (default 0%Z (bits !! i)) in
      let bits := <[i := r]> bits in
      if is_fail ins then (ins, bits, false)
      else read_childBits n' (S i) ins bits
  end.

(** [MerkleAuthPath::marshal_in]: the result, the receiver, the stream. *)
Definition AuthPath_marshal_in (ins : istream Tok) (self : MerkleAuthPath)
    : bool * MerkleAuthPath * istream Tok :=
  let self := set_depth 0 self in
  let '(ins, len) := extract ins 0 in
  if is_fail ins || bool_decide (0 = len) then (false, self, ins) else
  let self := set_rootPath (resize_vec zero len (m_rootPath self)) self in
  let '(ins, rp) := extract ins (m_rootPath self) in
  let self := set_rootPath rp self in
  if is_fail ins then (false, self, ins) else
  let self := set_siblings (resize_vec zero len (m_siblings self)) self in
  let '(ins, sb) := extract ins (m_siblings self) in
  let self := set_siblings sb self in
  if is_fail ins then (false, self, ins) else
  let self := set_childBits (resize_vec 0%Z len (m_childBits self)) self in
  let '(ins, bits, ok) := read_childBits len 0 ins (m_childBits self) in
  let self := set_childBits bits self in
  if negb ok then (false, self, ins) else
  (true, set_depth len self, ins).

(** [MerkleTree::marshal_out] and [MerkleTree::marshal_in] *)
Definition Tree_marshal_out (t : MerkleTree) : list Tok :=
  put (t_isFull t) ++ AuthPath_marshal_out (t_authPath t).

Definition Tree_marshal_in (ins : istream Tok) (self : MerkleTree)
    : bool * MerkleTree * istream Tok :=
  let self := mkTree true (t_authPath self) in
  let '(ins, full) := extract ins true in
  if is_fail ins then (false, self, ins) else
  let '(ok, p, ins) := AuthPath_marshal_in ins (t_authPath self) in
  let self := mkTree (t_isFull self) p in
  if negb ok then (false, self, ins) else
  (true, mkTree full (t_authPath self), ins).

(** [MerkleBundle::marshal_out] *)
Definition Bundle_marshal_out (b : MerkleBundle) : list Tok :=
  Tree_marshal_out (b_tree b) ++ put (b_treeSize b) ++ put (b_authLeaf b)
  ++ concat (AuthPath_marshal_out <$> b_authPath b).

(** The loop over [m_authPath] of [MerkleBundle::marshal_in]. *)
Fixpoint read_authPaths (n i : nat) (ins : istream Tok)
    (paths : list MerkleAuthPath)
    : istream Tok * list MerkleAuthPath * bool :=
  match n with
  | O => (ins, paths, true)
  | S n' =>
      let '(ok, r, ins) :=
        AuthPath_marshal_in ins (default AuthPath_default (paths !! i)) in
      let paths := <[i := r]> paths in
      if negb ok then (ins, paths, false)
      else read_authPaths n' (S i) ins paths
  end.

(** [MerkleBundle::marshal_in] *)
Definition Bundle_marshal_in (ins : istream Tok) (self : MerkleBundle)
    : bool * MerkleBundle * istream Tok :=
  let '(ok, t, ins) := Tree_marshal_in ins (b_tree self) in
  let self := mkBundle t (b_treeSize self) (b_authLeaf self)
                       (b_authPath self) in
  if negb ok then (false, self, ins) else
  let '(ins, size) := extract ins (b_treeSize self) in
  let self := mkBundle (b_tree self) size (b_authLeaf self)
                       (b_authPath self) in
  if is_fail ins then (false, self, ins) else
  let '(ins, leafs) := extract ins (b_authLeaf self) in
  let self := mkBundle (b_tree self) (b_treeSize self) leafs
                       (b_authPath self) in
  if is_fail ins then (false, self, ins) else
  let paths := resize_vec AuthPath_default (length (b_authLeaf self))
                          (b_authPath self) in
  let '(ins, paths, ok) :=
    read_authPaths (length paths) 0 ins paths in
  let self := mkBundle (b_tree self) (b_treeSize self) (b_authLeaf self)
                       paths in
  if negb ok then (false, self, ins) else
  (true, self, ins).

(** ** What the operations compute

    Closed forms of the loops above, proved equal to them below. *)

(** A path is well formed at depth [D] when its three vectors have the
    length [m_depth = D], as every constructor leaves them. *)
Definition wf_path (D : nat) (p : MerkleAuthPath) : Prop :=
  m_depth p = D ∧ length (m_rootPath p) = D ∧
  length (m_siblings p) = D ∧ length (m_childBits p) = D.

(** The digests the ascent computes, bottom-up. *)
Fixpoint hashes (dig : Dig) (siblings : list Dig) (childBits : list Z)
    : list Dig :=
  match siblings, childBits with
  | sib :: ss, b :: bs =>
      let d := compress [ternary b sib dig; ternary b dig sib] in
      d :: hashes d ss bs
  | _, _ => []
  end.

(** The node below level [i] of a root path: the leaf at level 0. *)
Definition below (leaf : Dig) (rootPath : list Dig) (i : nat) : option Dig :=
  match i with O => Some leaf | S k => rootPath !! k end.

(** An old root path after the first [i] levels of the ascent. *)
Definition patch_rootPath (depth i : nat) (new : list Dig) (ov : Z)
    (rp : list Dig) : list Dig :=
  imap (λ k old,
          if decide (k < i ∧ (Z.of_nat depth - 1 - Z.of_nat k ≤ ov)%Z)
          then default old (new !! k) else old) rp.

(** The siblings of an old path after the first [i] levels of the ascent,
    and after the final loop when [lf] is the leaf. *)
Definition patch_siblings (depth i : nat) (lf : option Dig) (new : list Dig)
    (ov : Z) (sb : list Dig) : list Dig :=
  imap (λ k old,
          match k with
          | O => match lf with
                 | Some leaf =>
                     if decide (Z.of_nat depth - 1 = ov)%Z then leaf else old
                 | None => old
                 end
          | S k' =>
              if decide (k' < i ∧
                         (Z.of_nat depth - 1 - Z.of_nat k' = ov + 1)%Z)
              then default old (new !! k') else old
          end) sb.

Definition patched (bits : list Z) (depth i : nat) (lf : option Dig)
    (new : list Dig) (p : MerkleAuthPath) : MerkleAuthPath :=
  let ov := matchMSB bits (m_childBits p) in
  mkPath (m_depth p)
         (patch_rootPath depth i new ov (m_rootPath p))
         (patch_siblings depth i lf new ov (m_siblings p))
         (m_childBits p).

(** Two paths at the same position: same depth, same child bits. *)
Definition same_position (p p' : MerkleAuthPath) : Prop :=
  m_depth p' = m_depth p ∧ m_childBits p' = m_childBits p.

(** ** Sequences of operations *)

(** A run of [addLeaf] calls, each with its leaf and its [keepPath] flag. *)
Fixpoint addLeaves (ops : list (Dig * bool)) (b : MerkleBundle)
    : option MerkleBundle :=
  match ops with
  | [] => Some b
  | (cm, keep) :: ops => b' ← addLeaf cm keep b; addLeaves ops b'
  end.

(** The mutating operations of a [MerkleTree], those of its frontier path
    included. *)
Inductive tree_op :=
  | OpUpdatePath (leaf : Dig)
  | OpUpdatePathOld (leaf : Dig) (v : list MerkleAuthPath)
  | OpUpdateSiblings (leaf : Dig)
  | OpLeafSibling (leaf : Dig)
  | OpHashSibling (index : nat).

Definition tree_step (op : tree_op) (t : MerkleTree) : option MerkleTree :=
  match op with
  | OpUpdatePath leaf => Tree_updatePath1 leaf t
  | OpUpdatePathOld leaf v => fst <$> Tree_updatePath leaf t v
  | OpUpdateSiblings leaf => updateSiblings leaf t
  | OpLeafSibling leaf =>
      p ← leafSibling leaf (t_authPath t); Some (mkTree (t_isFull t) p)
  | OpHashSibling index =>
      p ← hashSibling index (t_authPath t); Some (mkTree (t_isFull t) p)
  end.

Fixpoint tree_steps (ops : list tree_op) (t : MerkleTree)
    : option MerkleTree :=
  match ops with
  | [] => Some t
  | op :: ops => t' ← tree_step op t; tree_steps ops t'
  end.

(** ** Positions and the tree the accumulator stands for *)

(** The [d] low bits of [n], bottom-up. *)
Fixpoint bits_of (d n : nat) : list Z :=
  match d with
  | O => []
  | S d' => Z.of_nat (n mod 2) :: bits_of d' (n / 2)
  end.

(** A vector of child bits read bottom-up as a little-endian integer. *)
Fixpoint le_value (bits : list Z) : Z :=
  match bits with
  | [] => 0
  | b :: bits => b + 2 * le_value bits
  end.

(** The number of trailing one bits among the [d] low bits of [n]. *)
Fixpoint trail (d n : nat) : nat :=
  match d with
  | O => O
  | S d' => if decide (n mod 2 = 0) then O else S (trail d' (n / 2))
  end.

(** The digest of node [q] (counted from the left) at height [h] of the tree
    over the leaves appended so far: the zero digest where no leaf has been
    appended below the node, the leaf itself at height 0, and the hash of the
    two children otherwise. *)
Fixpoint node (leaves : list Dig) (h q : nat) : Dig :=
  if decide (length leaves ≤ q * 2 ^ h) then zero
  else match h with
       | O => default zero (leaves !! q)
       | S h' => compress [node leaves h' (2 * q); node leaves h' (2 * q + 1)]
       end.

(** The other child of the parent of node [q]. *)
Definition sib_pos (q : nat) : nat :=
  if decide (q mod 2 = 0) then q + 1 else q - 1.

(** The authentication path of leaf [idx] read off that tree. *)
Definition ideal_path (D : nat) (leaves : list Dig) (idx : nat)
    : MerkleAuthPath :=
  mkPath D
    ((λ k, node leaves (S k) (idx / 2 ^ S k)) <$> seq 0 D)
    ((λ k, node leaves k (sib_pos (idx / 2 ^ k))) <$> seq 0 D)
    (bits_of D idx).

(** The insertion indices of the leaves added with [keepPath] set, the first
    operation having index [i]. *)
Fixpoint kept_from (i : nat) (ops : list (Dig * bool)) : list nat :=
  match ops with
  | [] => []
  | (_, keep) :: ops =>
      if keep then i :: kept_from (S i) ops else kept_from (S i) ops
  end.

Definition kept (ops : list (Dig * bool)) : list nat := kept_from 0 ops.

(** The siblings of the frontier when [n] leaves have been appended: the
    completed subtree on the left where the bit of [n] is one, zero where it
    is not. *)
Definition frontier_siblings (D : nat) (leaves : list Dig) : list Dig :=
  let n := length leaves in
  (λ k, if decide ((n / 2 ^ k) mod 2 = 0) then zero
        else node leaves k (n / 2 ^ k - 1)) <$> seq 0 D.

(** ** Invariants *)

(** The accumulator after the leaves [leaves] have been appended to a fresh
    tree of depth [D]. *)
Definition frontier_ok (D : nat) (leaves : list Dig) (t : MerkleTree) : Prop :=
  let n := length leaves in
  let p := t_authPath t in
  wf_path D p ∧
  t_isFull t = bool_decide (n = 2 ^ D) ∧
  m_childBits p = bits_of D n ∧
  (n < 2 ^ D → m_siblings p = frontier_siblings D leaves) ∧
  (0 < n →
   m_rootPath p = (λ k, node leaves (S k) ((n - 1) / 2 ^ S k)) <$> seq 0 D).

(** The bundle after the calls [ops] on a fresh bundle of depth [D]: every
    retained leaf and path is the one the tree gives for its insertion
    index. *)
Definition bundle_ok (D : nat) (ops : list (Dig * bool)) (b : MerkleBundle)
    : Prop :=
  frontier_ok D ops.*1 (b_tree b) ∧
  b_treeSize b = (N.of_nat (length ops) mod 2 ^ COUNT_bits)%N ∧
  b_authLeaf b = (λ idx, default zero (ops.*1 !! idx)) <$> kept ops ∧
  b_authPath b = ideal_path D ops.*1 <$> kept ops.

(** ** Further operations and runs *)

(** A bundle is well formed at depth [D] when its frontier and every
    retained path are, and it retains as many paths as leaves. *)
Definition bundle_wf (D : nat) (b : MerkleBundle) : Prop :=
  wf_path D (t_authPath (b_tree b)) ∧
  length (b_authLeaf b) = length (b_authPath b) ∧
  Forall (wf_path D) (b_authPath b).

(** The two mutating operations of a [MerkleBundle]. *)
Inductive bundle_op :=
  | OpAddLeaf (cm : Dig) (keepPath : bool)
  | OpCollect (keepSet : gset Dig).

Definition bundle_step (op : bundle_op) (b : MerkleBundle)
    : option MerkleBundle :=
  match op with
  | OpAddLeaf cm keepPath => addLeaf cm keepPath b
  | OpCollect keepSet => authGarbageCollect keepSet b
  end.

Fixpoint bundle_steps (ops : list bundle_op) (b : MerkleBundle)
    : option MerkleBundle :=
  match ops with
  | [] => Some b
  | op :: ops => b' ← bundle_step op b; bundle_steps ops b'
  end.

(** The leaves a run appends, and the insertion indices of the leaves it
    still retains at its end, given the leaves and indices at its start. *)
Fixpoint run_leaves (leaves : list Dig) (ops : list bundle_op) : list Dig :=
  match ops with
  | [] => leaves
  | OpAddLeaf cm _ :: ops => run_leaves (leaves ++ [cm]) ops
  | OpCollect _ :: ops => run_leaves leaves ops
  end.

Fixpoint run_retained (leaves : list Dig) (idxs : list nat)
    (ops : list bundle_op) : list nat :=
  match ops with
  | [] => idxs
  | OpAddLeaf cm keepPath :: ops =>
      run_retained (leaves ++ [cm])
                   (if keepPath then idxs ++ [length leaves] else idxs) ops
  | OpCollect keepSet :: ops =>
      run_retained leaves
        (filter (λ idx, default zero (leaves !! idx) ∈ keepSet) idxs) ops
  end.

(** The invariant of a bundle that has been through appends and garbage
    collections: [leaves] have been appended, and the retained leaves and
    paths are those the tree gives for the insertion indices [idxs]. *)
Definition run_inv (D : nat) (leaves : list Dig) (idxs : list nat)
    (b : MerkleBundle) : Prop :=
  frontier_ok D leaves (b_tree b) ∧
  Forall (λ idx, idx < length leaves) idxs ∧
  b_authLeaf b = (λ idx, default zero (leaves !! idx)) <$> idxs ∧
  b_authPath b = ideal_path D leaves <$> idxs.

(** ** The test driver

    [runTest] of test_merkle.cpp, the part that works on the bundle. The
    digest type is abstract here, so the leaf built from the counter,
    [DigType leaf{bundle.treeSize()}], is [leaf_of] applied to the counter.
    The [while] loop is given fuel; [None] also stands for a loop that has
    not ended when the fuel is spent. *)
Fixpoint fill_loop (leaf_of : N → Dig) (leafNumber : N) (fuel : nat)
    (b : MerkleBundle) : option MerkleBundle :=
  match fuel with
  | O => None
  | S fuel =>
      if Bundle_isFull b then Some b
      else
        b' ← addLeaf (leaf_of (b_treeSize b))
                     (bool_decide (leafNumber = b_treeSize b)) b;
        fill_loop leaf_of leafNumber fuel b'
  end.

(** What [runTest] goes on with: it exits with a failure, or it takes the
    first retained leaf and path. *)
Inductive test_result :=
  | TestExit
  | TestPath (leaf : Dig) (authPath : MerkleAuthPath).

Definition runTest (leaf_of : N → Dig) (treeDepth : nat) (leafNumber : N)
    (fuel : nat) : option test_result :=
  bundle ← fill_loop leaf_of leafNumber fuel (Bundle_new treeDepth);
  if decide (b_treeSize bundle ≤ leafNumber)%N then Some TestExit
  else
    leaf ← head (b_authLeaf bundle);
    authPath ← head (b_authPath bundle);
    Some (TestPath leaf authPath).

(** The calls the loop makes while [n] leaves are appended. *)
Definition test_ops (leaf_of : N → Dig) (leafNumber : N) (n : nat)
    : list (Dig * bool) :=
  (λ i, let c := (N.of_nat i mod 2 ^ COUNT_bits)%N in
        (leaf_of c, bool_decide (leafNumber = c))) <$> seq 0 n.

(** * Verification *)

(** ** Loops *)

Section Loops.
Context {St : Type}.
Implicit Types (body : nat → St → option St) (P : nat → St → Prop).

Lemma for_range_snoc lo n body s :
  for_range lo (S n) body s = for_range lo n body s ≫= body (lo + n).
Proof.
  revert lo s. induction n as [|n IH]; intros lo s.
  - simpl. rewrite Nat.add_0_r. by destruct (body lo s).
  - change (for_range lo (S (S n)) body s)
      with (body lo s ≫= for_range (S lo) (S n) body).
    change (for_range lo (S n) body s)
      with (body lo s ≫= for_range (S lo) n body).
    destruct (body lo s) as [s'|]; [|done].
    change (for_range (S lo) (S n) body s'
            = for_range (S lo) n body s' ≫= body (lo + S n)).
    rewrite IH. by replace (S lo + n) with (lo + S n) by lia.
Qed.

(** Total correctness: an invariant that every iteration re-establishes
    without failing holds at the end, and the loop does not fail. *)
Lemma for_range_total P lo n body s :
  P lo s →
  (∀ i s, lo ≤ i < lo + n → P i s → ∃ s', body i s = Some s' ∧ P (S i) s') →
  ∃ s', for_range lo n body s = Some s' ∧ P (lo + n) s'.
Proof.
  revert lo s. induction n as [|n IH]; intros lo s H0 Hstep.
  - exists s. rewrite Nat.add_0_r. done.
  - destruct (Hstep lo s) as (s1 & E1 & H1); [lia|done|].
    destruct (IH (S lo) s1) as (s2 & E2 & H2); [done| |].
    + intros i s' Hi. apply Hstep. lia.
    + exists s2. simpl. rewrite E1. simpl.
      by replace (lo + S n) with (S lo + n) by lia.
Qed.

(** Partial correctness: whatever a run that ends returns satisfies every
    invariant of the body. *)
Lemma for_range_partial P lo n body s s' :
  for_range lo n body s = Some s' →
  P lo s →
  (∀ i s s', lo ≤ i < lo + n → P i s → body i s = Some s' → P (S i) s') →
  P (lo + n) s'.
Proof.
  revert lo s. induction n as [|n IH]; intros lo s E H0 Hstep.
  - simpl in E. rewrite Nat.add_0_r. congruence.
  - simpl in E. destruct (body lo s) as [s1|] eqn:E1; simpl in E; [|done].
    replace (lo + S n) with (S lo + n) by lia.
    apply (IH (S lo) s1); [done| |].
    + apply (Hstep lo s s1); [lia|done|done].
    + intros i t t' Hi. apply Hstep. lia.
Qed.

End Loops.

Lemma vset_Some {A} (v : list A) i x :
  i < length v → vset v i x = Some (<[i := x]> v).
Proof. intros. unfold vset. by rewrite decide_True. Qed.

Lemma vset_inv {A} (v v' : list A) i x :
  vset v i x = Some v' → i < length v ∧ v' = <[i := x]> v.
Proof. unfold vset. case_decide; naive_solver. Qed.

(** ** The ascent of [updatePath] *)

Lemma hashes_length dig sibs bits :
  length sibs = length bits → length (hashes dig sibs bits) = length sibs.
Proof.
  revert dig bits. induction sibs as [|s sibs IH]; intros dig [|b bits] Hl;
    simpl in *; try done. f_equal. apply IH. lia.
Qed.

Lemma hashes_lookup leaf sibs bits i s b :
  sibs !! i = Some s → bits !! i = Some b →
  ∃ bl, below leaf (hashes leaf sibs bits) i = Some bl ∧
        hashes leaf sibs bits !! i
        = Some (compress [ternary b s bl; ternary b bl s]).
Proof.
  revert leaf bits i. induction sibs as [|s0 sibs IH];
    intros leaf [|b0 bits] i Hs Hb; try done.
  destruct i as [|i]; simpl in *.
  - exists leaf. naive_solver.
  - destruct (IH (compress [ternary b0 s0 leaf; ternary b0 leaf s0])
                bits i Hs Hb) as (bl & Hbl & Hd).
    exists bl. split; [|done]. by destruct i.
Qed.

Lemma insert_take_drop {A} (new old : list A) i d :
  new !! i = Some d → i < length old →
  <[i := d]> (take i new ++ drop i old) = take (S i) new ++ drop (S i) old.
Proof.
  intros Hn Ho.
  assert (length (take i new) = i) as Hlen.
  { rewrite length_take. apply lookup_lt_Some in Hn. lia. }
  destruct (lookup_lt_is_Some_2 old i Ho) as [x Hx].
  rewrite (drop_S _ _ _ Hx), (take_S_r _ _ _ Hn).
  rewrite insert_app_r_alt by lia. rewrite Hlen, Nat.sub_diag. simpl.
  by rewrite <- app_assoc.
Qed.

Lemma patch_rootPath_length depth i new ov rp :
  length (patch_rootPath depth i new ov rp) = length rp.
Proof. apply length_imap. Qed.

Lemma patch_siblings_length depth i lf new ov sb :
  length (patch_siblings depth i lf new ov sb) = length sb.
Proof. apply length_imap. Qed.

Lemma patch_rootPath_hit depth i new ov rp dig :
  i < length rp → (Z.of_nat depth - 1 - Z.of_nat i ≤ ov)%Z →
  new !! i = Some dig →
  <[i := dig]> (patch_rootPath depth i new ov rp)
  = patch_rootPath depth (S i) new ov rp.
Proof.
  intros Hi Hc Hn. apply list_eq. intros k. unfold patch_rootPath.
  destruct (decide (k = i)) as [->|Hne].
  - rewrite list_lookup_insert_eq by (by rewrite length_imap).
    rewrite list_lookup_imap.
    destruct (lookup_lt_is_Some_2 rp i Hi) as [x ->]. simpl.
    rewrite decide_True by lia. by rewrite Hn.
  - rewrite list_lookup_insert_ne by done. rewrite !list_lookup_imap.
    destruct (rp !! k); [|done]. simpl.
    repeat case_decide; try done; lia.
Qed.

Lemma patch_rootPath_miss depth i new ov rp :
  ¬ (Z.of_nat depth - 1 - Z.of_nat i ≤ ov)%Z →
  patch_rootPath depth (S i) new ov rp = patch_rootPath depth i new ov rp.
Proof.
  intros Hc. apply list_eq. intros k. unfold patch_rootPath.
  rewrite !list_lookup_imap. destruct (rp !! k); [|done]. simpl.
  repeat case_decide; try done.
  - assert (k = i) by lia. subst. lia.
  - lia.
Qed.

Lemma patch_siblings_hit depth i lf new ov sb dig :
  S i < length sb → (Z.of_nat depth - 1 - Z.of_nat i = ov + 1)%Z →
  new !! i = Some dig →
  <[S i := dig]> (patch_siblings depth i lf new ov sb)
  = patch_siblings depth (S i) lf new ov sb.
Proof.
  intros Hi Hc Hn. apply list_eq. intros k. unfold patch_siblings.
  destruct (decide (k = S i)) as [->|Hne].
  - rewrite list_lookup_insert_eq by (by rewrite length_imap).
    rewrite list_lookup_imap.
    destruct (lookup_lt_is_Some_2 sb (S i) Hi) as [x ->]. simpl.
    rewrite decide_True by lia. by rewrite Hn.
  - rewrite list_lookup_insert_ne by done. rewrite !list_lookup_imap.
    destruct (sb !! k); [|done]. simpl. destruct k as [|k]; [done|].
    repeat case_decide; try done; lia.
Qed.

Lemma patch_siblings_miss depth i lf new ov sb :
  ¬ (Z.of_nat depth - 1 - Z.of_nat i = ov + 1)%Z →
  patch_siblings depth (S i) lf new ov sb
  = patch_siblings depth i lf new ov sb.
Proof.
  intros Hc. apply list_eq. intros k. unfold patch_siblings.
  rewrite !list_lookup_imap. destruct (sb !! k); [|done]. simpl.
  destruct k as [|k]; [done|].
  repeat case_decide; try done.
  - assert (k = i) by lia. subst. lia.
  - lia.
Qed.

Lemma patch_siblings_leaf_hit depth i leaf new ov sb :
  0 < length sb → (Z.of_nat depth - 1 = ov)%Z →
  <[0 := leaf]> (patch_siblings depth i None new ov sb)
  = patch_siblings depth i (Some leaf) new ov sb.
Proof.
  intros Hi Hc. unfold patch_siblings. destruct sb as [|x sb]; simpl in *.
  - lia.
  - rewrite decide_True by done. done.
Qed.

Lemma patch_siblings_leaf_miss depth i leaf new ov sb :
  ¬ (Z.of_nat depth - 1 = ov)%Z →
  patch_siblings depth i (Some leaf) new ov sb
  = patch_siblings depth i None new ov sb.
Proof.
  intros Hc. unfold patch_siblings. destruct sb as [|x sb]; simpl; [done|].
  by rewrite decide_False by done.
Qed.

(** A loop that rewrites element [j] of a vector at iteration [j]. *)
Lemma for_range_map {A} (f f' : A → A) (l : list A)
    (body : nat → list A → option (list A)) :
  (∀ j cur p, l !! j = Some p → cur !! j = Some (f p) →
              body j cur = Some (<[j := f' p]> cur)) →
  for_range 0 (length l) body (f <$> l) = Some (f' <$> l).
Proof.
  intros Hbody.
  destruct (for_range_total
              (λ j cur, cur = take j (f' <$> l) ++ drop j (f <$> l))
              0 (length l) body (f <$> l)) as (r & Hr & HP).
  - done.
  - intros j cur [_ Hj] ->. simpl in Hj.
    destruct (lookup_lt_is_Some_2 l j Hj) as [p Hp].
    eexists. split.
    + apply (Hbody j _ p Hp).
      rewrite lookup_app_r by (rewrite length_take, length_fmap; lia).
      rewrite length_take, length_fmap, lookup_drop.
      replace (j + (j - j `min` length l)) with j by lia.
      by rewrite list_lookup_fmap, Hp.
    + apply insert_take_drop.
      * by rewrite list_lookup_fmap, Hp.
      * by rewrite length_fmap.
  - rewrite Hr, HP. simpl.
    rewrite take_ge, drop_ge by (rewrite length_fmap; lia).
    by rewrite app_nil_r.
Qed.

Lemma matchMSB_nonneg a b : (0 ≤ matchMSB a b)%Z.
Proof. unfold matchMSB. lia. Qed.

Lemma patched_0 bits depth new p : patched bits depth 0 None new p = p.
Proof.
  destruct p as [d rp sb cb]. unfold patched. simpl. f_equal.
  - apply list_eq. intros k. unfold patch_rootPath. rewrite list_lookup_imap.
    destruct (rp !! k); done.
  - apply list_eq. intros k. unfold patch_siblings. rewrite list_lookup_imap.
    destruct (sb !! k); [|done]. by destruct k.
Qed.

(** The inner loop at level [i] moves every old path one level on. *)
Lemma patch_old_loop D bits new i dig olds :
  Forall (wf_path D) olds → i < D → new !! i = Some dig →
  let overlap := (λ a, matchMSB bits (m_childBits a)) <$> olds in
  for_range 0 (length overlap)
    (patch_old overlap i (Z.of_nat D - 1 - Z.of_nat i) dig)
    (patched bits D i None new <$> olds)
  = Some (patched bits D (S i) None new <$> olds).
Proof.
  intros Hwf Hi Hnew overlap. unfold overlap. rewrite length_fmap.
  apply for_range_map. intros j cur p Hp Hcur.
  unfold patch_old. rewrite list_lookup_fmap, Hp. simpl.
  pose proof (matchMSB_nonneg bits (m_childBits p)) as Hov.
  assert (wf_path D p) as (Hd & Hrp & Hsb & Hcb).
  { eapply Forall_lookup_1; eauto. }
  assert (j < length cur) as Hj by (by eapply lookup_lt_Some).
  case_decide as C1; [|case_decide as C2].
  - rewrite Hcur. simpl.
    rewrite vset_Some by (rewrite patch_rootPath_length; lia). simpl.
    rewrite vset_Some by done. do 2 f_equal.
    unfold patched, set_rootPath. simpl. f_equal.
    + apply patch_rootPath_hit; [lia|done|done].
    + symmetry. apply patch_siblings_miss. lia.
  - rewrite Hcur. simpl.
    rewrite vset_Some by (rewrite patch_siblings_length; lia). simpl.
    rewrite vset_Some by done. do 2 f_equal.
    unfold patched, set_siblings. simpl. f_equal.
    + symmetry. by apply patch_rootPath_miss.
    + rewrite Nat.add_1_r. apply patch_siblings_hit; [lia|done|done].
  - f_equal. symmetry. apply list_insert_id. rewrite Hcur. f_equal.
    unfold patched. f_equal.
    + symmetry. by apply patch_rootPath_miss.
    + symmetry. by apply patch_siblings_miss.
Qed.

(** The loop after the ascent installs the leaf as level-0 sibling. *)
Lemma patch_leaf_loop D bits new i leaf olds :
  Forall (wf_path D) olds →
  let overlap := (λ a, matchMSB bits (m_childBits a)) <$> olds in
  for_range 0 (length overlap) (patch_leaf overlap D leaf)
    (patched bits D i None new <$> olds)
  = Some (patched bits D i (Some leaf) new <$> olds).
Proof.
  intros Hwf overlap. unfold overlap. rewrite length_fmap.
  apply for_range_map. intros j cur p Hp Hcur.
  unfold patch_leaf. rewrite list_lookup_fmap, Hp. simpl.
  pose proof (matchMSB_nonneg bits (m_childBits p)) as Hov.
  assert (wf_path D p) as (Hd & Hrp & Hsb & Hcb).
  { eapply Forall_lookup_1; eauto. }
  assert (j < length cur) as Hj by (by eapply lookup_lt_Some).
  case_decide as C1.
  - rewrite Hcur. simpl.
    rewrite vset_Some by (rewrite patch_siblings_length; lia). simpl.
    rewrite vset_Some by done. do 2 f_equal.
    unfold patched, set_siblings. simpl. f_equal.
    apply patch_siblings_leaf_hit; [lia|done].
  - f_equal. symmetry. apply list_insert_id. rewrite Hcur. f_equal.
    unfold patched. f_equal. symmetry. by apply patch_siblings_leaf_miss.
Qed.

(** [updatePath] in closed form: the receiver gets the recomputed root
    path, every old path its patch. *)
Lemma updatePath_spec D leaf self olds :
  wf_path D self → Forall (wf_path D) olds →
  let new := hashes leaf (m_siblings self) (m_childBits self) in
  updatePath leaf self olds
  = Some (set_rootPath new self,
          patched (m_childBits self) D D (Some leaf) new <$> olds).
Proof.
  intros (Hd & Hrp & Hsb & Hcb) Hwf new.
  assert (length new = D) as Hnew.
  { unfold new. rewrite hashes_length; lia. }
  unfold updatePath. rewrite Hd.
  set (overlap := _ <$> olds).
  destruct (for_range_total
    (λ i (st : ascent_state),
       ∃ h dig, st = (h, dig,
                      set_rootPath (take i new ++ drop i (m_rootPath self)) self,
                      patched (m_childBits self) D i None new <$> olds)
                ∧ below leaf new i = Some dig)
    0 D (ascend overlap) (HASH_new, leaf, self, olds)) as (st & Hst & HP).
  - exists HASH_new, leaf. split; [|done]. f_equal; [f_equal|].
    + by destruct self.
    + rewrite <- (list_fmap_id olds) at 1. apply list_fmap_ext.
      intros _ p _. by rewrite patched_0.
  - intros i st [_ Hi] (h & dig & -> & Hbl). simpl in Hi.
    destruct (lookup_lt_is_Some_2 (m_childBits self) i) as [b Hb]; [lia|].
    destruct (lookup_lt_is_Some_2 (m_siblings self) i) as [s Hs]; [lia|].
    destruct (hashes_lookup leaf _ _ i s b Hs Hb) as (bl & Hbl' & Hd').
    fold new in Hbl', Hd'. rewrite Hbl in Hbl'. injection Hbl' as <-.
    unfold ascend. simpl. rewrite Hb, Hs. simpl.
    rewrite vset_Some
      by (rewrite length_app, length_take, length_drop; lia).
    simpl. rewrite Hd.
    rewrite (insert_take_drop _ _ _ _ Hd') by lia.
    pose proof (patch_old_loop D (m_childBits self) new i _ olds Hwf Hi Hd')
      as Hloop.
    simpl in Hloop. fold overlap in Hloop.
    unfold digest, computeHash, msgInput, clearMessage. simpl.
    rewrite Hloop. simpl. eexists. split; [done|].
    eexists _, _. split; [reflexivity|]. simpl. done.
  - rewrite Hst. destruct HP as (h & dig & -> & _). simpl.
    pose proof (patch_leaf_loop D (m_childBits self) new D leaf olds Hwf)
      as Hloop.
    simpl in Hloop. fold overlap in Hloop. rewrite Hd, Hloop. simpl.
    rewrite take_ge, drop_ge by lia. by rewrite app_nil_r.
Qed.

Lemma updatePath1_spec D leaf self :
  wf_path D self →
  updatePath1 leaf self
  = Some (set_rootPath (hashes leaf (m_siblings self) (m_childBits self))
                       self).
Proof.
  intros Hwf. unfold updatePath1.
  by rewrite (updatePath_spec D leaf self [] Hwf) by constructor.
Qed.

(** C3: after [updatePath(leaf)] on a path whose vectors have the length of
    its depth, every level [i] holds [H(left || right)], where [below] is the
    leaf at level 0 and [rootPath[i-1]] above, the child bit selects on which
    side [below] goes, and the message hashed at each level consists of
    exactly these two digests. *)
Theorem C3_updatePath_levels (D : nat) (leaf : Dig) (p : MerkleAuthPath) :
  wf_path D p →
  ∃ p', updatePath1 leaf p = Some p' ∧
    ∀ i, i < D →
      ∃ bl sib b,
        below leaf (m_rootPath p') i = Some bl ∧
        m_siblings p' !! i = Some sib ∧
        m_childBits p' !! i = Some b ∧
        m_rootPath p' !! i
        = Some (compress [ (if decide (b = 0)%Z then bl else sib);
                           (if decide (b = 0)%Z then sib else bl) ]).
Proof.
  intros Hwf. rewrite (updatePath1_spec D leaf p Hwf).
  eexists. split; [done|]. intros i Hi. simpl.
  destruct Hwf as (Hd & Hrp & Hsb & Hcb).
  destruct (lookup_lt_is_Some_2 (m_childBits p) i) as [b Hb]; [lia|].
  destruct (lookup_lt_is_Some_2 (m_siblings p) i) as [s Hs]; [lia|].
  destruct (hashes_lookup leaf _ _ i s b Hs Hb) as (bl & Hbl & Hh).
  exists bl, s, b. by rewrite Hh.
Qed.

(** ** The frame of [updatePath] *)

Lemma same_position_insert olds cur j p p' :
  Forall2 same_position olds cur → cur !! j = Some p →
  m_depth p' = m_depth p → m_childBits p' = m_childBits p →
  Forall2 same_position olds (<[j := p']> cur).
Proof.
  intros HF Hj Hd Hc.
  destruct (Forall2_lookup_r _ _ _ _ _ HF Hj) as (q & Hq & Hd' & Hc').
  rewrite <- (list_insert_id olds j q Hq).
  apply Forall2_insert; [done|]. split; congruence.
Qed.

Lemma patch_old_frame overlap i pathLen dig j olds cur cur' :
  Forall2 same_position olds cur →
  patch_old overlap i pathLen dig j cur = Some cur' →
  Forall2 same_position olds cur'.
Proof.
  intros HF. unfold patch_old. intros E.
  destruct (overlap !! j) as [ov|]; simpl in E; [|done].
  repeat case_decide.
  - destruct (cur !! j) as [p|] eqn:Hp; simpl in E; [|done].
    destruct (vset (m_rootPath p) i dig) as [rp|]; simpl in E; [|done].
    apply vset_inv in E as [_ ->]. by eapply same_position_insert.
  - destruct (cur !! j) as [p|] eqn:Hp; simpl in E; [|done].
    destruct (vset (m_siblings p) (i + 1) dig) as [sb|]; simpl in E; [|done].
    apply vset_inv in E as [_ ->]. by eapply same_position_insert.
  - congruence.
Qed.

Lemma patch_leaf_frame overlap depth leaf j olds cur cur' :
  Forall2 same_position olds cur →
  patch_leaf overlap depth leaf j cur = Some cur' →
  Forall2 same_position olds cur'.
Proof.
  intros HF. unfold patch_leaf. intros E.
  destruct (overlap !! j) as [ov|]; simpl in E; [|done].
  case_decide.
  - destruct (cur !! j) as [p|] eqn:Hp; simpl in E; [|done].
    destruct (vset (m_siblings p) 0 leaf) as [sb|]; simpl in E; [|done].
    apply vset_inv in E as [_ ->]. by eapply same_position_insert.
  - congruence.
Qed.

Lemma same_position_refl olds : Forall2 same_position olds olds.
Proof. apply Forall2_same_length_lookup_2; [done|]. by intros; simplify_eq. Qed.

Lemma updatePath_frame leaf self olds self' olds' :
  updatePath leaf self olds = Some (self', olds') →
  m_depth self' = m_depth self ∧ m_siblings self' = m_siblings self ∧
  m_childBits self' = m_childBits self ∧
  Forall2 same_position olds olds'.
Proof.
  unfold updatePath. set (overlap := _ <$> olds). intros E.
  destruct (for_range 0 (m_depth self) (ascend overlap)
              (HASH_new, leaf, self, olds)) as [[[[h dig] s1] o1]|] eqn:E1;
    simpl in E; [|done].
  destruct (for_range 0 (length overlap)
              (patch_leaf overlap (m_depth s1) leaf) o1) as [o2|] eqn:E2;
    simpl in E; [|done].
  injection E as <- <-.
  pose proof (for_range_partial
    (λ _ (st : ascent_state),
       m_depth st.1.2 = m_depth self ∧ m_siblings st.1.2 = m_siblings self ∧
       m_childBits st.1.2 = m_childBits self ∧
       Forall2 same_position olds st.2) _ _ _ _ _ E1) as HP.
  simpl in HP. destruct HP as (Hd & Hs & Hc & HF).
  { repeat split; try done. apply same_position_refl. }
  { intros i [[[h0 d0] s0] o0] st' _ (Hd & Hs & Hc & HF) Ea. simpl in *.
    unfold ascend in Ea.
    destruct (m_childBits s0 !! i); simpl in Ea; [|done].
    destruct (m_siblings s0 !! i); simpl in Ea; [|done].
    destruct (vset _ _ _) as [rp|]; simpl in Ea; [|done].
    match type of Ea with
    | context [for_range ?a ?b ?c ?d] =>
        destruct (for_range a b c d) as [o'|] eqn:Ei
    end; simpl in Ea; [|done].
    injection Ea as <-. simpl. repeat split; try done.
    apply (for_range_partial (λ _ cur, Forall2 same_position olds cur)
             _ _ _ _ _ Ei); [done|].
    intros j cur cur' _. apply patch_old_frame. }
  repeat split; try done.
  apply (for_range_partial (λ _ cur, Forall2 same_position olds cur)
           _ _ _ _ _ E2); [done|].
  intros j cur cur' _. apply patch_leaf_frame.
Qed.

(** C9: [updatePath(leaf, oldPaths)] is defined whenever the receiver and
    the old paths are well formed at one depth, and whenever it is defined
    it leaves the receiver's depth, siblings and child bits, and every old
    path's depth and child bits, as they were. *)
Theorem C9_updatePath_frame (leaf : Dig) (self : MerkleAuthPath)
    (oldPaths : list MerkleAuthPath) :
  (∀ D, wf_path D self → Forall (wf_path D) oldPaths →
        is_Some (updatePath leaf self oldPaths)) ∧
  (∀ self' oldPaths',
     updatePath leaf self oldPaths = Some (self', oldPaths') →
     m_depth self' = m_depth self ∧
     m_siblings self' = m_siblings self ∧
     m_childBits self' = m_childBits self ∧
     length oldPaths' = length oldPaths ∧
     ∀ j p p', oldPaths !! j = Some p → oldPaths' !! j = Some p' →
               m_depth p' = m_depth p ∧ m_childBits p' = m_childBits p).
Proof.
  split.
  - intros D Hs Ho. by rewrite (updatePath_spec D leaf self oldPaths Hs Ho).
  - intros self' olds' E.
    destruct (updatePath_frame _ _ _ _ _ E) as (Hd & Hs & Hc & HF).
    repeat split; try done.
    + symmetry. by eapply Forall2_length.
    + by eapply (Forall2_lookup_lr _ _ _ _ _ _ HF).
    + by eapply (Forall2_lookup_lr _ _ _ _ _ _ HF).
Qed.

(** ** Garbage collection *)

Lemma gc_loop (keepSet : gset Dig) (b : MerkleBundle) :
  length (b_authLeaf b) = length (b_authPath b) →
  let kept := filter (λ x, x.1 ∈ keepSet)
                     (zip (b_authLeaf b) (b_authPath b)) in
  for_range 0 (length (b_authLeaf b)) (gc_step b keepSet) ([], [])
  = Some (kept.*1, kept.*2).
Proof.
  intros Hlen kept.
  set (pairs := zip (b_authLeaf b) (b_authPath b)).
  destruct (for_range_total
    (λ i st, st = ((filter (λ x, x.1 ∈ keepSet) (take i pairs)).*1,
                   (filter (λ x, x.1 ∈ keepSet) (take i pairs)).*2))
    0 (length (b_authLeaf b)) (gc_step b keepSet) ([], []))
    as (st & Hst & HP).
  - done.
  - intros i st [_ Hi] ->. simpl in Hi.
    destruct (lookup_lt_is_Some_2 (b_authLeaf b) i Hi) as [cm Hcm].
    destruct (lookup_lt_is_Some_2 (b_authPath b) i) as [p Hp]; [lia|].
    assert (pairs !! i = Some (cm, p)) as Hpair.
    { unfold pairs. rewrite lookup_zip_with, Hcm. simpl. by rewrite Hp. }
    unfold gc_step. rewrite Hcm. simpl.
    rewrite (take_S_r _ _ _ Hpair), filter_app.
    case_decide as Hin.
    + rewrite Hp. simpl. eexists. split; [done|].
      rewrite filter_cons_True, filter_nil by done.
      by rewrite !fmap_app.
    + eexists. split; [done|].
      rewrite filter_cons_False, filter_nil by done.
      by rewrite app_nil_r.
  - rewrite Hst, HP. simpl. unfold kept. fold pairs.
    rewrite take_ge; [done|]. unfold pairs. rewrite length_zip_with. lia.
Qed.

(** C8: on a bundle that holds as many paths as leaves,
    [authGarbageCollect(keepSet)] leaves in [authLeaf] and [authPath] exactly
    the pairs whose leaf is in [keepSet], in their previous order; their
    number is the number of retained leaves in the set, and the tree and the
    count are untouched. *)
Theorem C8_authGarbageCollect (keepSet : gset Dig) (b : MerkleBundle) :
  length (b_authLeaf b) = length (b_authPath b) →
  ∃ b', authGarbageCollect keepSet b = Some b' ∧
    zip (b_authLeaf b') (b_authPath b')
    = filter (λ x, x.1 ∈ keepSet) (zip (b_authLeaf b) (b_authPath b)) ∧
    b_authLeaf b' = filter (λ cm, cm ∈ keepSet) (b_authLeaf b) ∧
    length (b_authPath b') = length (b_authLeaf b') ∧
    length (b_authLeaf b')
    = length (filter (λ cm, cm ∈ keepSet) (b_authLeaf b)) ∧
    b_tree b' = b_tree b ∧ b_treeSize b' = b_treeSize b.
Proof.
  intros Hlen. unfold authGarbageCollect. rewrite (gc_loop keepSet b Hlen).
  simpl. eexists. split; [done|]. simpl.
  set (kept := filter _ (zip _ _)).
  assert (kept.*1 = filter (λ cm, cm ∈ keepSet) (b_authLeaf b)) as Hfst.
  { unfold kept. clear kept. revert Hlen.
    generalize (b_authPath b). induction (b_authLeaf b) as [|cm l IH];
      intros [|p ps] Hl; simpl in *; try done.
    rewrite !filter_cons. simpl. case_decide; simpl; rewrite IH by lia; done. }
  repeat split.
  - apply zip_fst_snd.
  - done.
  - by rewrite !length_fmap.
  - by rewrite Hfst.
Qed.

(** ** The full flag *)

Lemma updateSiblings_isFull leaf t t' :
  updateSiblings leaf t = Some t' → t_isFull t = true → t_isFull t' = true.
Proof.
  unfold updateSiblings. intros E Hf.
  destruct (incChildBits (t_authPath t)) as [[p r]|]; simpl in E; [|done].
  repeat case_decide.
  - by injection E as <-.
  - destruct (leafSibling leaf p); simpl in E; [|done]. by injection E as <-.
  - destruct (hashSibling _ p); simpl in E; [|done]. by injection E as <-.
Qed.

Lemma Tree_updatePath_isFull leaf t v t' v' :
  Tree_updatePath leaf t v = Some (t', v') → t_isFull t' = t_isFull t.
Proof.
  unfold Tree_updatePath. intros E.
  destruct (updatePath leaf (t_authPath t) v) as [[p w]|]; simpl in E;
    [|done]. by injection E as <- <-.
Qed.

Lemma tree_step_isFull op t t' :
  tree_step op t = Some t' → t_isFull t = true → t_isFull t' = true.
Proof.
  destruct op; simpl; intros E Hf.
  - unfold Tree_updatePath1 in E.
    destruct (updatePath1 leaf (t_authPath t)); simpl in E; [|done].
    by injection E as <-.
  - destruct (Tree_updatePath leaf t v) as [[t1 v1]|] eqn:E1; simpl in E;
      [|done]. injection E as <-.
    by rewrite (Tree_updatePath_isFull _ _ _ _ _ E1).
  - by eapply updateSiblings_isFull.
  - destruct (leafSibling leaf (t_authPath t)); simpl in E; [|done].
    by injection E as <-.
  - destruct (hashSibling index (t_authPath t)); simpl in E; [|done].
    by injection E as <-.
Qed.

Lemma addLeaf_isFull cm keep b b' :
  addLeaf cm keep b = Some b' →
  Bundle_isFull b = true → Bundle_isFull b' = true.
Proof.
  unfold addLeaf, Bundle_isFull, isFull. intros E Hf.
  destruct (Tree_updatePath cm (b_tree b) (b_authPath b)) as [[t v]|] eqn:E1;
    simpl in E; [|done].
  destruct (updateSiblings cm t) as [t2|] eqn:E2; simpl in E; [|done].
  injection E as <-. simpl.
  apply (updateSiblings_isFull _ _ _ E2).
  by rewrite (Tree_updatePath_isFull _ _ _ _ _ E1).
Qed.

(** C10: [isFull] is latched. No sequence of [updatePath],
    [updateSiblings], [leafSibling] and [hashSibling] on an accumulator, no
    sequence of [addLeaf] on a bundle and no [authGarbageCollect] takes
    [isFull] from true back to false. *)
Theorem C10_isFull_latched :
  (∀ (ops : list tree_op) (t t' : MerkleTree),
     isFull t = true → tree_steps ops t = Some t' → isFull t' = true) ∧
  (∀ (ops : list (Dig * bool)) (b b' : MerkleBundle),
     Bundle_isFull b = true → addLeaves ops b = Some b' →
     Bundle_isFull b' = true) ∧
  (∀ (keepSet : gset Dig) (b b' : MerkleBundle),
     Bundle_isFull b = true → authGarbageCollect keepSet b = Some b' →
     Bundle_isFull b' = true).
Proof.
  split; [|split].
  - induction ops as [|op ops IH]; intros t t' Hf E; simpl in E.
    + congruence.
    + destruct (tree_step op t) as [t1|] eqn:E1; simpl in E; [|done].
      apply (IH t1); [|done]. by eapply tree_step_isFull.
  - induction ops as [|[cm keep] ops IH]; intros b b' Hf E; simpl in E.
    + congruence.
    + destruct (addLeaf cm keep b) as [b1|] eqn:E1; simpl in E; [|done].
      apply (IH b1); [|done]. by eapply addLeaf_isFull.
  - intros keepSet b b' Hf E. unfold authGarbageCollect in E.
    destruct (for_range _ _ _ _) as [[kl kp]|]; simpl in E; [|done].
    by injection E as <-.
Qed.

(** ** Positions as bit vectors *)

Lemma div_pow2_S n k : n / 2 ^ S k = n / 2 / 2 ^ k.
Proof. rewrite Nat.pow_succ_r', Nat.Div0.div_div. done. Qed.

Lemma div_pow2_S' n k : n / 2 ^ S k = n / 2 ^ k / 2.
Proof.
  rewrite Nat.pow_succ_r', Nat.Div0.div_div. f_equal. lia.
Qed.

Lemma pow2_pos k : 0 < 2 ^ k.
Proof. apply Nat.neq_0_lt_0, Nat.pow_nonzero. done. Qed.

Lemma div_pow2_bounds n k :
  n / 2 ^ k * 2 ^ k ≤ n ∧ n < (n / 2 ^ k + 1) * 2 ^ k.
Proof.
  pose proof (pow2_pos k).
  pose proof (Nat.div_mod_eq n (2 ^ k)).
  pose proof (Nat.mod_upper_bound n (2 ^ k)). nia.
Qed.

Lemma half_lt_pow2 n d : n < 2 ^ S d → n / 2 < 2 ^ d.
Proof.
  rewrite Nat.pow_succ_r'. intros.
  apply Nat.Div0.div_lt_upper_bound. lia.
Qed.

Lemma bits_of_length d n : length (bits_of d n) = d.
Proof. revert n. induction d; intros; simpl; auto. Qed.

Lemma bits_of_lookup d n k :
  k < d → bits_of d n !! k = Some (Z.of_nat ((n / 2 ^ k) mod 2)).
Proof.
  revert n k. induction d as [|d IH]; intros n k Hk; [lia|].
  destruct k as [|k]; cbn [bits_of].
  - by rewrite Nat.pow_0_r, Nat.div_1_r.
  - rewrite lookup_cons. rewrite IH by lia. by rewrite div_pow2_S.
Qed.

Lemma drop_bits_of d n j : drop j (bits_of d n) = bits_of (d - j) (n / 2 ^ j).
Proof.
  revert d n. induction j as [|j IH]; intros d n.
  - by rewrite Nat.pow_0_r, Nat.div_1_r, Nat.sub_0_r.
  - destruct d as [|d]; [done|]. cbn [bits_of drop Nat.sub].
    rewrite IH. by rewrite div_pow2_S.
Qed.

Lemma bits_of_inj d a b :
  a < 2 ^ d → b < 2 ^ d → bits_of d a = bits_of d b → a = b.
Proof.
  revert a b. induction d as [|d IH]; intros a b Ha Hb E.
  - simpl in *. lia.
  - cbn [bits_of] in E.
    pose proof (f_equal head E) as E0. pose proof (f_equal tail E) as E1.
    cbn [head tail] in E0, E1. apply (inj Some) in E0.
    apply IH in E1; [|by apply half_lt_pow2..].
    pose proof (Nat.div_mod_eq a 2). pose proof (Nat.div_mod_eq b 2). lia.
Qed.

Lemma le_value_bits_of d n :
  n < 2 ^ d → le_value (bits_of d n) = Z.of_nat n.
Proof.
  revert n. induction d as [|d IH]; intros n Hn.
  - simpl in *. lia.
  - cbn [bits_of le_value]. rewrite IH by (by apply half_lt_pow2).
    pose proof (Nat.div_mod_eq n 2). lia.
Qed.

Lemma common_prefix_len_ge (x y : list Z) m :
  m ≤ common_prefix_len x y ↔
  take m x = take m y ∧ m ≤ length x ∧ m ≤ length y.
Proof.
  revert y m. induction x as [|a x IH]; intros [|b y] [|m]; simpl;
    try (intuition (done || lia)).
  case_decide as E.
  - subst. rewrite <- Nat.succ_le_mono, IH. split.
    + intros (E & ? & ?). rewrite E. repeat split; lia.
    + intros (Et & ? & ?). injection Et as Et. repeat split; [done|lia..].
  - split; [lia|]. intros (Et & _). congruence.
Qed.

(** The overlap is at least [D - j] exactly when the two positions agree
    from bit [j] upwards. *)
Lemma matchMSB_ge (a b : list Z) D j :
  length a = D → length b = D → j ≤ D →
  (Z.of_nat (D - j) ≤ matchMSB a b)%Z ↔ drop j a = drop j b.
Proof.
  intros Ha Hb Hj. unfold matchMSB.
  rewrite <- Nat2Z.inj_le, common_prefix_len_ge, !length_reverse.
  rewrite !take_reverse, Ha, Hb.
  replace (D - (D - j)) with j by lia.
  split.
  - intros (E & _). by apply (inj reverse) in E.
  - intros ->. repeat split; lia.
Qed.

Lemma matchMSB_bits D n idx j :
  n < 2 ^ D → idx < 2 ^ D → j ≤ D →
  (Z.of_nat (D - j) ≤ matchMSB (bits_of D n) (bits_of D idx))%Z
  ↔ n / 2 ^ j = idx / 2 ^ j.
Proof.
  intros Hn Hi Hj.
  rewrite (matchMSB_ge _ _ D j) by (by rewrite ?bits_of_length).
  rewrite !drop_bits_of.
  assert (∀ x, x < 2 ^ D → x / 2 ^ j < 2 ^ (D - j)) as Hlt.
  { intros x Hx. apply Nat.Div0.div_lt_upper_bound.
    rewrite <- Nat.pow_add_r. by replace (j + (D - j)) with D by lia. }
  split.
  - apply bits_of_inj; by apply Hlt.
  - by intros ->.
Qed.

(** ** The counter *)

Lemma insert_middle {A} (pre : list A) x y rest :
  <[length pre := y]> (pre ++ x :: rest) = pre ++ y :: rest.
Proof. rewrite insert_app_r_alt by lia. by rewrite Nat.sub_diag. Qed.

Lemma even_succ n : n mod 2 = 0 → (n + 1) mod 2 = 1 ∧ (n + 1) / 2 = n / 2.
Proof.
  pose proof (Nat.div_mod_eq n 2). pose proof (Nat.div_mod_eq (n + 1) 2).
  pose proof (Nat.mod_upper_bound n 2).
  pose proof (Nat.mod_upper_bound (n + 1) 2). lia.
Qed.

Lemma odd_succ n : n mod 2 ≠ 0 → (n + 1) mod 2 = 0 ∧ (n + 1) / 2 = n / 2 + 1.
Proof.
  pose proof (Nat.div_mod_eq n 2). pose proof (Nat.div_mod_eq (n + 1) 2).
  pose proof (Nat.mod_upper_bound n 2).
  pose proof (Nat.mod_upper_bound (n + 1) 2). lia.
Qed.

(** Incrementing the counter [n < 2^d]: the bits become those of [n + 1]
    (all zero when the counter wraps), and the result is [-1] on a wrap and
    the index of the bit that went from zero to one otherwise. *)
Lemma incChildBits_from_spec d i pre n :
  length pre = i → n < 2 ^ d →
  incChildBits_from d i (pre ++ bits_of d n)
  = Some (pre ++ bits_of d (n + 1),
          if decide (n + 1 = 2 ^ d) then (-1)%Z
          else Z.of_nat (i + trail d n)).
Proof.
  revert i pre n. induction d as [|d IH]; intros i pre n Hi Hn.
  - rewrite Nat.pow_0_r in *. cbn [incChildBits_from bits_of].
    by rewrite decide_True by lia.
  - cbn [incChildBits_from bits_of trail].
    rewrite list_lookup_middle by done. cbn [mbind option_bind].
    pose proof (Nat.pow_succ_r' 2 d) as Hpow.
    pose proof (Nat.div_mod_eq n 2) as Hdm.
    assert (i < length (pre ++ Z.of_nat (n mod 2) :: bits_of d (n / 2)))
      by (rewrite length_app; simpl; lia).
    destruct (decide (n mod 2 = 0)) as [Hev|Hodd].
    + destruct (even_succ n Hev) as [-> ->].
      rewrite decide_True by lia. rewrite vset_Some by done.
      cbn [mbind option_bind]. subst i. rewrite insert_middle.
      rewrite decide_False by lia. do 3 f_equal. lia.
    + destruct (odd_succ n Hodd) as [-> ->].
      rewrite decide_False by lia. rewrite vset_Some by done.
      cbn [mbind option_bind]. subst i. rewrite insert_middle.
      rewrite (cons_middle 0%Z), app_assoc.
      rewrite IH; [|rewrite length_app; simpl; lia|by apply half_lt_pow2].
      rewrite <- app_assoc. f_equal. f_equal.
      pose proof (Nat.mod_upper_bound n 2).
      repeat case_decide; lia.
Qed.

Lemma trail_lt d n : n < 2 ^ d → n + 1 ≠ 2 ^ d → trail d n < d.
Proof.
  revert n. induction d as [|d IH]; intros n Hn Hne.
  - rewrite Nat.pow_0_r in *. lia.
  - cbn [trail]. case_decide as Hev; [lia|].
    pose proof (Nat.pow_succ_r' 2 d). pose proof (Nat.div_mod_eq n 2).
    pose proof (Nat.mod_upper_bound n 2).
    apply -> Nat.succ_lt_mono. apply IH; [by apply half_lt_pow2|lia].
Qed.

(** Below the bit that went to one, the bits of [n + 1] are zero. *)
Lemma trail_below d n k :
  k < trail d n → ((n + 1) / 2 ^ k) mod 2 = 0.
Proof.
  revert n k. induction d as [|d IH]; intros n k; cbn [trail]; [lia|].
  case_decide as Hev; [lia|]. intros Hk.
  destruct (odd_succ n Hev) as [E0 E1].
  destruct k as [|k].
  - by rewrite Nat.pow_0_r, Nat.div_1_r.
  - rewrite div_pow2_S, E1. apply IH. lia.
Qed.

(** At that bit, [n + 1] has a one, and the node of [n] is its left
    neighbour. *)
Lemma trail_at d n :
  n < 2 ^ d → n + 1 ≠ 2 ^ d →
  ((n + 1) / 2 ^ trail d n) mod 2 = 1 ∧
  (n + 1) / 2 ^ trail d n = n / 2 ^ trail d n + 1.
Proof.
  revert n. induction d as [|d IH]; intros n Hn Hne.
  - rewrite Nat.pow_0_r in *. lia.
  - cbn [trail]. case_decide as Hev.
    + rewrite Nat.pow_0_r, !Nat.div_1_r. by destruct (even_succ n Hev).
    + destruct (odd_succ n Hev) as [E0 E1].
      pose proof (Nat.pow_succ_r' 2 d). pose proof (Nat.div_mod_eq n 2).
      pose proof (Nat.mod_upper_bound n 2).
      rewrite !div_pow2_S, E1. apply IH; [by apply half_lt_pow2|lia].
Qed.

(** Above it, nothing moves. *)
Lemma trail_above d n k :
  n < 2 ^ d → n + 1 ≠ 2 ^ d → trail d n < k →
  (n + 1) / 2 ^ k = n / 2 ^ k.
Proof.
  revert n k. induction d as [|d IH]; intros n k Hn Hne.
  - rewrite Nat.pow_0_r in *. lia.
  - cbn [trail]. case_decide as Hev; intros Hk.
    + destruct k as [|k]; [lia|]. rewrite !div_pow2_S.
      by destruct (even_succ n Hev) as [_ ->].
    + destruct k as [|k]; [lia|]. rewrite !div_pow2_S.
      destruct (odd_succ n Hev) as [E0 ->].
      pose proof (Nat.pow_succ_r' 2 d). pose proof (Nat.div_mod_eq n 2).
      pose proof (Nat.mod_upper_bound n 2).
      apply IH; [by apply half_lt_pow2|lia|lia].
Qed.

(** ** The tree *)

Lemma node_empty leaves h q :
  length leaves ≤ q * 2 ^ h → node leaves h q = zero.
Proof. intros. destruct h; cbn [node]; by rewrite decide_True. Qed.

Lemma node_leaf leaves q d : leaves !! q = Some d → node leaves 0 q = d.
Proof.
  intros Hq. cbn [node]. pose proof (lookup_lt_Some _ _ _ Hq).
  rewrite decide_False by (rewrite Nat.pow_0_r; lia). by rewrite Hq.
Qed.

Lemma node_branch leaves h q :
  q * 2 ^ S h < length leaves →
  node leaves (S h) q
  = compress [node leaves h (2 * q); node leaves h (2 * q + 1)].
Proof. intros. cbn [node]. by rewrite decide_False by lia. Qed.

(** A subtree that is complete does not change when leaves are appended. *)
Lemma node_app leaves more h q :
  (q + 1) * 2 ^ h ≤ length leaves →
  node (leaves ++ more) h q = node leaves h q.
Proof.
  revert q. induction h as [|h IH]; intros q Hq.
  - rewrite Nat.pow_0_r in Hq. cbn [node]. rewrite Nat.pow_0_r.
    rewrite !decide_False by (rewrite ?length_app; lia).
    by rewrite lookup_app_l by lia.
  - pose proof (Nat.pow_succ_r' 2 h) as Hp. pose proof (pow2_pos h).
    cbn [node].
    rewrite !decide_False by (rewrite ?length_app; nia).
    rewrite !IH by nia. done.
Qed.

Lemma sib_pos_even q : q mod 2 = 0 → sib_pos q = q + 1.
Proof. intros. unfold sib_pos. by rewrite decide_True. Qed.

Lemma sib_pos_odd q : q mod 2 ≠ 0 → sib_pos q = q - 1.
Proof. intros. unfold sib_pos. by rewrite decide_False. Qed.

(** Hashing a leaf up along the siblings the tree gives for its position
    yields the nodes of the tree above it. *)
Lemma hashes_ideal leaves d k0 q :
  q * 2 ^ k0 < length leaves →
  hashes (node leaves k0 q)
         ((λ k, node leaves (k0 + k) (sib_pos (q / 2 ^ k))) <$> seq 0 d)
         (bits_of d q)
  = (λ k, node leaves (k0 + S k) (q / 2 ^ S k)) <$> seq 0 d.
Proof.
  revert k0 q. induction d as [|d IH]; intros k0 q Hq; [done|].
  cbn [seq bits_of]. rewrite <- !fmap_S_seq, !fmap_cons.
  cbn [hashes].
  rewrite Nat.pow_0_r, Nat.div_1_r, Nat.add_0_r.
  pose proof (Nat.pow_succ_r' 2 k0) as Hp. pose proof (pow2_pos k0).
  pose proof (Nat.div_mod_eq q 2) as Hdm.
  pose proof (Nat.mod_upper_bound q 2).
  assert (q / 2 ^ 1 = q / 2) as E1 by (by rewrite Nat.pow_1_r).
  assert (compress [ternary (Z.of_nat (q mod 2)) (node leaves k0 (sib_pos q))
                            (node leaves k0 q);
                    ternary (Z.of_nat (q mod 2)) (node leaves k0 q)
                            (node leaves k0 (sib_pos q))]
          = node leaves (k0 + 1) (q / 2)) as Hd.
  { rewrite Nat.add_1_r, node_branch by nia. unfold ternary.
    destruct (decide (q mod 2 = 0)) as [Hev|Hodd].
    - rewrite !decide_True by lia. rewrite sib_pos_even by done.
      replace (2 * (q / 2)) with q by lia. done.
    - rewrite !decide_False by lia. rewrite sib_pos_odd by done.
      replace (2 * (q / 2)) with (q - 1) by lia.
      by replace (q - 1 + 1) with q by lia. }
  rewrite Hd, E1. f_equal.
  rewrite <- !list_fmap_compose.
  specialize (IH (k0 + 1) (q / 2)).
  rewrite (list_fmap_ext _ (λ k, node leaves (k0 + 1 + k)
                                       (sib_pos (q / 2 / 2 ^ k))) (seq 0 d)).
  2:{ intros _ k _. unfold compose. rewrite div_pow2_S. f_equal. lia. }
  rewrite IH by (rewrite Nat.add_1_r; nia).
  apply list_fmap_ext. intros _ k _. unfold compose.
  rewrite (div_pow2_S q (S k)). f_equal. lia.
Qed.

(** ** The frontier and the snapshots against the tree *)

Lemma lookup_fmap_seq {A} (f : nat → A) D k :
  k < D → (f <$> seq 0 D) !! k = Some (f k).
Proof. intros. by rewrite list_lookup_fmap, lookup_seq_lt. Qed.

(** The siblings of the frontier are those the tree gives for the next
    slot, whatever leaf is put there. *)
Lemma frontier_siblings_ideal D leaves cm :
  frontier_siblings D leaves
  = (λ k, node (leaves ++ [cm]) k (sib_pos (length leaves / 2 ^ k)))
    <$> seq 0 D.
Proof.
  unfold frontier_siblings. apply list_fmap_ext. intros _ k _.
  pose proof (div_pow2_bounds (length leaves) k) as [Hlo Hhi].
  pose proof (Nat.div_mod_eq (length leaves / 2 ^ k) 2).
  case_decide as Hev.
  - rewrite sib_pos_even by done. symmetry. apply node_empty.
    rewrite length_app. simpl. lia.
  - rewrite sib_pos_odd by done. symmetry. apply node_app.
    replace (length leaves / 2 ^ k - 1 + 1) with (length leaves / 2 ^ k)
      by lia. done.
Qed.

Lemma node_new_leaf leaves cm : node (leaves ++ [cm]) 0 (length leaves) = cm.
Proof. apply node_leaf. by rewrite list_lookup_middle. Qed.

(** The root path the ascent computes for the leaf appended at slot [n]. *)
Lemma hashes_frontier D leaves cm :
  hashes cm (frontier_siblings D leaves) (bits_of D (length leaves))
  = (λ k, node (leaves ++ [cm]) (S k) (length leaves / 2 ^ S k)) <$> seq 0 D.
Proof.
  rewrite (frontier_siblings_ideal D leaves cm).
  rewrite <- (node_new_leaf leaves cm) at 1.
  apply (hashes_ideal (leaves ++ [cm]) D 0 (length leaves)).
  rewrite length_app. simpl. lia.
Qed.

(** A node strictly to the left of the node of the next slot is complete. *)
Lemma left_complete idx n j :
  idx < n → idx / 2 ^ j ≠ n / 2 ^ j → (idx / 2 ^ j + 1) * 2 ^ j ≤ n.
Proof.
  intros Hlt Hne.
  pose proof (Nat.Div0.div_le_mono idx n (2 ^ j) (Nat.lt_le_incl _ _ Hlt)).
  pose proof (div_pow2_bounds n j) as [Hlo _]. nia.
Qed.

Lemma sibling_hit a b : a ≤ b → a / 2 = b / 2 → a ≠ b → sib_pos a = b.
Proof.
  intros Hle Hh Hne.
  pose proof (Nat.div_mod_eq a 2). pose proof (Nat.div_mod_eq b 2).
  pose proof (Nat.mod_upper_bound a 2). pose proof (Nat.mod_upper_bound b 2).
  unfold sib_pos. case_decide; lia.
Qed.

Lemma sibling_stable leaves cm idx k :
  idx < length leaves →
  ¬ (idx / 2 ^ k / 2 = length leaves / 2 ^ k / 2 ∧
     idx / 2 ^ k ≠ length leaves / 2 ^ k) →
  node (leaves ++ [cm]) k (sib_pos (idx / 2 ^ k))
  = node leaves k (sib_pos (idx / 2 ^ k)).
Proof.
  intros Hlt Hc. set (n := length leaves) in *.
  set (a := idx / 2 ^ k) in *. set (b := n / 2 ^ k) in *.
  pose proof (div_pow2_bounds n k) as [Hlo Hhi]. fold b in Hlo, Hhi.
  assert (a ≤ b) as Hab by (apply Nat.Div0.div_le_mono; lia).
  pose proof (Nat.div_mod_eq a 2). pose proof (Nat.div_mod_eq b 2).
  pose proof (Nat.mod_upper_bound a 2). pose proof (Nat.mod_upper_bound b 2).
  pose proof (Nat.Div0.div_le_mono a b 2 Hab).
  destruct (decide (a = b)) as [Eab|Nab].
  - unfold sib_pos. case_decide.
    + rewrite !node_empty; [done|fold n; lia|].
      rewrite length_app. simpl. fold n. lia.
    + apply node_app. fold n. replace (a - 1 + 1) with a by lia. lia.
  - apply node_app. fold n.
    assert (sib_pos a + 1 ≤ b); [unfold sib_pos; case_decide; lia|nia].
Qed.

(** How the overlap reads on two positions below [2^D]. *)
Lemma overlap_eq D n idx j :
  n < 2 ^ D → idx < 2 ^ D → j < D →
  (Z.of_nat D - 1 - Z.of_nat j
   = matchMSB (bits_of D n) (bits_of D idx))%Z
  ↔ idx / 2 ^ j / 2 = n / 2 ^ j / 2 ∧ idx / 2 ^ j ≠ n / 2 ^ j.
Proof.
  intros Hn Hi Hj.
  pose proof (matchMSB_bits D n idx (S j) Hn Hi) as H1.
  pose proof (matchMSB_bits D n idx j Hn Hi) as H2.
  rewrite !div_pow2_S' in H1. lia.
Qed.

Lemma overlap_ge D n idx j :
  n < 2 ^ D → idx < 2 ^ D → j < D →
  (Z.of_nat D - 1 - Z.of_nat j
   ≤ matchMSB (bits_of D n) (bits_of D idx))%Z
  ↔ idx / 2 ^ S j = n / 2 ^ S j.
Proof.
  intros Hn Hi Hj.
  pose proof (matchMSB_bits D n idx (S j) Hn Hi) as H1. lia.
Qed.

(** Patching the path the tree gave for leaf [idx] before the new leaf
    gives the path the tree gives for it after. *)
Lemma patched_ideal D leaves cm idx :
  length leaves < 2 ^ D → idx < length leaves →
  patched (bits_of D (length leaves)) D D (Some cm)
    ((λ k, node (leaves ++ [cm]) (S k) (length leaves / 2 ^ S k))
       <$> seq 0 D)
    (ideal_path D leaves idx)
  = ideal_path D (leaves ++ [cm]) idx.
Proof.
  intros Hn Hi. assert (idx < 2 ^ D) as Hi' by lia.
  unfold patched, ideal_path. cbn [m_depth m_rootPath m_siblings m_childBits].
  f_equal.
  - apply list_eq. intros k. unfold patch_rootPath. rewrite list_lookup_imap.
    destruct (decide (k < D)) as [Hk|Hk].
    2:{ rewrite !lookup_ge_None_2;
          [done|rewrite length_fmap, length_seq; lia..]. }
    rewrite !lookup_fmap_seq by done. cbn [fmap option_fmap option_map].
    f_equal. case_decide as Hc.
    + destruct Hc as [_ Hc]. rewrite overlap_ge in Hc by done.
      cbn [default]. by rewrite Hc.
    + symmetry. apply node_app, left_complete; [done|].
      intros E. apply Hc. split; [done|]. by apply overlap_ge.
  - apply list_eq. intros k. unfold patch_siblings. rewrite list_lookup_imap.
    destruct (decide (k < D)) as [Hk|Hk].
    2:{ rewrite !lookup_ge_None_2;
          [done|rewrite length_fmap, length_seq; lia..]. }
    rewrite !lookup_fmap_seq by done. cbn [fmap option_fmap option_map].
    f_equal.
    pose proof (overlap_eq D (length leaves) idx k Hn Hi' Hk) as Hov.
    assert (idx / 2 ^ k ≤ length leaves / 2 ^ k) as Hle
      by (apply Nat.Div0.div_le_mono; lia).
    destruct k as [|k].
    + rewrite Nat2Z.inj_0, Z.sub_0_r in Hov. case_decide as Hc.
      * apply Hov in Hc as [E1 E2].
        rewrite (sibling_hit _ _ Hle E1 E2).
        by rewrite Nat.pow_0_r, Nat.div_1_r, node_new_leaf.
      * symmetry. apply sibling_stable; [done|]. by rewrite <- Hov.
    + case_decide as Hc.
      * destruct Hc as [_ Hc].
        assert (Z.of_nat D - 1 - Z.of_nat (S k)
                = matchMSB (bits_of D (length leaves)) (bits_of D idx))%Z
          as Hc' by lia.
        apply Hov in Hc' as [E1 E2].
        rewrite lookup_fmap_seq by lia. cbn [default].
        by rewrite (sibling_hit _ _ Hle E1 E2).
      * symmetry. apply sibling_stable; [done|]. rewrite <- Hov.
        intros E. apply Hc. split; lia.
Qed.

(** ** Advancing the frontier *)

Lemma zero_loop (sb : list Dig) j :
  j ≤ length sb →
  for_range 0 j (λ i sb, vset sb i zero) sb
  = Some (replicate j zero ++ drop j sb).
Proof.
  intros Hj.
  destruct (for_range_total
    (λ i cur, cur = replicate i zero ++ drop i sb)
    0 j (λ i sb, vset sb i zero) sb) as (r & Hr & HP).
  - done.
  - intros i cur [_ Hi] ->. simpl in Hi.
    destruct (lookup_lt_is_Some_2 sb i) as [x Hx]; [lia|].
    rewrite vset_Some
      by (rewrite length_app, length_replicate, length_drop; lia).
    eexists. split; [done|].
    rewrite (drop_S _ _ _ Hx), replicate_S_end, <- app_assoc.
    rewrite insert_app_r_alt by (rewrite length_replicate; lia).
    by rewrite length_replicate, Nat.sub_diag.
  - by rewrite Hr, HP.
Qed.

Lemma hashSibling_spec k (p : MerkleAuthPath) d :
  m_rootPath p !! k = Some d → S k < length (m_siblings p) →
  hashSibling (S k) p
  = Some (set_siblings
            (replicate (S k) zero ++ d :: drop (S (S k)) (m_siblings p)) p).
Proof.
  intros Hd Hk. unfold hashSibling. rewrite Hd. cbn [mbind option_bind].
  rewrite vset_Some by done. cbn [mbind option_bind].
  rewrite zero_loop by (rewrite length_insert; lia).
  cbn [mbind option_bind]. do 3 f_equal.
  rewrite (drop_S _ d) by (by rewrite list_lookup_insert_eq).
  by rewrite drop_insert_lt by lia.
Qed.

(** The siblings that [leafSibling] or [hashSibling] leave are those of the
    frontier one slot further. *)
Lemma frontier_siblings_next D leaves cm (sibs' : list Dig) :
  let n := length leaves in
  let j := trail D n in
  n < 2 ^ D → n + 1 ≠ 2 ^ D →
  length sibs' = D →
  (∀ k, k < D →
     sibs' !! k
     = if decide (k < j) then Some zero
       else if decide (k = j) then Some (node (leaves ++ [cm]) j (n / 2 ^ j))
       else frontier_siblings D leaves !! k) →
  sibs' = frontier_siblings D (leaves ++ [cm]).
Proof.
  intros n j Hn Hne Hlen Hlk.
  apply (list_eq_same_length _ _ D); [|done|].
  { unfold frontier_siblings. by rewrite length_fmap, length_seq. }
  intros k x y Hk Hx Hy. rewrite Hlk in Hx by done.
  unfold frontier_siblings in Hy. rewrite lookup_fmap_seq in Hy by done.
  rewrite length_app in Hy. cbn [length] in Hy. fold n in Hy.
  apply (inj Some) in Hy as <-.
  destruct (decide (k < j)) as [Hlt|Hge].
  - apply (inj Some) in Hx as <-. by rewrite decide_True by (by eapply trail_below).
  - destruct (decide (k = j)) as [->|Hnj].
    + apply (inj Some) in Hx as <-.
      destruct (trail_at D n Hn Hne) as [E1 E2]. fold j in E1, E2.
      rewrite decide_False by lia. f_equal. lia.
    + unfold frontier_siblings in Hx. rewrite lookup_fmap_seq in Hx by done.
      apply (inj Some) in Hx as <-. fold n.
      rewrite (trail_above D n k Hn Hne) by (fold j; lia).
      case_decide as Hev; [done|].
      symmetry. apply node_app. fold n.
      pose proof (div_pow2_bounds n k) as [Hlo _].
      pose proof (Nat.div_mod_eq (n / 2 ^ k) 2).
      replace (n / 2 ^ k - 1 + 1) with (n / 2 ^ k) by lia. done.
Qed.

Lemma wf_path_set D p sb cb :
  wf_path D p → length sb = D → length cb = D →
  wf_path D (set_siblings sb (set_childBits cb p)).
Proof. intros (? & ? & ? & ?) ? ?. by repeat split. Qed.

Lemma pow2_depth_pos D n : n < 2 ^ D → n + 1 ≠ 2 ^ D → 0 < D.
Proof. destruct D; [rewrite Nat.pow_0_r|]; lia. Qed.

(** [updateSiblings] after the leaf at slot [n] has been hashed in. *)
Lemma updateSiblings_frontier D leaves cm t :
  let n := length leaves in
  let p := t_authPath t in
  n < 2 ^ D → wf_path D p → t_isFull t = false →
  m_childBits p = bits_of D n →
  m_siblings p = frontier_siblings D leaves →
  m_rootPath p
  = (λ k, node (leaves ++ [cm]) (S k) (n / 2 ^ S k)) <$> seq 0 D →
  ∃ t', updateSiblings cm t = Some t' ∧ frontier_ok D (leaves ++ [cm]) t'.
Proof.
  intros n p Hn (Hd & Hrp & Hsb & Hcb) Hfull Hbits Hsibs Hroot.
  assert (length (leaves ++ [cm]) = n + 1) as Hlen
    by (rewrite length_app; done).
  assert (∀ q, frontier_ok D (leaves ++ [cm])
                 (mkTree (bool_decide (n + 1 = 2 ^ D)) q) ↔
               wf_path D q ∧ m_childBits q = bits_of D (n + 1) ∧
               (n + 1 < 2 ^ D →
                m_siblings q = frontier_siblings D (leaves ++ [cm])) ∧
               m_rootPath q = m_rootPath p) as Hok.
  { intros q. unfold frontier_ok. cbn [t_authPath t_isFull].
    rewrite Hlen, Nat.add_sub, Hroot.
    split.
    - intros (? & _ & ? & ? & Hr).
      split; [done|]. split; [done|]. split; [done|]. apply Hr. lia.
    - intros (? & ? & ? & ?). done. }
  unfold updateSiblings, incChildBits. fold p. rewrite Hd, Hbits.
  pose proof (incChildBits_from_spec D 0 [] n eq_refl Hn) as Hinc.
  cbn [app] in Hinc. rewrite Nat.add_0_l in Hinc. rewrite Hinc.
  cbn [mbind option_bind].
  destruct (decide (n + 1 = 2 ^ D)) as [Hwrap|Hne].
  - rewrite decide_True by done. eexists. split; [done|].
    rewrite <- (bool_decide_eq_true_2 (n + 1 = 2 ^ D)) at 1 by done.
    apply Hok. split; [|split; [done|split; [lia|done]]].
    repeat split; try done. cbn [set_childBits m_childBits].
    apply bits_of_length.
  - rewrite decide_False by lia.
    pose proof (trail_lt D n Hn Hne) as Hj.
    pose proof (pow2_depth_pos D n Hn Hne) as HD.
    assert (bool_decide (n + 1 = 2 ^ D) = t_isFull t) as Hb
      by (by rewrite Hfull, bool_decide_eq_false_2).
    assert (wf_path D p) as Hwf by done.
    destruct (trail D n) as [|j'] eqn:Ej.
    + rewrite decide_True by done. unfold leafSibling.
      cbn [m_siblings set_childBits].
      rewrite vset_Some by lia. cbn [mbind option_bind].
      eexists. split; [done|]. rewrite <- Hb. apply Hok.
      assert (length (<[0:=cm]> (m_siblings p)) = D) as Hl'
        by (by rewrite length_insert).
      split; [|split; [done|split; [|done]]].
      { apply wf_path_set; [done|done|apply bits_of_length]. }
      intros _.
      apply (frontier_siblings_next D leaves cm); [done..|]. fold n.
      cbn [set_siblings m_siblings].
      rewrite Ej. intros k Hk. rewrite decide_False by lia.
      destruct (decide (k = 0)) as [->|Hk0].
      * rewrite list_lookup_insert_eq by lia.
        by rewrite Nat.pow_0_r, Nat.div_1_r, node_new_leaf.
      * rewrite list_lookup_insert_ne by done. by rewrite Hsibs.
    + rewrite decide_False by lia. rewrite Nat2Z.id.
      rewrite (hashSibling_spec j' _ (node (leaves ++ [cm]) (S j')
                                           (n / 2 ^ S j'))).
      2:{ cbn [set_childBits m_rootPath]. rewrite Hroot.
          by rewrite lookup_fmap_seq by lia. }
      2:{ cbn [set_childBits m_siblings]. lia. }
      cbn [mbind option_bind set_childBits m_siblings].
      eexists. split; [done|].
      rewrite <- Hb. apply Hok.
      set (d := node (leaves ++ [cm]) (S j') (n / 2 ^ S j')).
      assert (length (replicate (S j') zero
                      ++ d :: drop (S (S j')) (m_siblings p)) = D) as Hl'.
      { rewrite length_app, length_replicate. cbn [length].
        rewrite length_drop. lia. }
      split; [|split; [done|split; [|done]]].
      { apply (wf_path_set D p); [done|done|apply bits_of_length]. }
      intros _.
      apply (frontier_siblings_next D leaves cm); [done..|]. fold n.
      cbn [set_siblings m_siblings].
      rewrite Ej. intros k Hk.
      destruct (decide (k < S j')) as [Hlt|Hge].
      * rewrite lookup_app_l by (rewrite length_replicate; lia).
        by rewrite lookup_replicate_2.
      * rewrite lookup_app_r by (rewrite length_replicate; lia).
        rewrite length_replicate.
        destruct (decide (k = S j')) as [->|Hnj].
        -- by rewrite Nat.sub_diag.
        -- destruct (k - S j') as [|m] eqn:Em; [lia|].
           rewrite lookup_cons. rewrite lookup_drop, Hsibs.
           f_equal. lia.
Qed.

(** ** The bundle invariant *)

Lemma kept_from_app i ops1 ops2 :
  kept_from i (ops1 ++ ops2)
  = kept_from i ops1 ++ kept_from (i + length ops1) ops2.
Proof.
  revert i. induction ops1 as [|[cm k] ops1 IH]; intros i; cbn [kept_from app].
  - by rewrite Nat.add_0_r.
  - rewrite IH. cbn [length]. replace (S i + length ops1)
      with (i + S (length ops1)) by lia. by destruct k.
Qed.

Lemma kept_from_bound i ops :
  Forall (λ idx, i ≤ idx < i + length ops) (kept_from i ops).
Proof.
  revert i. induction ops as [|[cm k] ops IH]; intros i; cbn [kept_from].
  - constructor.
  - assert (Forall (λ idx, i ≤ idx < i + length ((cm, k) :: ops))
                   (kept_from (S i) ops)) as Hrest.
    { eapply Forall_impl; [apply IH|]. cbn [length]. intros; lia. }
    destruct k; [constructor|]; [cbn [length]; lia|done..].
Qed.

Lemma kept_snoc ops cm keep :
  kept (ops ++ [(cm, keep)])
  = kept ops ++ (if keep then [length ops] else []).
Proof. unfold kept. rewrite kept_from_app. by destruct keep. Qed.

Lemma kept_lt ops idx : idx ∈ kept ops → idx < length ops.
Proof.
  intros Hin. pose proof (kept_from_bound 0 ops) as HF.
  rewrite Forall_forall in HF. apply HF in Hin. lia.
Qed.

Lemma ideal_path_wf D leaves idx : wf_path D (ideal_path D leaves idx).
Proof.
  unfold wf_path, ideal_path. cbn.
  by rewrite !length_fmap, !length_seq, bits_of_length.
Qed.

(** The path the bundle snapshots is the path the tree gives for the leaf
    just added. *)
Lemma snapshot_ideal D leaves cm (p : MerkleAuthPath) :
  m_depth p = D →
  m_childBits p = bits_of D (length leaves) →
  m_siblings p = frontier_siblings D leaves →
  set_rootPath
    ((λ k, node (leaves ++ [cm]) (S k) (length leaves / 2 ^ S k))
       <$> seq 0 D) p
  = ideal_path D (leaves ++ [cm]) (length leaves).
Proof.
  intros Hd Hb Hs. unfold set_rootPath, ideal_path.
  by rewrite Hd, Hb, Hs, (frontier_siblings_ideal D leaves cm).
Qed.

Lemma count_inc_of_nat n :
  count_inc (N.of_nat n mod 2 ^ COUNT_bits)
  = (N.of_nat (n + 1) mod 2 ^ COUNT_bits)%N.
Proof.
  unfold count_inc. rewrite N.Div0.add_mod_idemp_l. f_equal. lia.
Qed.

(** One [addLeaf] below capacity keeps the invariant. *)
Lemma addLeaf_step D ops b cm keep :
  bundle_ok D ops b → length ops < 2 ^ D →
  ∃ b', addLeaf cm keep b = Some b' ∧ bundle_ok D (ops ++ [(cm, keep)]) b'.
Proof.
  intros (Hf & Hsz & HL & HP) Hn.
  destruct Hf as (Hwf & Hfull & Hbits & Hsibs & _).
  set (leaves := ops.*1) in *.
  assert (length leaves = length ops) as Hlen
    by (unfold leaves; by rewrite length_fmap).
  rewrite Hlen in *. specialize (Hsibs Hn).
  rewrite bool_decide_eq_false_2 in Hfull by lia.
  set (newrp := (λ k, node (leaves ++ [cm]) (S k) (length leaves / 2 ^ S k))
                  <$> seq 0 D).
  assert (Forall (wf_path D) (b_authPath b)) as Holds.
  { rewrite HP. apply Forall_fmap, Forall_true. intros idx.
    apply ideal_path_wf. }
  unfold addLeaf, Tree_updatePath.
  rewrite (updatePath_spec D cm _ _ Hwf Holds). cbn [mbind option_bind].
  assert (hashes cm (m_siblings (t_authPath (b_tree b)))
            (m_childBits (t_authPath (b_tree b))) = newrp) as Hnew.
  { rewrite Hsibs, Hbits, <- Hlen. apply hashes_frontier. }
  rewrite Hnew.
  destruct (updateSiblings_frontier D leaves cm
              (mkTree (t_isFull (b_tree b))
                      (set_rootPath newrp (t_authPath (b_tree b)))))
    as (t' & Ht' & Hok').
  { lia. }
  { destruct Hwf as (? & ? & ? & ?).
    split; [done|]. split; [|done]. cbn [set_rootPath m_rootPath t_authPath].
    unfold newrp. by rewrite length_fmap, length_seq. }
  { done. }
  { cbn. by rewrite Hlen. }
  { done. }
  { done. }
  rewrite Ht'. cbn [mbind option_bind]. eexists. split; [done|].
  assert ((ops ++ [(cm, keep)]).*1 = leaves ++ [cm]) as Hleaves
    by (by rewrite fmap_app).
  assert (patched (m_childBits (t_authPath (b_tree b))) D D (Some cm) newrp
            <$> b_authPath b
          = ideal_path D (leaves ++ [cm]) <$> kept ops) as Hpatched.
  { rewrite HP, <- list_fmap_compose. apply list_fmap_ext.
    intros i idx Hidx. unfold compose. rewrite Hbits, <- Hlen.
    apply patched_ideal; [lia|]. rewrite Hlen. apply kept_lt.
    by eapply list_elem_of_lookup_2. }
  assert (b_authLeaf b
          = (λ idx, default zero ((leaves ++ [cm]) !! idx)) <$> kept ops)
    as Hleafs.
  { rewrite HL. apply list_fmap_ext. intros i idx Hidx.
    rewrite lookup_app_l; [done|]. rewrite Hlen. apply kept_lt.
    by eapply list_elem_of_lookup_2. }
  unfold bundle_ok. cbn [b_tree b_treeSize b_authLeaf b_authPath].
  rewrite Hleaves, kept_snoc, length_app. cbn [length].
  split; [done|]. split; [by rewrite Hsz, count_inc_of_nat|].
  rewrite Hpatched. destruct keep.
  - rewrite !fmap_app. cbn [fmap list_fmap]. split.
    + rewrite Hleafs. do 2 f_equal. rewrite <- Hlen.
      by rewrite list_lookup_middle.
    + do 2 f_equal. rewrite <- Hlen. apply snapshot_ideal; try done.
      * by destruct Hwf.
      * by rewrite Hlen.
  - by rewrite !app_nil_r.
Qed.

Lemma addLeaves_app ops1 ops2 b :
  addLeaves (ops1 ++ ops2) b = addLeaves ops1 b ≫= addLeaves ops2.
Proof.
  revert b. induction ops1 as [|[cm k] ops1 IH]; intros b; [done|].
  cbn [addLeaves app]. destruct (addLeaf cm k b) as [b'|]; [|done].
  cbn [mbind option_bind]. apply IH.
Qed.

Lemma bundle_ok_new D : bundle_ok D [] (Bundle_new D).
Proof.
  unfold bundle_ok, frontier_ok, Bundle_new, Tree_new, AuthPath_new, wf_path.
  cbn. rewrite !length_replicate.
  assert (bits_of D 0 = replicate D 0%Z) as Hb.
  { induction D as [|D IH]; [done|]. cbn [bits_of replicate].
    by rewrite Nat.Div0.mod_0_l, Nat.Div0.div_0_l, IH. }
  pose proof (pow2_pos D).
  repeat split; try done.
  - symmetry. apply bool_decide_eq_false_2. lia.
  - intros _. unfold frontier_siblings. cbn [length].
    apply (list_eq_same_length _ _ D);
      [by rewrite length_fmap, length_seq|by rewrite length_replicate|].
    intros k x y Hk Hx Hy. rewrite lookup_replicate_2 in Hx by done.
    rewrite lookup_fmap_seq in Hy by done.
    rewrite Nat.Div0.div_0_l, Nat.Div0.mod_0_l in Hy.
    rewrite decide_True in Hy by done. congruence.
  - lia.
Qed.

(** Every run of at most [2^D] calls on a fresh bundle of depth [D] is
    defined and ends in a state that satisfies the invariant. *)
Lemma addLeaves_ok D ops :
  length ops ≤ 2 ^ D →
  ∃ b, addLeaves ops (Bundle_new D) = Some b ∧ bundle_ok D ops b.
Proof.
  induction ops as [|[cm keep] ops IH] using rev_ind; intros Hlen.
  - exists (Bundle_new D). split; [done|apply bundle_ok_new].
  - rewrite length_app in Hlen. cbn [length] in Hlen.
    destruct IH as (b & Hb & Hok); [lia|].
    destruct (addLeaf_step D ops b cm keep Hok) as (b' & Hb' & Hok'); [lia|].
    exists b'. split; [|done].
    rewrite addLeaves_app, Hb. cbn [mbind option_bind addLeaves].
    by rewrite Hb'.
Qed.

(** ** Root consistency *)

Lemma last_fmap_seq {A} (f : nat → A) d :
  last (f <$> seq 0 (S d)) = Some (f d).
Proof.
  rewrite last_lookup, length_fmap, length_seq. cbn [pred].
  by rewrite lookup_fmap_seq by lia.
Qed.

Lemma node_root_index D idx : idx < 2 ^ D → idx / 2 ^ D = 0.
Proof. intros. by apply Nat.div_small. Qed.

(** Reconstructing the root from a leaf of the tree and the path the tree
    gives for it yields the root of the tree. *)
Lemma reconstruct_ideal D leaves idx leaf :
  0 < D → idx < 2 ^ D → leaves !! idx = Some leaf →
  reconstruct leaf (ideal_path D leaves idx) = Some (node leaves D 0).
Proof.
  intros HD Hidx Hleaf. unfold reconstruct.
  rewrite (updatePath1_spec D) by apply ideal_path_wf.
  cbn [mbind option_bind]. unfold rootHash, ideal_path.
  cbn [set_rootPath m_rootPath m_siblings m_childBits].
  rewrite <- (node_leaf leaves idx leaf Hleaf).
  pose proof (hashes_ideal leaves D 0 idx) as Hh.
  cbn [Nat.add] in Hh. rewrite Hh.
  2:{ apply lookup_lt_Some in Hleaf. rewrite Nat.pow_0_r. lia. }
  destruct D as [|D]; [lia|].
  by rewrite last_fmap_seq, node_root_index.
Qed.

Lemma frontier_rootHash D leaves t :
  0 < D → 0 < length leaves → length leaves ≤ 2 ^ D →
  frontier_ok D leaves t →
  rootHash (t_authPath t) = Some (node leaves D 0).
Proof.
  intros HD Hn Hle (_ & _ & _ & _ & Hroot). unfold rootHash.
  rewrite (Hroot Hn). destruct D as [|D]; [lia|].
  rewrite last_fmap_seq, node_root_index; [done|lia].
Qed.

(** C1: after every run of at most [2^D] [addLeaf] calls on a fresh bundle
    of depth [D], the retained leaves are the leaves added with [keepPath]
    set, in order, and every retained path is the path that recomputing the
    whole tree gives for its leaf at its insertion index: child bits,
    siblings and root path. In particular (at depth at least 1, where
    [rootHash()] is defined) the root reconstructed from a retained leaf and
    the siblings and child bits of its path is the live tree's
    [rootHash()]. As every prefix of such a run is such a run, this holds
    after every call. *)
Theorem C1_snapshots_agree_with_tree (D : nat) (ops : list (Dig * bool)) :
  length ops ≤ 2 ^ D →
  ∃ b, addLeaves ops (Bundle_new D) = Some b ∧
    b_authLeaf b = (λ idx, default zero (ops.*1 !! idx)) <$> kept ops ∧
    b_authPath b = ideal_path D ops.*1 <$> kept ops ∧
    (0 < D →
     ∀ i leaf p,
       b_authLeaf b !! i = Some leaf → b_authPath b !! i = Some p →
       ∃ root, Bundle_rootHash b = Some root ∧
               reconstruct leaf p = Some root).
Proof.
  intros Hlen. destruct (addLeaves_ok D ops Hlen) as (b & Hb & Hok).
  exists b. split; [done|]. destruct Hok as (Hf & _ & HL & HP).
  split; [done|]. split; [done|].
  intros HD i leaf p Hleaf Hp. exists (node ops.*1 D 0).
  rewrite HL, list_lookup_fmap in Hleaf. rewrite HP, list_lookup_fmap in Hp.
  destruct (kept ops !! i) as [idx|] eqn:Hidx; [|done].
  cbn [fmap option_fmap option_map] in Hleaf, Hp.
  apply (inj Some) in Hleaf, Hp. subst p.
  assert (idx < length ops) as Hlt
    by (apply kept_lt; by eapply list_elem_of_lookup_2).
  destruct (lookup_lt_is_Some_2 ops.*1 idx) as [x Hx];
    [by rewrite length_fmap|].
  rewrite Hx in Hleaf. cbn in Hleaf. subst x.
  split.
  - apply (frontier_rootHash D ops.*1); [done| |by rewrite length_fmap|done].
    rewrite length_fmap. lia.
  - apply reconstruct_ideal; [done|lia|done].
Qed.

(** ** Positions and fullness *)

(** C4: after every run of at most [2^D] [addLeaf] calls on a fresh bundle,
    the child bits of each retained path, read bottom-up as a little-endian
    integer, are the insertion index of its leaf; two retained paths with
    different insertion indices have different child bits; and while the
    accumulator is not full the child bits of the frontier are the index of
    the next leaf slot. *)
Theorem C4_childBits_are_positions (D : nat) (ops : list (Dig * bool)) :
  length ops ≤ 2 ^ D →
  ∃ b, addLeaves ops (Bundle_new D) = Some b ∧
    length (b_authPath b) = length (kept ops) ∧
    (∀ i p idx,
       b_authPath b !! i = Some p → kept ops !! i = Some idx →
       le_value (m_childBits p) = Z.of_nat idx) ∧
    (∀ i j p q idx_i idx_j,
       b_authPath b !! i = Some p → b_authPath b !! j = Some q →
       kept ops !! i = Some idx_i → kept ops !! j = Some idx_j →
       idx_i ≠ idx_j → m_childBits p ≠ m_childBits q) ∧
    (Bundle_isFull b = false →
     le_value (m_childBits (t_authPath (b_tree b)))
     = Z.of_nat (length ops)).
Proof.
  intros Hlen. destruct (addLeaves_ok D ops Hlen) as (b & Hb & Hok).
  exists b. split; [done|]. destruct Hok as (Hf & _ & _ & HP).
  assert (∀ i p idx,
            b_authPath b !! i = Some p → kept ops !! i = Some idx →
            le_value (m_childBits p) = Z.of_nat idx) as Hval.
  { intros i p idx Hp Hidx. rewrite HP, list_lookup_fmap, Hidx in Hp.
    apply (inj Some) in Hp. subst p. cbn [ideal_path m_childBits].
    apply le_value_bits_of.
    assert (idx < length ops); [|lia].
    apply kept_lt. by eapply list_elem_of_lookup_2. }
  split; [by rewrite HP, length_fmap|]. split; [done|]. split.
  - intros i j p q idx_i idx_j Hp Hq Hi Hj Hne E.
    pose proof (Hval i p idx_i Hp Hi). pose proof (Hval j q idx_j Hq Hj).
    rewrite E in *. lia.
  - destruct Hf as (_ & Hfull & Hbits & _). rewrite length_fmap in *.
    unfold Bundle_isFull, isFull. rewrite Hfull, Hbits. intros Hnf.
    apply bool_decide_eq_false_1 in Hnf. apply le_value_bits_of. lia.
Qed.

(** C5: on a fresh bundle of depth [D], [isFull()] is false after fewer than
    [2^D] [addLeaf] calls and true after exactly [2^D]. *)
Theorem C5_full_after_capacity (D : nat) (ops : list (Dig * bool)) :
  length ops ≤ 2 ^ D →
  ∃ b, addLeaves ops (Bundle_new D) = Some b ∧
    (length ops < 2 ^ D → Bundle_isFull b = false) ∧
    (length ops = 2 ^ D → Bundle_isFull b = true).
Proof.
  intros Hlen. destruct (addLeaves_ok D ops Hlen) as (b & Hb & Hok).
  exists b. split; [done|]. destruct Hok as ((_ & Hfull & _) & _).
  rewrite length_fmap in Hfull. unfold Bundle_isFull, isFull. rewrite Hfull.
  split; intros ?.
  - apply bool_decide_eq_false_2. lia.
  - by apply bool_decide_eq_true_2.
Qed.

(** ** Appending to a full accumulator *)

Lemma incChildBits_from_ones suf i pre :
  Forall (λ b, b ≠ 0%Z) suf → length pre = i →
  incChildBits_from (length suf) i (pre ++ suf)
  = Some (pre ++ replicate (length suf) 0%Z, (-1)%Z).
Proof.
  revert i pre. induction suf as [|a suf IH]; intros i pre Hall Hi.
  - done.
  - apply Forall_cons in Hall as [Ha Hall]. cbn [length incChildBits_from].
    rewrite list_lookup_middle by done. cbn [mbind option_bind].
    rewrite decide_False by done.
    rewrite vset_Some by (rewrite length_app; cbn [length]; lia).
    cbn [mbind option_bind]. subst i. rewrite insert_middle.
    rewrite (cons_middle 0%Z), app_assoc.
    rewrite IH; [|done|rewrite length_app; cbn [length]; lia].
    by rewrite <- app_assoc.
Qed.

Lemma updateSiblings_depth leaf t t' :
  updateSiblings leaf t = Some t' →
  m_depth (t_authPath t') = m_depth (t_authPath t).
Proof.
  unfold updateSiblings, incChildBits. intros E.
  destruct (incChildBits_from _ _ _) as [[bits r]|]; simpl in E; [|done].
  repeat case_decide.
  - by injection E as <-.
  - unfold leafSibling in E. simpl in E.
    destruct (vset _ _ _); simpl in E; [|done]. by injection E as <-.
  - unfold hashSibling in E. destruct (Z.to_nat r); [done|]. simpl in E.
    destruct (_ !! _); simpl in E; [|done].
    destruct (vset _ _ _); simpl in E; [|done].
    destruct (vset _ _ _); simpl in E; [|done].
    destruct (for_range _ _ _ _); simpl in E; [|done]. by injection E as <-.
Qed.

Lemma updateSiblings_wrap D leaf t :
  wf_path D (t_authPath t) →
  Forall (λ b, b ≠ 0%Z) (m_childBits (t_authPath t)) →
  updateSiblings leaf t
  = Some (mkTree true (set_childBits (replicate D 0%Z) (t_authPath t))).
Proof.
  intros (Hd & _ & _ & Hcb) Hones.
  unfold updateSiblings, incChildBits. rewrite Hd, <- Hcb.
  pose proof (incChildBits_from_ones (m_childBits (t_authPath t)) 0 []
                Hones eq_refl) as Hinc.
  cbn [app] in Hinc. rewrite Hinc. cbn [mbind option_bind].
  by rewrite decide_True by done.
Qed.

Lemma bits_of_ones D n : n + 1 = 2 ^ D → Forall (λ b, b ≠ 0%Z) (bits_of D n).
Proof.
  revert n. induction D as [|D IH]; intros n Hn; cbn [bits_of].
  - constructor.
  - pose proof (Nat.pow_succ_r' 2 D). pose proof (Nat.div_mod_eq n 2).
    pose proof (Nat.mod_upper_bound n 2).
    constructor; [lia|]. apply IH. lia.
Qed.

(** C2, as the code has it: the call that fills the tree goes through the
    [-1 == firstBit] branch of [updateSiblings], which wraps the child bits
    to zero and sets [isFull] and touches neither siblings nor root path; a
    later [addLeaf] on the full bundle keeps [isFull] and the depth, but it
    still counts the leaf in [treeSize] and, with [keepPath], retains it. *)
Theorem C2_addLeaf_when_full :
  (∀ (D : nat) (leaf : Dig) (t : MerkleTree),
     wf_path D (t_authPath t) →
     Forall (λ b, b ≠ 0%Z) (m_childBits (t_authPath t)) →
     updateSiblings leaf t
     = Some (mkTree true
               (set_childBits (replicate D 0%Z) (t_authPath t)))) ∧
  (∀ (D : nat) (ops : list (Dig * bool)) (cm : Dig) (keep : bool),
     length ops + 1 = 2 ^ D →
     ∃ b b',
       addLeaves ops (Bundle_new D) = Some b ∧
       addLeaf cm keep b = Some b' ∧
       Bundle_isFull b = false ∧ Bundle_isFull b' = true ∧
       m_siblings (t_authPath (b_tree b'))
       = m_siblings (t_authPath (b_tree b)) ∧
       m_childBits (t_authPath (b_tree b')) = replicate D 0%Z) ∧
  (∀ (cm : Dig) (keep : bool) (b b' : MerkleBundle),
     Bundle_isFull b = true → addLeaf cm keep b = Some b' →
     Bundle_isFull b' = true ∧
     m_depth (t_authPath (b_tree b')) = m_depth (t_authPath (b_tree b)) ∧
     b_treeSize b' = count_inc (b_treeSize b) ∧
     b_authLeaf b' = b_authLeaf b ++ (if keep then [cm] else []) ∧
     length (b_authPath b')
     = length (b_authPath b) + (if keep then 1 else 0)).
Proof.
  split; [apply updateSiblings_wrap|]. split.
  - intros D ops cm keep Hn.
    destruct (addLeaves_ok D ops) as (b & Hb & Hok); [lia|].
    exists b. destruct Hok as ((Hwf & Hfull & Hbits & _) & _ & _ & HP).
    rewrite length_fmap in Hfull, Hbits.
    assert (Forall (wf_path D) (b_authPath b)) as Holds.
    { rewrite HP. apply Forall_fmap, Forall_true. intros idx.
      apply ideal_path_wf. }
    unfold addLeaf, Tree_updatePath.
    rewrite (updatePath_spec D cm _ _ Hwf Holds). cbn [mbind option_bind].
    rewrite (updateSiblings_wrap D).
    + cbn [mbind option_bind]. eexists. split; [done|]. split; [done|].
      unfold Bundle_isFull, isFull. cbn. rewrite Hfull.
      repeat split. apply bool_decide_eq_false_2. lia.
    + destruct Hwf as (? & ? & ? & ?). cbn [t_authPath].
      split; [done|]. split; [|done]. cbn [set_rootPath m_rootPath].
      rewrite hashes_length; lia.
    + cbn [t_authPath set_rootPath m_childBits]. rewrite Hbits.
      by apply bits_of_ones.
  - intros cm keep b b' Hfull E.
    split; [by eapply addLeaf_isFull|].
    unfold addLeaf, Tree_updatePath in E.
    destruct (updatePath cm (t_authPath (b_tree b)) (b_authPath b))
      as [[p v]|] eqn:E1; simpl in E; [|done].
    destruct (updateSiblings cm _) as [t2|] eqn:E2; simpl in E; [|done].
    injection E as <-. cbn [b_tree b_treeSize b_authLeaf b_authPath].
    destruct (updatePath_frame _ _ _ _ _ E1) as (Hd & _ & _ & HF).
    apply Forall2_length in HF.
    rewrite (updateSiblings_depth _ _ _ E2). cbn [t_authPath].
    repeat split; try done.
    + destruct keep; [done|by rewrite app_nil_r].
    + destruct keep; [rewrite length_app; cbn [length]|]; lia.
Qed.

(** ** Marshalling *)

Context {Hnat : CodecLaws Tok nat} {Hbool : CodecLaws Tok bool}
        {Hint : CodecLaws Tok Z} {Hcount : CodecLaws Tok N}
        {Hdig : CodecLaws Tok Dig}.

Lemma truncation_nil (s : list Tok) : ¬ truncation_of s [].
Proof.
  intros (t & Ht & E). symmetry in E. apply app_eq_nil in E as [_ ->]. done.
Qed.

(** A stream that ends inside [a ++ b] ends inside [a], or after [a] and
    inside [b]. *)
Lemma truncation_app (s a b : list Tok) :
  truncation_of s (a ++ b) →
  truncation_of s a ∨ ∃ s', s = a ++ s' ∧ truncation_of s' b.
Proof.
  revert s. induction a as [|x a IH]; intros s (t & Ht & E).
  - right. exists s. split; [done|]. by exists t.
  - destruct s as [|y s].
    + left. exists (x :: a). done.
    + cbn [app] in E. injection E as -> E.
      destruct (IH s) as [(t' & Ht' & ->)|(s' & -> & Hs')].
      * by exists t.
      * left. by exists t'.
      * right. by exists s'.
Qed.

Section Elements.
Context {A : Type} `{!Codec Tok A} {HA : CodecLaws Tok A}.

Lemma get_put_elems (v : list A) (rest : list Tok) :
  get_elems (length v) (put_elems v ++ rest) = Some (v, rest).
Proof using HA.
  induction v as [|x v IH]; [done|]. cbn [length put_elems get_elems].
  rewrite <- app_assoc, get_put. cbn [mbind option_bind].
  by rewrite IH.
Qed.

Lemma get_elems_truncated (v : list A) (s : list Tok) :
  truncation_of s (put_elems v) → get_elems (A := A) (length v) s = None.
Proof using HA.
  revert s. induction v as [|x v IH]; intros s Hs.
  - by apply truncation_nil in Hs.
  - cbn [put_elems] in Hs. cbn [length get_elems].
    apply truncation_app in Hs as [Hs|(s' & -> & Hs')].
    + by rewrite (get_truncated x s Hs).
    + rewrite get_put. cbn [mbind option_bind]. by rewrite (IH s' Hs').
Qed.

(** The stream operators of vectors have the properties of those of their
    elements. *)
Global Instance vector_codec_laws : CodecLaws Tok (list A).
Proof using HA Hnat.
  split.
  - cbn [get vector_codec]. by rewrite get_nil.
  - intros v rest. cbn [get put vector_codec].
    rewrite <- app_assoc, get_put. cbn [mbind option_bind].
    apply get_put_elems.
  - intros v s Hs. cbn [get put vector_codec] in *.
    apply truncation_app in Hs as [Hs|(s' & -> & Hs')].
    + by rewrite (get_truncated (length v) s Hs).
    + rewrite get_put. cbn [mbind option_bind].
      by apply get_elems_truncated.
Qed.

Lemma extract_put (x y : A) (rest : list Tok) :
  extract (mkIs (put x ++ rest) false) y = (mkIs rest false, x).
Proof using HA. unfold extract. cbn [is_fail is_buf]. by rewrite get_put. Qed.

Lemma extract_truncated (x y : A) (s : list Tok) :
  truncation_of s (put x) → extract (mkIs s false) y = (mkIs s true, y).
Proof using HA.
  intros Hs. unfold extract. cbn [is_fail is_buf].
  by rewrite (get_truncated x s Hs).
Qed.

Lemma extract_stopped (ins : istream Tok) (y : A) :
  is_fail ins = true ∨ is_buf ins = [] →
  is_fail (extract ins y).1 = true.
Proof using HA.
  intros Hs. unfold extract. destruct ins as [buf [|]]; cbn in *; [done|].
  destruct Hs as [?| ->]; [done|]. by rewrite get_nil.
Qed.

End Elements.

Lemma resize_vec_length {A} (d : A) n v : length (resize_vec d n v) = n.
Proof.
  unfold resize_vec. rewrite length_app, length_take, length_replicate. lia.
Qed.

(** Reading the child bits back fills the vector with what was written. *)
Lemma read_childBits_put (bits : list Z) (rest : list Tok) i pre old :
  length pre = i → length old = length bits →
  read_childBits (length bits) i (mkIs (put_elems bits ++ rest) false)
                 (pre ++ old)
  = (mkIs rest false, pre ++ bits, true).
Proof using Hint.
  revert i pre old. induction bits as [|b bits IH]; intros i pre old Hi Hl.
  - destruct old; [|done]. done.
  - destruct old as [|o old]; [done|].
    cbn [length put_elems read_childBits].
    rewrite <- app_assoc, extract_put. cbn [is_fail].
    subst i. rewrite insert_middle.
    rewrite (cons_middle b), app_assoc.
    rewrite (IH (S (length pre)) (pre ++ [b]) old).
    + by rewrite <- app_assoc.
    + rewrite length_app. cbn [length]. lia.
    + cbn [length] in Hl. lia.
Qed.

Lemma read_childBits_truncated (bits : list Z) (s : list Tok) i old :
  truncation_of s (put_elems bits) →
  (read_childBits (length bits) i (mkIs s false) old).2 = false.
Proof using Hint.
  revert s i old. induction bits as [|b bits IH]; intros s i old Hs.
  - by apply truncation_nil in Hs.
  - cbn [put_elems] in Hs. cbn [length read_childBits].
    apply truncation_app in Hs as [Hs|(s' & -> & Hs')].
    + by rewrite (extract_truncated b _ s Hs).
    + rewrite extract_put. cbn [is_fail]. by apply IH.
Qed.

Lemma AuthPath_roundtrip D (x y : MerkleAuthPath) (rest : list Tok) :
  wf_path D x → 0 < D →
  AuthPath_marshal_in (mkIs (AuthPath_marshal_out x ++ rest) false) y
  = (true, x, mkIs rest false).
Proof using Hnat Hint Hdig.
  intros (Hd & Hrp & Hsb & Hcb) HD.
  unfold AuthPath_marshal_in, AuthPath_marshal_out.
  rewrite <- !app_assoc, extract_put. cbn [is_fail orb].
  rewrite bool_decide_eq_false_2 by lia.
  cbn [set_depth set_rootPath set_siblings set_childBits
       m_depth m_rootPath m_siblings m_childBits].
  rewrite extract_put. cbn [is_fail]. rewrite extract_put. cbn [is_fail].
  pose proof (read_childBits_put (m_childBits x) rest 0 []
                (resize_vec 0%Z (m_depth x) (m_childBits y)) eq_refl) as Hr.
  cbn [app] in Hr. rewrite Hcb, <- Hd in Hr.
  rewrite Hr by apply resize_vec_length. cbn [negb]. by destruct x.
Qed.

Lemma AuthPath_truncated D (x y : MerkleAuthPath) (s : list Tok) :
  wf_path D x → 0 < D → truncation_of s (AuthPath_marshal_out x) →
  (AuthPath_marshal_in (mkIs s false) y).1.1 = false.
Proof using Hnat Hint Hdig.
  intros (Hd & Hrp & Hsb & Hcb) HD Hs.
  unfold AuthPath_marshal_in, AuthPath_marshal_out in *.
  apply truncation_app in Hs as [Hs|(s1 & -> & Hs)].
  { by rewrite (extract_truncated _ _ s Hs). }
  rewrite extract_put. cbn [is_fail orb].
  rewrite bool_decide_eq_false_2 by lia.
  cbn [set_depth set_rootPath set_siblings set_childBits
       m_depth m_rootPath m_siblings m_childBits].
  apply truncation_app in Hs as [Hs|(s2 & -> & Hs)].
  { by rewrite (extract_truncated _ _ s1 Hs). }
  rewrite extract_put. cbn [is_fail].
  apply truncation_app in Hs as [Hs|(s3 & -> & Hs)].
  { by rewrite (extract_truncated _ _ s2 Hs). }
  rewrite extract_put. cbn [is_fail].
  pose proof (read_childBits_truncated (m_childBits x) s3 0
                (resize_vec 0%Z (m_depth x) (m_childBits y)) Hs) as Hr.
  rewrite Hcb, <- Hd in Hr.
  destruct (read_childBits _ _ _ _) as [[ins bits] ok].
  cbn [snd] in Hr. by rewrite Hr.
Qed.

Lemma Tree_roundtrip D (x y : MerkleTree) (rest : list Tok) :
  wf_path D (t_authPath x) → 0 < D →
  Tree_marshal_in (mkIs (Tree_marshal_out x ++ rest) false) y
  = (true, x, mkIs rest false).
Proof using Hnat Hbool Hint Hdig.
  intros Hwf HD. unfold Tree_marshal_in, Tree_marshal_out.
  rewrite <- app_assoc, extract_put. cbn [is_fail t_authPath].
  rewrite (AuthPath_roundtrip D) by done. cbn [negb t_authPath].
  by destruct x.
Qed.

Lemma Tree_truncated D (x y : MerkleTree) (s : list Tok) :
  wf_path D (t_authPath x) → 0 < D →
  truncation_of s (Tree_marshal_out x) →
  (Tree_marshal_in (mkIs s false) y).1.1 = false.
Proof using Hnat Hbool Hint Hdig.
  intros Hwf HD Hs. unfold Tree_marshal_in, Tree_marshal_out in *.
  apply truncation_app in Hs as [Hs|(s1 & -> & Hs)].
  { by rewrite (extract_truncated _ _ s Hs). }
  rewrite extract_put. cbn [is_fail t_authPath].
  pose proof (AuthPath_truncated D _ (t_authPath y) s1 Hwf HD Hs) as Hr.
  destruct (AuthPath_marshal_in _ _) as [[ok p] ins].
  cbn [fst] in Hr. by rewrite Hr.
Qed.

Lemma read_authPaths_put (paths : list MerkleAuthPath) (rest : list Tok)
    i pre old :
  Forall (λ p, ∃ D, wf_path D p ∧ 0 < D) paths →
  length pre = i → length old = length paths →
  read_authPaths (length paths) i
    (mkIs (concat (AuthPath_marshal_out <$> paths) ++ rest) false)
    (pre ++ old)
  = (mkIs rest false, pre ++ paths, true).
Proof using Hnat Hint Hdig.
  revert i pre old. induction paths as [|p paths IH];
    intros i pre old Hall Hi Hl.
  - destruct old; [|done]. done.
  - destruct old as [|o old]; [done|].
    apply Forall_cons in Hall as [(D & Hwf & HD) Hall].
    cbn [length fmap list_fmap concat read_authPaths].
    rewrite <- app_assoc, (AuthPath_roundtrip D) by done. cbn [negb].
    subst i. rewrite insert_middle.
    rewrite (cons_middle p), app_assoc.
    rewrite (IH (S (length pre)) (pre ++ [p]) old).
    + by rewrite <- app_assoc.
    + done.
    + rewrite length_app. cbn [length]. lia.
    + cbn [length] in Hl. lia.
Qed.

Lemma read_authPaths_truncated (paths : list MerkleAuthPath)
    (s : list Tok) i old :
  Forall (λ p, ∃ D, wf_path D p ∧ 0 < D) paths →
  truncation_of s (concat (AuthPath_marshal_out <$> paths)) →
  (read_authPaths (length paths) i (mkIs s false) old).2 = false.
Proof using Hnat Hint Hdig.
  revert s i old. induction paths as [|p paths IH]; intros s i old Hall Hs.
  - by apply truncation_nil in Hs.
  - apply Forall_cons in Hall as [(D & Hwf & HD) Hall].
    cbn [fmap list_fmap concat] in Hs. cbn [length read_authPaths].
    apply truncation_app in Hs as [Hs|(s' & -> & Hs')].
    + pose proof (AuthPath_truncated D p
                    (default AuthPath_default (old !! i)) s Hwf HD Hs) as Hr.
      destruct (AuthPath_marshal_in _ _) as [[ok r] ins].
      cbn [fst] in Hr. by rewrite Hr.
    + rewrite (AuthPath_roundtrip D) by done. cbn [negb]. by apply IH.
Qed.

Lemma Bundle_roundtrip D (x y : MerkleBundle) (rest : list Tok) :
  wf_path D (t_authPath (b_tree x)) → 0 < D →
  length (b_authPath x) = length (b_authLeaf x) →
  Forall (λ p, ∃ D', wf_path D' p ∧ 0 < D') (b_authPath x) →
  Bundle_marshal_in (mkIs (Bundle_marshal_out x ++ rest) false) y
  = (true, x, mkIs rest false).
Proof using Hnat Hbool Hint Hcount Hdig.
  intros Hwf HD Hlen Hall. unfold Bundle_marshal_in, Bundle_marshal_out.
  rewrite <- !app_assoc, (Tree_roundtrip D) by done.
  cbn [negb b_tree b_treeSize b_authLeaf b_authPath].
  rewrite extract_put. cbn [is_fail]. rewrite extract_put. cbn [is_fail].
  rewrite resize_vec_length, <- Hlen.
  pose proof (read_authPaths_put (b_authPath x) rest 0 []
                (resize_vec AuthPath_default (length (b_authPath x))
                            (b_authPath y)) Hall eq_refl) as Hr.
  cbn [app] in Hr. rewrite Hr by apply resize_vec_length. cbn [negb].
  by destruct x.
Qed.

Lemma Bundle_truncated D (x y : MerkleBundle) (s : list Tok) :
  wf_path D (t_authPath (b_tree x)) → 0 < D →
  length (b_authPath x) = length (b_authLeaf x) →
  Forall (λ p, ∃ D', wf_path D' p ∧ 0 < D') (b_authPath x) →
  truncation_of s (Bundle_marshal_out x) →
  (Bundle_marshal_in (mkIs s false) y).1.1 = false.
Proof using Hnat Hbool Hint Hcount Hdig.
  intros Hwf HD Hlen Hall Hs.
  unfold Bundle_marshal_in, Bundle_marshal_out in *.
  apply truncation_app in Hs as [Hs|(s1 & -> & Hs)].
  { pose proof (Tree_truncated D _ (b_tree y) s Hwf HD Hs) as Hr.
    destruct (Tree_marshal_in _ _) as [[ok t] ins].
    cbn [fst] in Hr. by rewrite Hr. }
  rewrite (Tree_roundtrip D) by done.
  cbn [negb b_tree b_treeSize b_authLeaf b_authPath].
  apply truncation_app in Hs as [Hs|(s2 & -> & Hs)].
  { by rewrite (extract_truncated _ _ s1 Hs). }
  rewrite extract_put. cbn [is_fail].
  apply truncation_app in Hs as [Hs|(s3 & -> & Hs)].
  { by rewrite (extract_truncated _ _ s2 Hs). }
  rewrite extract_put. cbn [is_fail].
  rewrite resize_vec_length, <- Hlen.
  pose proof (read_authPaths_truncated (b_authPath x) s3 0
                (resize_vec AuthPath_default (length (b_authPath x))
                            (b_authPath y)) Hall Hs) as Hr.
  destruct (read_authPaths _ _ _ _) as [[ins paths] ok].
  cbn [snd] in Hr. by rewrite Hr.
Qed.

(** Reading back the sentinel fails. *)
Lemma AuthPath_sentinel (x y : MerkleAuthPath) (rest : list Tok) :
  m_depth x = 0 →
  (AuthPath_marshal_in (mkIs (AuthPath_marshal_out x ++ rest) false) y).1.1
  = false.
Proof using Hnat.
  intros Hd. unfold AuthPath_marshal_in, AuthPath_marshal_out.
  rewrite <- !app_assoc, extract_put, Hd. cbn [is_fail orb].
  by rewrite bool_decide_eq_true_2.
Qed.

(** C6, as the code has it: a path, accumulator or bundle whose paths are
    well formed at a depth of at least 1 (and, for a bundle, that retains as
    many paths as leaves) is read back by [marshal_in], into any receiver,
    field for field from what [marshal_out] wrote, with success reported and
    the rest of the stream left unread; reading back the depth-0 sentinel
    reports failure. *)
Theorem C6_marshal_roundtrip :
  (∀ D (x y : MerkleAuthPath) (rest : list Tok),
     wf_path D x → 0 < D →
     AuthPath_marshal_in (mkIs (AuthPath_marshal_out x ++ rest) false) y
     = (true, x, mkIs rest false)) ∧
  (∀ D (x y : MerkleTree) (rest : list Tok),
     wf_path D (t_authPath x) → 0 < D →
     Tree_marshal_in (mkIs (Tree_marshal_out x ++ rest) false) y
     = (true, x, mkIs rest false)) ∧
  (∀ D (x y : MerkleBundle) (rest : list Tok),
     wf_path D (t_authPath (b_tree x)) → 0 < D →
     length (b_authPath x) = length (b_authLeaf x) →
     Forall (λ p, ∃ D', wf_path D' p ∧ 0 < D') (b_authPath x) →
     Bundle_marshal_in (mkIs (Bundle_marshal_out x ++ rest) false) y
     = (true, x, mkIs rest false)) ∧
  (∀ (x y : MerkleAuthPath) (rest : list Tok),
     m_depth x = 0 →
     (AuthPath_marshal_in
        (mkIs (AuthPath_marshal_out x ++ rest) false) y).1.1 = false).
Proof using Hnat Hbool Hint Hcount Hdig.
  split; [apply AuthPath_roundtrip|].
  split; [apply Tree_roundtrip|].
  split; [apply Bundle_roundtrip|apply AuthPath_sentinel].
Qed.

(** ** Failed reads *)

Lemma AuthPath_marshal_in_fail (ins ins' : istream Tok)
    (y y' : MerkleAuthPath) :
  AuthPath_marshal_in ins y = (false, y', ins') → m_depth y' = 0.
Proof.
  unfold AuthPath_marshal_in. intros E.
  repeat (case_match; simplify_eq/=; try done).
Qed.

Lemma AuthPath_marshal_in_stopped (ins : istream Tok) (y : MerkleAuthPath) :
  is_fail ins = true ∨ is_buf ins = [] →
  (AuthPath_marshal_in ins y).1.1 = false.
Proof using Hnat.
  intros Hs. unfold AuthPath_marshal_in.
  pose proof (extract_stopped ins 0 Hs) as Hf.
  destruct (extract ins 0) as [ins1 len]. cbn [fst] in Hf. by rewrite Hf.
Qed.

Lemma Tree_marshal_in_stopped (ins : istream Tok) (y : MerkleTree) :
  is_fail ins = true ∨ is_buf ins = [] →
  (Tree_marshal_in ins y).1.1 = false.
Proof using Hbool.
  intros Hs. unfold Tree_marshal_in.
  pose proof (extract_stopped ins true Hs) as Hf.
  destruct (extract ins true) as [ins1 full]. cbn [fst] in Hf.
  by rewrite Hf.
Qed.

Lemma Bundle_marshal_in_stopped (ins : istream Tok) (y : MerkleBundle) :
  is_fail ins = true ∨ is_buf ins = [] →
  (Bundle_marshal_in ins y).1.1 = false.
Proof using Hbool.
  intros Hs. unfold Bundle_marshal_in.
  pose proof (Tree_marshal_in_stopped ins (b_tree y) Hs) as Ht.
  destruct (Tree_marshal_in ins (b_tree y)) as [[ok t1] ins1].
  cbn [fst] in Ht. by rewrite Ht.
Qed.

Lemma Tree_marshal_in_fail (ins ins' : istream Tok) (y y' : MerkleTree) :
  Tree_marshal_in ins y = (false, y', ins') →
  isFull y' = true ∧
  (is_fail (extract ins true).1 = false → m_depth (t_authPath y') = 0) ∧
  (m_depth (t_authPath y) = 0 → m_depth (t_authPath y') = 0).
Proof.
  unfold Tree_marshal_in, isFull.
  destruct (extract ins true) as [ins1 full]. cbn [fst t_authPath].
  destruct (is_fail ins1) eqn:Hf.
  - intros E. injection E as <- <-. cbn. by repeat split.
  - destruct (AuthPath_marshal_in ins1 (t_authPath y))
      as [[ok p] ins2] eqn:Ep.
    destruct ok; cbn [negb]; [done|]. intros E. injection E as <- <-.
    cbn [t_isFull t_authPath].
    pose proof (AuthPath_marshal_in_fail _ _ _ _ Ep). by repeat split.
Qed.

(** C7, as the code has it: [marshal_in] reports failure on a stream that is
    exhausted or has already failed, and on every stream that ends inside
    what [marshal_out] writes for a value whose paths are well formed at a
    depth of at least 1. Whenever it reports failure, a path is left at
    depth 0; an accumulator is left with [isFull] set, and with a frontier of
    depth 0 if the failure came after the flag was read or the frontier was
    at depth 0 before; and a bundle whose accumulator part failed to parse
    is left with [isFull()] true. *)
Theorem C7_marshal_in_failure :
  (∀ (ins ins' : istream Tok) (y y' : MerkleAuthPath),
     AuthPath_marshal_in ins y = (false, y', ins') → m_depth y' = 0) ∧
  (∀ (ins ins' : istream Tok) (y y' : MerkleTree),
     Tree_marshal_in ins y = (false, y', ins') →
     isFull y' = true ∧
     (is_fail (extract ins true).1 = false →
      m_depth (t_authPath y') = 0) ∧
     (m_depth (t_authPath y) = 0 → m_depth (t_authPath y') = 0)) ∧
  (∀ (ins ins' : istream Tok) (y y' : MerkleBundle),
     Bundle_marshal_in ins y = (false, y', ins') →
     (Tree_marshal_in ins (b_tree y)).1.1 = false →
     Bundle_isFull y' = true) ∧
  (∀ (ins : istream Tok) (p : MerkleAuthPath) (t : MerkleTree)
     (b : MerkleBundle),
     is_fail ins = true ∨ is_buf ins = [] →
     (AuthPath_marshal_in ins p).1.1 = false ∧
     (Tree_marshal_in ins t).1.1 = false ∧
     (Bundle_marshal_in ins b).1.1 = false) ∧
  (∀ D (x y : MerkleAuthPath) (s : list Tok),
     wf_path D x → 0 < D → truncation_of s (AuthPath_marshal_out x) →
     (AuthPath_marshal_in (mkIs s false) y).1.1 = false) ∧
  (∀ D (x y : MerkleTree) (s : list Tok),
     wf_path D (t_authPath x) → 0 < D →
     truncation_of s (Tree_marshal_out x) →
     (Tree_marshal_in (mkIs s false) y).1.1 = false) ∧
  (∀ D (x y : MerkleBundle) (s : list Tok),
     wf_path D (t_authPath (b_tree x)) → 0 < D →
     length (b_authPath x) = length (b_authLeaf x) →
     Forall (λ p, ∃ D', wf_path D' p ∧ 0 < D') (b_authPath x) →
     truncation_of s (Bundle_marshal_out x) →
     (Bundle_marshal_in (mkIs s false) y).1.1 = false).
Proof using Hnat Hbool Hint Hcount Hdig.
  split; [apply AuthPath_marshal_in_fail|].
  split; [apply Tree_marshal_in_fail|]. split; [|split].
  - intros ins ins' y y'. unfold Bundle_marshal_in, Bundle_isFull.
    destruct (Tree_marshal_in ins (b_tree y)) as [[ok t] ins1] eqn:Et.
    cbn [fst]. intros E ->. cbn [negb] in E. injection E as <- <-.
    cbn [b_tree]. by destruct (Tree_marshal_in_fail _ _ _ _ Et).
  - intros ins p t b Hs.
    split; [by apply AuthPath_marshal_in_stopped|].
    split; [by apply Tree_marshal_in_stopped|].
    by apply Bundle_marshal_in_stopped.
  - split; [apply AuthPath_truncated|].
    split; [apply Tree_truncated|apply Bundle_truncated].
Qed.

(** * Further properties *)

(** ** Memory safety of appending *)

Lemma incChildBits_from_total n i (bits : list Z) :
  i + n ≤ length bits →
  ∃ bits' r, incChildBits_from n i bits = Some (bits', r) ∧
             length bits' = length bits ∧
             (r = (-1)%Z ∨ (Z.of_nat i ≤ r < Z.of_nat (i + n))%Z).
Proof.
  revert i bits. induction n as [|n IH]; intros i bits Hlen.
  - exists bits, (-1)%Z. split; [done|]. split; [done|by left].
  - cbn [incChildBits_from].
    destruct (lookup_lt_is_Some_2 bits i) as [a Ha]; [lia|].
    rewrite Ha. cbn [mbind option_bind]. case_decide.
    + rewrite vset_Some by lia. cbn [mbind option_bind].
      eexists _, _. split; [done|]. rewrite length_insert.
      split; [done|right; lia].
    + rewrite vset_Some by lia. cbn [mbind option_bind].
      destruct (IH (S i) (<[i:=0%Z]> bits)) as (bits' & r & E & Hl & Hr).
      { rewrite length_insert. lia. }
      exists bits', r. rewrite length_insert in Hl.
      split; [done|]. split; [done|]. destruct Hr; [by left|right; lia].
Qed.

Lemma wf_path_set_siblings D p sb :
  wf_path D p → length sb = D → wf_path D (set_siblings sb p).
Proof. intros (? & ? & ? & ?) ?. by repeat split. Qed.

(** [updateSiblings] is defined on every accumulator whose frontier is well
    formed, keeps it well formed, and leaves depth and root path alone. *)
Lemma updateSiblings_wf D leaf t :
  wf_path D (t_authPath t) →
  ∃ t', updateSiblings leaf t = Some t' ∧
        wf_path D (t_authPath t') ∧
        m_rootPath (t_authPath t') = m_rootPath (t_authPath t).
Proof.
  intros Hwf. pose proof Hwf as (Hd & Hrp & Hsb & Hcb).
  unfold updateSiblings, incChildBits. rewrite Hd.
  destruct (incChildBits_from_total D 0 (m_childBits (t_authPath t)))
    as (bits & r & E & Hl & Hr); [lia|].
  rewrite E. cbn [mbind option_bind].
  assert (wf_path D (set_childBits bits (t_authPath t))) as Hwf'.
  { repeat split; try done. cbn. lia. }
  case_decide as C1; [|case_decide as C2].
  - eexists. split; [done|]. by split.
  - unfold leafSibling. cbn [set_childBits m_siblings].
    rewrite vset_Some by lia. cbn [mbind option_bind].
    eexists. split; [done|]. split; [|done]. cbn [t_authPath].
    apply wf_path_set_siblings; [done|]. by rewrite length_insert.
  - destruct Hr as [->|Hr]; [done|].
    destruct (Z.to_nat r) as [|k] eqn:Ek; [lia|].
    destruct (lookup_lt_is_Some_2 (m_rootPath (t_authPath t)) k)
      as [d Hdk]; [lia|].
    rewrite (hashSibling_spec k _ d); [|done|cbn; lia].
    cbn [mbind option_bind]. eexists. split; [done|]. split; [|done].
    cbn [t_authPath set_childBits m_siblings].
    apply wf_path_set_siblings; [done|].
    rewrite length_app, length_replicate. cbn [length].
    rewrite length_drop. lia.
Qed.

Lemma patched_wf bits D i lf new p :
  wf_path D p → wf_path D (patched bits D i lf new p).
Proof.
  intros (? & ? & ? & ?). unfold patched, wf_path. cbn.
  by rewrite patch_rootPath_length, patch_siblings_length.
Qed.

Lemma addLeaf_closed D cm keep b :
  bundle_wf D b →
  let p := t_authPath (b_tree b) in
  let new := hashes cm (m_siblings p) (m_childBits p) in
  let olds := patched (m_childBits p) D D (Some cm) new <$> b_authPath b in
  ∃ t', updateSiblings cm (mkTree (t_isFull (b_tree b)) (set_rootPath new p))
        = Some t' ∧
        wf_path D (t_authPath t') ∧
        m_rootPath (t_authPath t') = new ∧
        addLeaf cm keep b
        = Some (mkBundle t' (count_inc (b_treeSize b))
                  (if keep then b_authLeaf b ++ [cm] else b_authLeaf b)
                  (if keep then olds ++ [set_rootPath new p] else olds)).
Proof.
  intros (Hwf & Hlen & Holds) p new olds.
  assert (wf_path D (set_rootPath new p)) as Hwf1.
  { assert (wf_path D p) as (? & ? & ? & ?) by exact Hwf.
    split; [done|]. split; [|done].
    cbn [set_rootPath m_rootPath]. unfold new. rewrite hashes_length; lia. }
  destruct (updateSiblings_wf D cm
              (mkTree (t_isFull (b_tree b)) (set_rootPath new p)) Hwf1)
    as (t' & Et & Hwf' & Hrp).
  exists t'. split; [done|]. split; [done|]. split; [done|].
  unfold addLeaf, Tree_updatePath.
  rewrite (updatePath_spec D cm _ _ Hwf Holds). cbn [mbind option_bind].
  fold p. fold new. fold olds. cbn [t_authPath]. by rewrite Et.
Qed.

(** X1: [addLeaf] is defined on every well-formed bundle, whether full or
    not, and keeps it well formed: no vector is ever indexed outside its
    bounds, and the bundle still retains as many paths as leaves. *)
Theorem X1_addLeaf_safe (D : nat) (cm : Dig) (keep : bool)
    (b : MerkleBundle) :
  bundle_wf D b →
  ∃ b', addLeaf cm keep b = Some b' ∧ bundle_wf D b'.
Proof.
  intros Hb. pose proof Hb as (Hwf & Hlen & Holds).
  destruct (addLeaf_closed D cm keep b Hb) as (t' & _ & Hwf' & Hrp & E).
  eexists. split; [exact E|]. unfold bundle_wf.
  cbn [b_tree b_authLeaf b_authPath]. split; [done|].
  assert (Forall (wf_path D)
            (patched (m_childBits (t_authPath (b_tree b))) D D (Some cm)
               (hashes cm (m_siblings (t_authPath (b_tree b)))
                          (m_childBits (t_authPath (b_tree b))))
             <$> b_authPath b)) as Holds'.
  { apply Forall_fmap. eapply Forall_impl; [exact Holds|].
    intros p. apply patched_wf. }
  destruct keep.
  - split; [by rewrite !length_app, !length_fmap, Hlen|].
    apply Forall_app. split; [done|]. constructor; [|constructor].
    destruct Hwf as (? & ? & ? & ?). split; [done|]. split; [|done].
    cbn. rewrite hashes_length; lia.
  - split; [by rewrite length_fmap|done].
Qed.

(** X2: the root after [addLeaf] on a well-formed bundle is the root
    reconstructed from the new leaf and the frontier path as it was before
    the call: advancing the frontier does not touch the root path. *)
Theorem X2_addLeaf_root (D : nat) (cm : Dig) (keep : bool)
    (b b' : MerkleBundle) :
  bundle_wf D b → addLeaf cm keep b = Some b' →
  Bundle_rootHash b' = reconstruct cm (t_authPath (b_tree b)).
Proof.
  intros Hb E. pose proof Hb as (Hwf & _).
  destruct (addLeaf_closed D cm keep b Hb) as (t' & _ & _ & Hrp & E').
  rewrite E' in E. injection E as <-.
  unfold Bundle_rootHash, reconstruct, rootHash. cbn [b_tree].
  rewrite Hrp, (updatePath1_spec D) by done. done.
Qed.

(** ** What [updatePath] reads and writes *)

(** X3: on well-formed inputs the receiver that [updatePath] returns
    depends on the leaf, the siblings and the child bits only: neither the
    old paths handed over nor whatever the root path held before make a
    difference, and updating again with the same leaf changes nothing. *)
Theorem X3_updatePath_receiver (D : nat) (leaf : Dig)
    (self : MerkleAuthPath) (olds : list MerkleAuthPath) (v : list Dig) :
  wf_path D self → Forall (wf_path D) olds → length v = D →
  ∃ self',
    updatePath1 leaf self = Some self' ∧
    fst <$> updatePath leaf (set_rootPath v self) olds = Some self' ∧
    updatePath1 leaf self' = Some self'.
Proof.
  intros Hwf Holds Hv. pose proof Hwf as (Hd & Hrp & Hsb & Hcb).
  eexists. split; [by apply (updatePath1_spec D)|].
  assert (∀ w, length w = D → wf_path D (set_rootPath w self)) as Hset
    by (by intros w Hw; repeat split).
  split.
  - rewrite (updatePath_spec D leaf (set_rootPath v self) olds);
      [done|by apply Hset|done].
  - rewrite (updatePath1_spec D); [done|].
    apply Hset. rewrite hashes_length; lia.
Qed.

(** X4: what [updatePath] writes into an old path, level by level. With
    [ov] the overlap of the two positions, the old path takes over the
    receiver's new root path at the levels [k] with [depth - 1 - k <= ov],
    and at the one level [j] with [depth - 1 - j = ov] its sibling becomes
    the node the receiver passes through just below (the leaf at level 0);
    every other entry is left as it was. *)
Theorem X4_updatePath_patch (D : nat) (leaf : Dig) (self : MerkleAuthPath)
    (olds : list MerkleAuthPath) :
  wf_path D self → Forall (wf_path D) olds →
  ∃ self' olds',
    updatePath leaf self olds = Some (self', olds') ∧
    length olds' = length olds ∧
    ∀ j p, olds !! j = Some p →
      ∃ p', olds' !! j = Some p' ∧
        let ov := matchMSB (m_childBits self) (m_childBits p) in
        (∀ k, k < D →
           m_rootPath p' !! k
           = if decide (Z.of_nat D - 1 - Z.of_nat k ≤ ov)%Z
             then m_rootPath self' !! k else m_rootPath p !! k) ∧
        (∀ k, k < D →
           m_siblings p' !! k
           = if decide (Z.of_nat D - 1 - Z.of_nat k = ov)%Z
             then below leaf (m_rootPath self') k else m_siblings p !! k).
Proof.
  intros Hwf Holds. pose proof Hwf as (Hd & Hrp & Hsb & Hcb).
  rewrite (updatePath_spec D leaf self olds Hwf Holds).
  eexists _, _. split; [done|]. split; [by rewrite length_fmap|].
  intros j p Hp. rewrite list_lookup_fmap, Hp. eexists. split; [done|].
  assert (wf_path D p) as (Hd' & Hrp' & Hsb' & Hcb').
  { eapply Forall_lookup_1; eauto. }
  set (new := hashes leaf (m_siblings self) (m_childBits self)).
  assert (length new = D) as Hnew by (unfold new; rewrite hashes_length; lia).
  cbn [patched m_rootPath m_siblings set_rootPath]. split.
  - intros k Hk. unfold patch_rootPath. rewrite list_lookup_imap.
    destruct (lookup_lt_is_Some_2 (m_rootPath p) k) as [x ->]; [lia|].
    destruct (lookup_lt_is_Some_2 new k) as [y Hy]; [lia|].
    cbn [fmap option_fmap option_map]. rewrite Hy.
    repeat case_decide; try done; lia.
  - intros k Hk. unfold patch_siblings. rewrite list_lookup_imap.
    destruct (lookup_lt_is_Some_2 (m_siblings p) k) as [x ->]; [lia|].
    cbn [fmap option_fmap option_map]. destruct k as [|k].
    + cbn [below]. rewrite Z.sub_0_r. by case_decide.
    + destruct (lookup_lt_is_Some_2 new k) as [y Hy]; [lia|].
      cbn [below]. rewrite Hy.
      repeat case_decide; try done; lia.
Qed.

(** ** The counter and the siblings *)

(** X5: [incChildBits] on the position [n < 2^depth] leaves the position
    [n + 1], all zero if the counter wraps; it returns [-1] exactly on the
    wrap, and otherwise the index of the lowest one bit of [n + 1]. Only the
    child bits change. *)
Theorem X5_incChildBits_counter (D n : nat) (p : MerkleAuthPath) :
  m_depth p = D → m_childBits p = bits_of D n → n < 2 ^ D →
  ∃ bits r,
    incChildBits p = Some (set_childBits bits p, r) ∧
    (n + 1 = 2 ^ D → r = (-1)%Z ∧ bits = replicate D 0%Z) ∧
    (n + 1 < 2 ^ D →
     bits = bits_of D (n + 1) ∧
     ∃ j, r = Z.of_nat j ∧ j < D ∧
          ((n + 1) / 2 ^ j) mod 2 = 1 ∧
          ∀ k, k < j → ((n + 1) / 2 ^ k) mod 2 = 0).
Proof.
  intros Hd Hbits Hn. unfold incChildBits. rewrite Hd, Hbits.
  destruct (decide (n + 1 = 2 ^ D)) as [Hwrap|Hne].
  - pose proof (incChildBits_from_ones (bits_of D n) 0 []
                  (bits_of_ones D n Hwrap) eq_refl) as Hinc.
    rewrite bits_of_length in Hinc. cbn [app] in Hinc. rewrite Hinc.
    cbn [mbind option_bind]. eexists _, _. split; [done|].
    split; [done|lia].
  - pose proof (incChildBits_from_spec D 0 [] n eq_refl Hn) as Hinc.
    cbn [app] in Hinc. rewrite Hinc, decide_False by done.
    cbn [mbind option_bind]. eexists _, _. split; [done|].
    split; [done|]. intros _. split; [done|].
    exists (trail D n). rewrite Nat.add_0_l. split; [done|].
    split; [by apply trail_lt|].
    split; [by apply trail_at|]. intros k. apply trail_below.
Qed.

(** X6: on a well-formed path [hashSibling(index)] is defined exactly for
    [1 <= index < depth]; it then puts the root-path node below into
    [siblings[index]], the zero digest into every sibling below, and leaves
    the siblings above and everything else unchanged. *)
Theorem X6_hashSibling (D index : nat) (p : MerkleAuthPath) :
  wf_path D p →
  (is_Some (hashSibling index p) ↔ 1 ≤ index < D) ∧
  ∀ p', hashSibling index p = Some p' →
    m_depth p' = m_depth p ∧ m_rootPath p' = m_rootPath p ∧
    m_childBits p' = m_childBits p ∧
    length (m_siblings p') = D ∧
    ∀ k, k < D →
      m_siblings p' !! k
      = if decide (k < index) then Some zero
        else if decide (k = index) then m_rootPath p !! (index - 1)
        else m_siblings p !! k.
Proof.
  intros (Hd & Hrp & Hsb & Hcb).
  destruct index as [|k0].
  { split; [|done]. split; [by intros [? ?]|lia]. }
  destruct (decide (S k0 < D)) as [Hlt|Hge].
  - destruct (lookup_lt_is_Some_2 (m_rootPath p) k0) as [d Hdk]; [lia|].
    rewrite (hashSibling_spec k0 p d Hdk) by lia.
    split; [split; [lia|done]|].
    intros p' E. apply (inj Some) in E as <-.
    cbn [set_siblings m_depth m_rootPath m_siblings m_childBits].
    split; [done|]. split; [done|]. split; [done|]. split.
    { rewrite length_app, length_replicate. cbn [length].
      rewrite length_drop. lia. }
    intros k Hk. rewrite Nat.sub_succ, Nat.sub_0_r.
    destruct (decide (k < S k0)).
    + rewrite lookup_app_l by (rewrite length_replicate; lia).
      by rewrite lookup_replicate_2.
    + rewrite lookup_app_r by (rewrite length_replicate; lia).
      rewrite length_replicate. case_decide as Ek.
      * subst k. by rewrite Nat.sub_diag.
      * destruct (k - S k0) as [|m] eqn:Em; [lia|].
        rewrite lookup_cons, lookup_drop. f_equal. lia.
  - assert (hashSibling (S k0) p = None) as ->.
    { unfold hashSibling. destruct (m_rootPath p !! k0); [|done].
      cbn [mbind option_bind]. unfold vset.
      by rewrite decide_False by lia. }
    split; [|done]. split; [by intros [? ?]|lia].
Qed.

(** ** The root and the count *)

(** X7: after at most [2^D] calls on a fresh bundle, [treeSize] is the
    number of calls (modulo the width of [COUNT]) and, at depth at least 1
    and after at least one call, [rootHash()] is the root of the tree over
    the leaves appended, whichever paths were kept. *)
Theorem X7_root_is_tree_root (D : nat) (ops : list (Dig * bool)) :
  length ops ≤ 2 ^ D →
  ∃ b, addLeaves ops (Bundle_new D) = Some b ∧
    b_treeSize b = (N.of_nat (length ops) mod 2 ^ COUNT_bits)%N ∧
    length (b_authLeaf b) = length (filter (λ op, op.2 = true) ops) ∧
    (0 < D → 0 < length ops →
     Bundle_rootHash b = Some (node ops.*1 D 0)).
Proof.
  intros Hlen. destruct (addLeaves_ok D ops Hlen) as (b & Hb & Hok).
  exists b. split; [done|]. destruct Hok as (Hf & Hsz & HL & _).
  split; [done|]. split.
  - rewrite HL, length_fmap. unfold kept. generalize 0.
    clear. induction ops as [|[cm k] ops IH]; intros i; [done|].
    cbn [kept_from]. rewrite filter_cons. cbn [snd].
    destruct k; [rewrite decide_True by done|rewrite decide_False by done];
      cbn [length]; by rewrite IH.
  - intros HD Hn. apply (frontier_rootHash D ops.*1); try done;
      by rewrite length_fmap.
Qed.

(** ** Appends interleaved with garbage collection *)

Lemma run_inv_wf D leaves idxs b : run_inv D leaves idxs b → bundle_wf D b.
Proof.
  intros ((Hwf & _) & _ & HL & HP). split; [done|]. rewrite HL, HP. split.
  - by rewrite !length_fmap.
  - apply Forall_fmap, Forall_true. intros idx. apply ideal_path_wf.
Qed.

Lemma run_inv_add D leaves idxs b cm keep :
  run_inv D leaves idxs b → length leaves < 2 ^ D →
  ∃ b', addLeaf cm keep b = Some b' ∧
        run_inv D (leaves ++ [cm])
                (if keep then idxs ++ [length leaves] else idxs) b'.
Proof.
  intros Hinv Hn. pose proof (run_inv_wf _ _ _ _ Hinv) as Hbwf.
  destruct Hinv as (Hf & Hidx & HL & HP).
  destruct Hf as (Hwf & Hfull & Hbits & Hsibs & _). specialize (Hsibs Hn).
  rewrite bool_decide_eq_false_2 in Hfull by lia.
  set (newrp := (λ k, node (leaves ++ [cm]) (S k) (length leaves / 2 ^ S k))
                  <$> seq 0 D).
  assert (hashes cm (m_siblings (t_authPath (b_tree b)))
            (m_childBits (t_authPath (b_tree b))) = newrp) as Hnew.
  { rewrite Hsibs, Hbits. apply hashes_frontier. }
  destruct (addLeaf_closed D cm keep b Hbwf) as (t' & Et & _ & _ & E).
  rewrite Hnew in Et, E.
  destruct (updateSiblings_frontier D leaves cm
              (mkTree (t_isFull (b_tree b))
                      (set_rootPath newrp (t_authPath (b_tree b)))))
    as (t'' & Et'' & Hok'); try done.
  { destruct Hwf as (? & ? & ? & ?).
    split; [done|]. split; [|done]. cbn [set_rootPath m_rootPath t_authPath].
    unfold newrp. by rewrite length_fmap, length_seq. }
  rewrite Et in Et''. injection Et'' as <-.
  eexists. split; [exact E|].
  assert (patched (m_childBits (t_authPath (b_tree b))) D D (Some cm) newrp
            <$> b_authPath b
          = ideal_path D (leaves ++ [cm]) <$> idxs) as Hpatched.
  { rewrite HP, <- list_fmap_compose. apply list_fmap_ext.
    intros i idx Hi. unfold compose. rewrite Hbits.
    apply patched_ideal; [lia|]. by eapply Forall_lookup_1 in Hidx. }
  assert (b_authLeaf b
          = (λ idx, default zero ((leaves ++ [cm]) !! idx)) <$> idxs)
    as Hleafs.
  { rewrite HL. apply list_fmap_ext. intros i idx Hi.
    rewrite lookup_app_l; [done|]. by eapply Forall_lookup_1 in Hidx. }
  assert (Forall (λ idx, idx < length (leaves ++ [cm])) idxs) as Hidx'.
  { eapply Forall_impl; [exact Hidx|]. intros idx Hlt. cbn beta in *.
    rewrite length_app. cbn [length]. lia. }
  unfold run_inv. cbn [b_tree b_authLeaf b_authPath].
  split; [done|]. rewrite Hpatched. destruct keep.
  - split; [|split].
    + apply Forall_app. split; [done|]. constructor; [|constructor].
      rewrite length_app. cbn [length]. lia.
    + rewrite fmap_app, Hleafs. cbn [fmap list_fmap].
      by rewrite list_lookup_middle.
    + rewrite fmap_app. cbn [fmap list_fmap]. do 2 f_equal.
      apply snapshot_ideal; try done. by destruct Hwf.
  - done.
Qed.

(** Filtering pairs built from a list of indices. *)
Lemma filter_zip_fmap {A B} (P : A → Prop) `{∀ x, Decision (P x)}
    (f : nat → A) (g : nat → B) (idxs : list nat) :
  filter (λ x, P x.1) (zip (f <$> idxs) (g <$> idxs))
  = (λ idx, (f idx, g idx)) <$> filter (λ idx, P (f idx)) idxs.
Proof.
  induction idxs as [|i idxs IH]; [done|].
  cbn [fmap list_fmap zip zip_with]. rewrite !filter_cons. cbn [fst].
  case_decide; [rewrite fmap_cons|]; by rewrite <- IH.
Qed.

Lemma gc_closed (keepSet : gset Dig) (b : MerkleBundle) :
  length (b_authLeaf b) = length (b_authPath b) →
  let pairs := filter (λ x, x.1 ∈ keepSet)
                      (zip (b_authLeaf b) (b_authPath b)) in
  authGarbageCollect keepSet b
  = Some (mkBundle (b_tree b) (b_treeSize b) pairs.*1 pairs.*2).
Proof.
  intros Hlen pairs. unfold authGarbageCollect.
  by rewrite (gc_loop keepSet b Hlen).
Qed.

Lemma run_inv_gc D leaves idxs b (keepSet : gset Dig) :
  run_inv D leaves idxs b →
  ∃ b', authGarbageCollect keepSet b = Some b' ∧
        run_inv D leaves
          (filter (λ idx, default zero (leaves !! idx) ∈ keepSet) idxs) b'.
Proof.
  intros Hinv. pose proof (run_inv_wf _ _ _ _ Hinv) as (_ & Hlen & _).
  destruct Hinv as (Hf & Hidx & HL & HP).
  rewrite (gc_closed keepSet b Hlen). eexists. split; [done|].
  unfold run_inv. cbn [b_tree b_authLeaf b_authPath].
  split; [done|]. split.
  { apply Forall_forall. intros idx Hin.
    apply list_elem_of_filter in Hin as [_ Hin].
    rewrite Forall_forall in Hidx. by apply Hidx. }
  rewrite HL, HP. set (F := filter _ (zip _ _)).
  assert (F = (λ idx, (default zero (leaves !! idx), ideal_path D leaves idx))
              <$> filter (λ idx, default zero (leaves !! idx) ∈ keepSet) idxs)
    as -> by exact (filter_zip_fmap (λ cm, cm ∈ keepSet)
                      (λ idx, default zero (leaves !! idx))
                      (ideal_path D leaves) idxs).
  by rewrite <- !list_fmap_compose.
Qed.

Lemma run_leaves_length leaves ops :
  length leaves ≤ length (run_leaves leaves ops).
Proof.
  revert leaves. induction ops as [|[cm k|K] ops IH]; intros leaves;
    cbn [run_leaves]; [done| |apply IH].
  etrans; [|apply IH]. rewrite length_app. lia.
Qed.

Lemma bundle_steps_inv D ops leaves idxs b :
  run_inv D leaves idxs b →
  length (run_leaves leaves ops) ≤ 2 ^ D →
  ∃ b', bundle_steps ops b = Some b' ∧
        run_inv D (run_leaves leaves ops) (run_retained leaves idxs ops) b'.
Proof.
  revert leaves idxs b. induction ops as [|[cm k|K] ops IH];
    intros leaves idxs b Hinv Hlen; cbn [run_leaves run_retained] in *.
  - by exists b.
  - pose proof (run_leaves_length (leaves ++ [cm]) ops) as Hle.
    rewrite length_app in Hle. cbn [length] in Hle.
    destruct (run_inv_add D leaves idxs b cm k Hinv) as (b1 & E1 & Hinv1);
      [lia|].
    destruct (IH _ _ b1 Hinv1 Hlen) as (b' & E' & Hinv').
    exists b'. split; [|done]. cbn [bundle_steps bundle_step].
    by rewrite E1.
  - destruct (run_inv_gc D leaves idxs b K Hinv) as (b1 & E1 & Hinv1).
    destruct (IH _ _ b1 Hinv1 Hlen) as (b' & E' & Hinv').
    exists b'. split; [|done]. cbn [bundle_steps bundle_step].
    by rewrite E1.
Qed.

Lemma run_inv_new D : run_inv D [] [] (Bundle_new D).
Proof.
  split; [|split; [constructor|done]].
  unfold frontier_ok, Bundle_new, Tree_new, AuthPath_new, wf_path.
  cbn. rewrite !length_replicate.
  assert (bits_of D 0 = replicate D 0%Z) as Hb.
  { induction D as [|D IH]; [done|]. cbn [bits_of replicate].
    by rewrite Nat.Div0.mod_0_l, Nat.Div0.div_0_l, IH. }
  pose proof (pow2_pos D).
  repeat split; try done.
  - symmetry. apply bool_decide_eq_false_2. lia.
  - intros _. unfold frontier_siblings. cbn [length].
    apply (list_eq_same_length _ _ D);
      [by rewrite length_fmap, length_seq|by rewrite length_replicate|].
    intros k x y Hk Hx Hy. rewrite lookup_replicate_2 in Hx by done.
    rewrite lookup_fmap_seq in Hy by done.
    rewrite Nat.Div0.div_0_l, Nat.Div0.mod_0_l in Hy.
    rewrite decide_True in Hy by done. congruence.
  - lia.
Qed.

(** X8: root consistency survives garbage collection. After any run of
    [addLeaf] and [authGarbageCollect] calls on a fresh bundle with at most
    [2^D] appends, the bundle retains as many paths as leaves, every
    retained path is the path of the tree for the insertion index of its
    leaf, its child bits read as that index, and (at depth at least 1) the
    root reconstructed from a retained leaf and its path is the live
    [rootHash()]. *)
Theorem X8_runs_with_collection (D : nat) (ops : list bundle_op) :
  length (run_leaves [] ops) ≤ 2 ^ D →
  ∃ b, bundle_steps ops (Bundle_new D) = Some b ∧
    let leaves := run_leaves [] ops in
    let idxs := run_retained [] [] ops in
    length (b_authPath b) = length (b_authLeaf b) ∧
    b_authLeaf b = (λ idx, default zero (leaves !! idx)) <$> idxs ∧
    b_authPath b = ideal_path D leaves <$> idxs ∧
    (∀ i p idx, b_authPath b !! i = Some p → idxs !! i = Some idx →
                le_value (m_childBits p) = Z.of_nat idx) ∧
    (0 < D →
     ∀ i leaf p,
       b_authLeaf b !! i = Some leaf → b_authPath b !! i = Some p →
       ∃ root, Bundle_rootHash b = Some root ∧
               reconstruct leaf p = Some root).
Proof.
  intros Hlen.
  destruct (bundle_steps_inv D ops [] [] (Bundle_new D) (run_inv_new D) Hlen)
    as (b & Hb & Hinv).
  exists b. split; [done|]. intros leaves idxs. fold leaves idxs in Hinv.
  destruct Hinv as (Hf & Hidx & HL & HP).
  split; [by rewrite HL, HP, !length_fmap|]. split; [done|]. split; [done|].
  split.
  - intros i p idx Hp Hi. rewrite HP, list_lookup_fmap, Hi in Hp.
    apply (inj Some) in Hp. subst p. cbn [ideal_path m_childBits].
    apply le_value_bits_of. eapply Forall_lookup_1 in Hidx; [|done].
    fold leaves in Hlen. lia.
  - intros HD i leaf p Hleaf Hp. exists (node leaves D 0).
    rewrite HL, list_lookup_fmap in Hleaf.
    rewrite HP, list_lookup_fmap in Hp.
    destruct (idxs !! i) as [idx|] eqn:Hi; [|done].
    cbn [fmap option_fmap option_map] in Hleaf, Hp.
    apply (inj Some) in Hleaf, Hp. subst p.
    eapply Forall_lookup_1 in Hidx; [|done].
    destruct (lookup_lt_is_Some_2 leaves idx Hidx) as [x Hx].
    rewrite Hx in Hleaf. cbn in Hleaf. subst x.
    fold leaves in Hlen. split.
    + apply (frontier_rootHash D leaves); [done|lia|done|done].
    + apply reconstruct_ideal; [done|lia|done].
Qed.

(** ** Garbage collection composes *)

Lemma gc_wf D (keepSet : gset Dig) b :
  bundle_wf D b →
  let pairs := filter (λ x, x.1 ∈ keepSet)
                      (zip (b_authLeaf b) (b_authPath b)) in
  bundle_wf D (mkBundle (b_tree b) (b_treeSize b) pairs.*1 pairs.*2).
Proof.
  intros (Hwf & Hlen & Holds) pairs. split; [done|].
  cbn [b_authLeaf b_authPath]. split; [by rewrite !length_fmap|].
  apply Forall_fmap, Forall_forall. intros [cm p] Hin.
  apply list_elem_of_filter in Hin as [_ Hin].
  apply list_elem_of_lookup in Hin as [i Hi].
  apply lookup_zip_with_Some in Hi as (x & y & E & _ & Hy).
  injection E as -> ->. by eapply Forall_lookup_1 in Holds.
Qed.

(** X9: garbage collections compose. On a bundle that retains as many
    paths as leaves, collecting with one keep-set and then with another is
    collecting once with their intersection, so collecting twice with the
    same set is collecting once; and collecting with a keep-set that holds
    every retained leaf changes nothing. *)
Theorem X9_collect_compose (K1 K2 : gset Dig) (b : MerkleBundle) :
  length (b_authLeaf b) = length (b_authPath b) →
  (authGarbageCollect K1 b ≫= authGarbageCollect K2
   = authGarbageCollect (K1 ∩ K2) b) ∧
  (authGarbageCollect K1 b ≫= authGarbageCollect K1
   = authGarbageCollect K1 b) ∧
  ((∀ cm, cm ∈ b_authLeaf b → cm ∈ K1) →
   authGarbageCollect K1 b = Some b).
Proof.
  intros Hlen.
  assert (∀ Ka Kb : gset Dig,
            authGarbageCollect Ka b ≫= authGarbageCollect Kb
            = authGarbageCollect (Ka ∩ Kb) b) as Hcomp.
  { intros Ka Kb. rewrite !(gc_closed _ b Hlen). cbn [mbind option_bind].
    rewrite gc_closed by (cbn; by rewrite !length_fmap).
    cbn [b_tree b_treeSize b_authLeaf b_authPath].
    rewrite zip_fst_snd, list_filter_filter.
    do 2 f_equal; f_equal; apply list_filter_iff; intros [cm p]; cbn;
      rewrite elem_of_intersection; tauto. }
  split; [apply Hcomp|]. split.
  - by rewrite Hcomp, (idemp_L (∩) K1).
  - intros Hall. rewrite (gc_closed _ b Hlen).
    assert (filter (λ x, x.1 ∈ K1) (zip (b_authLeaf b) (b_authPath b))
            = zip (b_authLeaf b) (b_authPath b)) as ->.
    { set (l := zip _ _).
      assert (∀ x, x ∈ l → x.1 ∈ K1) as Hl.
      { intros [cm p] Hin. apply Hall. cbn.
        apply list_elem_of_lookup in Hin as [i Hi].
        apply lookup_zip_with_Some in Hi as (x & y & E & Hx & _).
        injection E as -> ->. by eapply list_elem_of_lookup_2. }
      clearbody l. induction l as [|x l IH]; [done|].
      rewrite filter_cons_True by (apply Hl; left).
      f_equal. apply IH. intros y Hy. apply Hl. by right. }
    rewrite fst_zip, snd_zip by lia. by destruct b.
Qed.

Lemma filter_zip_fmap_r {A B} (P : A → Prop) `{∀ x, Decision (P x)}
    (g : B → B) (l : list A) (k : list B) :
  filter (λ x, P x.1) (zip l (g <$> k))
  = (λ x, (x.1, g x.2)) <$> filter (λ x, P x.1) (zip l k).
Proof.
  revert k. induction l as [|a l IH]; intros [|y k]; try done.
  cbn [fmap list_fmap zip zip_with]. rewrite !filter_cons. cbn [fst].
  case_decide; [rewrite fmap_cons; cbn [fst snd]|]; by rewrite <- IH.
Qed.

(** X10: garbage collection commutes with [addLeaf]. On a well-formed
    bundle, appending a leaf and then collecting gives the same bundle as
    collecting first and appending then, provided the leaf, if it is kept,
    is in the keep-set: each retained path is patched on its own. *)
Theorem X10_collect_commutes (D : nat) (K : gset Dig) (cm : Dig)
    (keep : bool) (b : MerkleBundle) :
  bundle_wf D b → (keep = true → cm ∈ K) →
  addLeaf cm keep b ≫= authGarbageCollect K
  = authGarbageCollect K b ≫= addLeaf cm keep.
Proof.
  intros Hb Hin. pose proof Hb as (Hwf & Hlen & Holds).
  destruct (addLeaf_closed D cm keep b Hb) as (t' & Et & _ & _ & E).
  rewrite E, (gc_closed K b Hlen). cbn [mbind option_bind].
  pose proof (gc_wf D K b Hb) as Hb1. cbn zeta in Hb1.
  destruct (addLeaf_closed D cm keep _ Hb1) as (t1 & Et1 & _ & _ & E1).
  cbn [b_tree b_treeSize b_authLeaf b_authPath] in Et1, E1.
  rewrite Et in Et1. injection Et1 as <-. rewrite E1. clear E E1.
  set (p := t_authPath (b_tree b)).
  set (new := hashes cm (m_siblings p) (m_childBits p)).
  set (g := patched (m_childBits p) D D (Some cm) new).
  set (F := filter (λ x, x.1 ∈ K) (zip (b_authLeaf b) (b_authPath b))).
  assert (filter (λ x, x.1 ∈ K) (zip (b_authLeaf b) (g <$> b_authPath b))
          = (λ x, (x.1, g x.2)) <$> F) as HF
    by exact (filter_zip_fmap_r (λ c, c ∈ K) g _ _).
  assert (((λ x : Dig * MerkleAuthPath, (x.1, g x.2)) <$> F).*1 = F.*1) as H1.
  { rewrite <- list_fmap_compose. by apply list_fmap_ext. }
  assert (((λ x : Dig * MerkleAuthPath, (x.1, g x.2)) <$> F).*2
          = g <$> F.*2) as H2.
  { rewrite <- !list_fmap_compose. by apply list_fmap_ext. }
  rewrite gc_closed.
  2:{ cbn [b_authLeaf b_authPath]. destruct keep;
        rewrite ?length_app, !length_fmap; cbn [length]; lia. }
  cbn [b_tree b_treeSize b_authLeaf b_authPath]. destruct keep.
  - rewrite zip_with_app by (by rewrite length_fmap).
    rewrite filter_app, HF. cbn [zip_with].
    rewrite filter_cons_True by (cbn; by apply Hin). rewrite filter_nil.
    rewrite !fmap_app, H1, H2. done.
  - by rewrite HF, H1, H2.
Qed.

(** ** What a successful read guarantees *)

Lemma read_childBits_ok (n i : nat) (ins ins' : istream Tok)
    (bits bits' : list Z) (ok : bool) :
  read_childBits n i ins bits = (ins', bits', ok) →
  length bits' = length bits ∧
  (ok = true → is_fail ins = false → is_fail ins' = false).
Proof.
  revert i ins bits. induction n as [|n IH]; intros i ins bits.
  - cbn [read_childBits]. intros E. by simplify_eq.
  - cbn [read_childBits].
    destruct (extract ins (default 0%Z (bits !! i))) as [ins1 r].
    destruct (is_fail ins1) eqn:Hf.
    + intros E. simplify_eq. by rewrite length_insert.
    + intros E. apply IH in E as [E1 E2]. rewrite length_insert in E1.
      split; [done|]. intros Hok _. by apply E2.
Qed.

Lemma AuthPath_marshal_in_ok (ins ins' : istream Tok)
    (y y' : MerkleAuthPath) :
  AuthPath_marshal_in ins y = (true, y', ins') →
  m_depth y' ≠ 0 ∧ length (m_childBits y') = m_depth y' ∧
  is_fail ins = false ∧ is_fail ins' = false.
Proof.
  unfold AuthPath_marshal_in.
  assert (is_fail ins = true → is_fail (extract ins 0).1 = true) as Hstop.
  { unfold extract. intros E. by rewrite E. }
  destruct (extract ins 0) as [ins1 len]. cbn [fst] in Hstop.
  destruct (is_fail ins1) eqn:Hf1; cbn [orb]; [done|].
  case_bool_decide as Hlen; [done|].
  cbn [set_depth set_rootPath set_siblings set_childBits
       m_depth m_rootPath m_siblings m_childBits].
  destruct (extract ins1 _) as [ins2 rp]. destruct (is_fail ins2); [done|].
  destruct (extract ins2 _) as [ins3 sb].
  destruct (is_fail ins3) eqn:Hf3; [done|].
  destruct (read_childBits _ _ _ _) as [[ins4 bits] ok] eqn:Er.
  apply read_childBits_ok in Er as [El Ef]. rewrite resize_vec_length in El.
  destruct ok; cbn [negb]; [|done]. intros E. simplify_eq. cbn.
  split; [done|]. split; [done|]. split; [|by apply Ef].
  by destruct (is_fail ins); [discriminate Hstop|].
Qed.

Lemma Tree_marshal_in_ok (ins ins' : istream Tok) (y y' : MerkleTree) :
  Tree_marshal_in ins y = (true, y', ins') →
  m_depth (t_authPath y') ≠ 0 ∧
  length (m_childBits (t_authPath y')) = m_depth (t_authPath y') ∧
  is_fail ins' = false.
Proof.
  unfold Tree_marshal_in. destruct (extract ins true) as [ins1 full].
  destruct (is_fail ins1); [done|]. cbn [t_authPath t_isFull].
  destruct (AuthPath_marshal_in ins1 (t_authPath y)) as [[ok p] ins2] eqn:Ep.
  destruct ok; cbn [negb]; [|done]. intros E. simplify_eq. cbn.
  by apply AuthPath_marshal_in_ok in Ep as (? & ? & _ & ?).
Qed.

Lemma read_authPaths_ok (n i : nat) (ins ins' : istream Tok)
    (paths paths' : list MerkleAuthPath) :
  read_authPaths n i ins paths = (ins', paths', true) →
  length paths' = length paths ∧
  (∀ j, j < i → paths' !! j = paths !! j) ∧
  (∀ j p, i ≤ j < i + n → paths' !! j = Some p →
     m_depth p ≠ 0 ∧ length (m_childBits p) = m_depth p) ∧
  (is_fail ins = false → is_fail ins' = false).
Proof.
  revert i ins paths. induction n as [|n IH]; intros i ins paths.
  - cbn [read_authPaths]. intros E. simplify_eq.
    split; [done|]. split; [done|]. split; [|done]. intros; lia.
  - cbn [read_authPaths].
    destruct (AuthPath_marshal_in ins _) as [[ok r] ins1] eqn:Ep.
    destruct ok; cbn [negb]; [|done]. intros E.
    apply AuthPath_marshal_in_ok in Ep as (Hd & Hc & _ & Hf).
    apply IH in E as (El & Elow & Ehigh & Ef).
    rewrite length_insert in El. split; [done|].
    split; [|split; [|by intros _; apply Ef]].
    + intros j Hj. rewrite Elow by lia. apply list_lookup_insert_ne. lia.
    + intros j p Hj Hp. destruct (decide (j = i)) as [->|Hne].
      * rewrite Elow in Hp by lia.
        apply list_lookup_insert_Some in Hp as [(_ & <- & _)|[? _]];
          [by split|done].
      * apply (Ehigh j); [lia|done].
Qed.


(** X12: what [marshal_out] writes is unambiguous. Two well-formed values
    of a depth of at least 1, each followed by any tokens, give the same
    stream only when the values are equal and the tokens that follow are
    too: no output of [marshal_out] is a proper prefix of another, which is
    what lets a bundle write its paths one after the other with no
    separator. *)
Theorem X12_marshal_out_unambiguous :
  (∀ D D' (x x' : MerkleAuthPath) (r r' : list Tok),
     wf_path D x → 0 < D → wf_path D' x' → 0 < D' →
     AuthPath_marshal_out x ++ r = AuthPath_marshal_out x' ++ r' →
     x = x' ∧ r = r') ∧
  (∀ D D' (x x' : MerkleTree) (r r' : list Tok),
     wf_path D (t_authPath x) → 0 < D →
     wf_path D' (t_authPath x') → 0 < D' →
     Tree_marshal_out x ++ r = Tree_marshal_out x' ++ r' →
     x = x' ∧ r = r') ∧
  (∀ D D' (x x' : MerkleBundle) (r r' : list Tok),
     bundle_wf D x → 0 < D → bundle_wf D' x' → 0 < D' →
     Bundle_marshal_out x ++ r = Bundle_marshal_out x' ++ r' →
     x = x' ∧ r = r').
Proof using Hnat Hbool Hint Hcount Hdig zero.
  split; [|split].
  - intros D D' x x' r r' Hx HD Hx' HD' E.
    pose proof (AuthPath_roundtrip D x x r Hx HD) as E1.
    rewrite E, (AuthPath_roundtrip D' x' x r' Hx' HD') in E1.
    by simplify_eq.
  - intros D D' x x' r r' Hx HD Hx' HD' E.
    pose proof (Tree_roundtrip D x x r Hx HD) as E1.
    rewrite E, (Tree_roundtrip D' x' x r' Hx' HD') in E1.
    by simplify_eq.
  - intros D D' x x' r r' (Hx & Hl & Hp) HD (Hx' & Hl' & Hp') HD' E.
    assert (∀ E (b : MerkleBundle), 0 < E → Forall (wf_path E) (b_authPath b) →
            Forall (λ p, ∃ E', wf_path E' p ∧ 0 < E') (b_authPath b))
      as Hany.
    { intros E0 b HE HF. eapply Forall_impl; [exact HF|].
      intros p Hwf. by exists E0. }
    pose proof (Bundle_roundtrip D x x r Hx HD (eq_sym Hl)
                  (Hany D x HD Hp)) as E1.
    rewrite E, (Bundle_roundtrip D' x' x r' Hx' HD' (eq_sym Hl')
                  (Hany D' x' HD' Hp')) in E1.
    by simplify_eq.
Qed.

(** ** The test driver *)

Lemma test_ops_length leaf_of leafNumber n :
  length (test_ops leaf_of leafNumber n) = n.
Proof. unfold test_ops. by rewrite length_fmap, length_seq. Qed.

Lemma test_ops_S leaf_of leafNumber n :
  test_ops leaf_of leafNumber (S n)
  = test_ops leaf_of leafNumber n
    ++ [(leaf_of (N.of_nat n mod 2 ^ COUNT_bits)%N,
         bool_decide (leafNumber = (N.of_nat n mod 2 ^ COUNT_bits)%N))].
Proof. unfold test_ops. by rewrite seq_S, fmap_app. Qed.

(** The loop ends after [2 ^ D] calls, with the bundle those calls give. *)
Lemma fill_loop_run leaf_of leafNumber D k :
  ∀ n b fuel,
    n + k = 2 ^ D → k < fuel →
    addLeaves (test_ops leaf_of leafNumber n) (Bundle_new D) = Some b →
    fill_loop leaf_of leafNumber fuel b
    = addLeaves (test_ops leaf_of leafNumber (2 ^ D)) (Bundle_new D).
Proof.
  induction k as [|k IH]; intros n b fuel Hn Hfuel Hb.
  - destruct fuel as [|fuel]; [lia|]. cbn [fill_loop].
    destruct (addLeaves_ok D (test_ops leaf_of leafNumber n))
      as (b0 & Hb0 & (_ & Hfull & _) & _).
    { rewrite test_ops_length. lia. }
    rewrite Hb in Hb0. injection Hb0 as <-.
    unfold Bundle_isFull, isFull. rewrite Hfull, length_fmap, test_ops_length.
    rewrite bool_decide_eq_true_2 by lia.
    replace (2 ^ D) with n by lia. by rewrite Hb.
  - destruct fuel as [|fuel]; [lia|]. cbn [fill_loop].
    destruct (addLeaves_ok D (test_ops leaf_of leafNumber n))
      as (b0 & Hb0 & (_ & Hfull & _) & Hsz & _).
    { rewrite test_ops_length. lia. }
    rewrite Hb in Hb0. injection Hb0 as <-.
    unfold Bundle_isFull, isFull. rewrite Hfull, length_fmap, test_ops_length.
    rewrite bool_decide_eq_false_2 by lia.
    rewrite Hsz, test_ops_length.
    destruct (addLeaves_ok D (test_ops leaf_of leafNumber (S n)))
      as (b1 & Hb1 & _).
    { rewrite test_ops_length. lia. }
    pose proof Hb1 as Hb1'.
    rewrite test_ops_S, addLeaves_app, Hb in Hb1'.
    cbn [mbind option_bind addLeaves] in Hb1'.
    destruct (addLeaf _ _ b) as [b'|]; [|done].
    cbn [mbind option_bind] in Hb1' |- *. injection Hb1' as ->.
    apply (IH (S n)); [lia|lia|done].
Qed.

Lemma kept_from_single (f : nat → Dig) (fl : nat → bool) (m n i : nat) :
  (∀ j, i ≤ j < i + n → fl j = true ↔ j = m) →
  kept_from i ((λ j, (f j, fl j)) <$> seq i n)
  = if decide (i ≤ m < i + n) then [m] else [].
Proof.
  revert i. induction n as [|n IH]; intros i Hfl.
  - cbn. case_decide; [lia|done].
  - cbn [seq fmap list_fmap kept_from].
    rewrite IH by (intros j Hj; apply Hfl; lia).
    pose proof (Hfl i ltac:(lia)) as Hi. destruct (fl i).
    + assert (i = m) as -> by by apply Hi.
      rewrite decide_False by lia. by rewrite decide_True by lia.
    + assert (i ≠ m) by (intros ->; by destruct Hi as [_ Hi]; discriminate Hi).
      repeat case_decide; done || lia.
Qed.

(** X13: the fill loop of the test driver. The loop
    [while (!bundle.isFull()) addLeaf(...)] ends after [2 ^ treeDepth]
    calls with a full bundle. When the counter type holds [2 ^ treeDepth],
    a leaf number below it leaves exactly one retained leaf and path, those
    of that leaf in the tree of all the leaves, from which the root is
    recomputed; a leaf number that is not below it makes the driver exit.
    When [2 ^ treeDepth] is a multiple of the counter's range the counter
    ends at 0 and the driver exits for every leaf number. *)
Theorem X13_runTest (leaf_of : N → Dig) (D : nat) (leafNumber : N)
    (fuel : nat) :
  2 ^ D < fuel →
  let leaves :=
    (λ i, leaf_of (N.of_nat i mod 2 ^ COUNT_bits)%N) <$> seq 0 (2 ^ D) in
  ∃ b, fill_loop leaf_of leafNumber fuel (Bundle_new D) = Some b ∧
       Bundle_isFull b = true ∧
       b_treeSize b = (N.of_nat (2 ^ D) mod 2 ^ COUNT_bits)%N ∧
       ((N.of_nat (2 ^ D) < 2 ^ COUNT_bits)%N →
        ((leafNumber < N.of_nat (2 ^ D))%N →
         let p := ideal_path D leaves (N.to_nat leafNumber) in
         b_authLeaf b = [leaf_of leafNumber] ∧ b_authPath b = [p] ∧
         runTest leaf_of D leafNumber fuel
         = Some (TestPath (leaf_of leafNumber) p) ∧
         (0 < D → reconstruct (leaf_of leafNumber) p = Bundle_rootHash b)) ∧
        ((N.of_nat (2 ^ D) ≤ leafNumber)%N →
         runTest leaf_of D leafNumber fuel = Some TestExit)) ∧
       ((N.of_nat (2 ^ D) mod 2 ^ COUNT_bits = 0)%N →
        runTest leaf_of D leafNumber fuel = Some TestExit).
Proof.
  intros Hfuel leaves.
  pose proof (fill_loop_run leaf_of leafNumber D (2 ^ D) 0 (Bundle_new D)
                fuel eq_refl Hfuel eq_refl) as Hrun.
  destruct (addLeaves_ok D (test_ops leaf_of leafNumber (2 ^ D)))
    as (b & Hb & Hfr & Hsz & HL & HP).
  { by rewrite test_ops_length. }
  rewrite test_ops_length in Hsz.
  assert ((test_ops leaf_of leafNumber (2 ^ D)).*1 = leaves) as Hleaves.
  { unfold test_ops, leaves. rewrite <- list_fmap_compose.
    by apply list_fmap_ext. }
  rewrite Hleaves in Hfr, HL, HP. rewrite Hb in Hrun.
  assert (length leaves = 2 ^ D) as Hlen
    by (unfold leaves; by rewrite length_fmap, length_seq).
  exists b. split; [done|]. split.
  { destruct Hfr as (_ & Hfull & _). unfold Bundle_isFull, isFull.
    rewrite Hfull, Hlen. by apply bool_decide_eq_true_2. }
  split; [done|]. split.
  - intros Hfit.
    assert (kept (test_ops leaf_of leafNumber (2 ^ D))
            = if decide (0 ≤ N.to_nat leafNumber < 0 + 2 ^ D)
              then [N.to_nat leafNumber] else []) as Hkept.
    { unfold kept, test_ops.
      apply (kept_from_single
               (λ i, leaf_of (N.of_nat i mod 2 ^ COUNT_bits)%N)
               (λ i, bool_decide
                       (leafNumber = (N.of_nat i mod 2 ^ COUNT_bits)%N))).
      intros j Hj. rewrite N.mod_small by lia.
      rewrite bool_decide_eq_true. lia. }
    rewrite Hkept in HL, HP. split.
    + intros Hlt. rewrite decide_True in HL, HP by lia.
      cbn [fmap list_fmap] in HL, HP.
      assert (leaves !! N.to_nat leafNumber = Some (leaf_of leafNumber))
        as Hleaf.
      { unfold leaves. rewrite list_lookup_fmap, lookup_seq_lt by lia.
        cbn. rewrite N.mod_small by lia. do 2 f_equal. lia. }
      rewrite Hleaf in HL. cbn [default] in HL.
      split; [done|]. split; [done|]. split.
      * unfold runTest. rewrite Hrun. cbn [mbind option_bind].
        rewrite decide_False by (rewrite Hsz, N.mod_small by lia; lia).
        by rewrite HL, HP.
      * intros HD. unfold Bundle_rootHash.
        rewrite (frontier_rootHash D leaves (b_tree b)); [|lia|lia|lia|done].
        apply (reconstruct_ideal D); [done|lia|done].
    + intros Hge. unfold runTest. rewrite Hrun. cbn [mbind option_bind].
      by rewrite decide_True by (rewrite Hsz, N.mod_small by lia; lia).
  - intros Hwrap. unfold runTest. rewrite Hrun. cbn [mbind option_bind].
    by rewrite decide_True by (rewrite Hsz, Hwrap; lia).
Qed.

(** ** Blessing an array of words *)

Lemma slice_Some {A} (v : list A) lo hi :
  lo ≤ hi → hi ≤ length v →
  slice v lo hi = Some (take (hi - lo) (drop lo v)).
Proof. intros. unfold slice. by rewrite decide_True. Qed.

Lemma concat_slices {A} (v : list A) (s n : nat) :
  concat ((λ i, take s (drop (s * i) v)) <$> seq 0 n) = take (s * n) v.
Proof.
  induction n as [|n IH].
  - by rewrite Nat.mul_0_r.
  - rewrite seq_S, fmap_app, concat_app, IH. cbn [fmap list_fmap concat].
    rewrite app_nil_r, Nat.add_0_l, take_take_drop. f_equal. lia.
Qed.


End Merkle.

(** * Examples *)

Module Examples.
Import Sample.

(** The sample stream operators have the properties assumed of stream
    operators. *)
Lemma truncation_singleton (a : Z) (s : list Z) :
  truncation_of s [a] → s = [].
Proof.
  intros (t & Ht & E). destruct s as [|b s]; [done|].
  injection E as _ E. by destruct s, t.
Qed.

Lemma nat_codec_laws : @CodecLaws Z nat nat_codec.
Proof.
  split.
  - done.
  - intros x rest. simpl. rewrite decide_True by lia. by rewrite Nat2Z.id.
  - intros x s Hs. by rewrite (truncation_singleton _ s Hs).
Qed.

Lemma bool_codec_laws : @CodecLaws Z bool bool_codec.
Proof.
  split.
  - done.
  - by intros [] rest.
  - intros x s Hs. by rewrite (truncation_singleton _ s Hs).
Qed.

Lemma int_codec_laws : @CodecLaws Z Z int_codec.
Proof.
  split.
  - done.
  - done.
  - intros x s Hs. by rewrite (truncation_singleton _ s Hs).
Qed.

Lemma count_codec_laws : @CodecLaws Z N count_codec.
Proof.
  split.
  - done.
  - intros x rest. simpl. rewrite decide_True by lia. by rewrite N2Z.id.
  - intros x s Hs. by rewrite (truncation_singleton _ s Hs).
Qed.

(** The four leaves 10, 11, 12, 13 appended to a bundle of depth 2, all
    kept: the four paths end in the same root, and the accumulator is
    full. *)
Example run_depth2 :
  addLeaves 0 compress 32 [(10, true); (11, true); (12, true); (13, true)]
            (Bundle_new 0 2)
  = Some (mkBundle
            (mkTree true (mkPath 2 [118; 531] [12; 110] [0; 0]%Z))
            4 [10; 11; 12; 13]
            [ mkPath 2 [110; 531] [11; 118] [0; 0]%Z;
              mkPath 2 [110; 531] [10; 118] [1; 0]%Z;
              mkPath 2 [118; 531] [13; 110] [0; 1]%Z;
              mkPath 2 [118; 531] [12; 110] [1; 1]%Z ]).
Proof. vm_compute. reflexivity. Qed.

Lemma C1_witness :
  length ops3 ≤ 2 ^ 2 ∧
  ∃ b, addLeaves 0 compress 32 ops3 (Bundle_new 0 2) = Some b ∧
    ∀ i leaf p,
      b_authLeaf b !! i = Some leaf → b_authPath b !! i = Some p →
      ∃ root, Bundle_rootHash b = Some root ∧
              reconstruct 0 compress leaf p = Some root.
Proof.
  assert (length ops3 ≤ 2 ^ 2) as Hlen by (simpl; lia).
  split; [exact Hlen|].
  destruct (C1_snapshots_agree_with_tree 0 compress 32 2 ops3 Hlen)
    as (b & Hb & _ & _ & Hroot).
  exists b. split; [exact Hb|]. apply Hroot. lia.
Defined.

Lemma C2_witness :
  updateSiblings 0 5 (mkTree false (mkPath 1 [3] [4] [1%Z]))
  = Some (mkTree true (mkPath 1 [3] [4] [0%Z])).
Proof.
  apply (proj1 (C2_addLeaf_when_full 0 compress 32) 1 5
               (mkTree false (mkPath 1 [3] [4] [1%Z]))).
  - repeat split.
  - repeat constructor. lia.
Defined.

(** Two leaves fill a bundle of depth 1; a third [addLeaf] is defined and
    changes the frontier's root path, siblings and child bits, patches the
    retained paths, and counts the leaf. *)
Lemma C2_counterexample :
  ∃ b b',
    addLeaves 0 compress 32 ops2 (Bundle_new 0 1) = Some b ∧
    Bundle_isFull b = true ∧
    addLeaf 0 compress 32 12 false b = Some b' ∧
    m_rootPath (t_authPath (b_tree b')) ≠ m_rootPath (t_authPath (b_tree b)) ∧
    m_siblings (t_authPath (b_tree b')) ≠ m_siblings (t_authPath (b_tree b)) ∧
    m_childBits (t_authPath (b_tree b'))
    ≠ m_childBits (t_authPath (b_tree b)) ∧
    b_authPath b' ≠ b_authPath b ∧
    b_treeSize b' ≠ b_treeSize b.
Proof.
  eexists _, _. split; [vm_compute; reflexivity|].
  split; [reflexivity|]. split; [vm_compute; reflexivity|].
  repeat split; vm_compute; discriminate.
Qed.

Lemma C3_witness :
  wf_path 2 (AuthPath_new 0 2) ∧
  ∃ p', updatePath1 0 compress 10 (AuthPath_new 0 2) = Some p' ∧
    ∀ i, i < 2 →
      ∃ bl sib b,
        below 10 (m_rootPath p') i = Some bl ∧
        m_siblings p' !! i = Some sib ∧
        m_childBits p' !! i = Some b ∧
        m_rootPath p' !! i
        = Some (compress [ (if decide (b = 0)%Z then bl else sib);
                           (if decide (b = 0)%Z then sib else bl) ]).
Proof.
  assert (wf_path 2 (AuthPath_new 0 2)) as Hwf by (repeat split).
  split; [exact Hwf|].
  exact (C3_updatePath_levels 0 compress 2 10 (AuthPath_new 0 2) Hwf).
Defined.

Lemma C4_witness :
  length ops3 ≤ 2 ^ 2 ∧
  ∃ b, addLeaves 0 compress 32 ops3 (Bundle_new 0 2) = Some b ∧
    ∀ i p idx,
      b_authPath b !! i = Some p → kept ops3 !! i = Some idx →
      le_value (m_childBits p) = Z.of_nat idx.
Proof.
  assert (length ops3 ≤ 2 ^ 2) as Hlen by (simpl; lia).
  split; [exact Hlen|].
  destruct (C4_childBits_are_positions 0 compress 32 2 ops3 Hlen)
    as (b & Hb & _ & Hval & _).
  exists b. split; [exact Hb|exact Hval].
Defined.

Lemma C5_witness :
  length ops2 ≤ 2 ^ 1 ∧
  ∃ b, addLeaves 0 compress 32 ops2 (Bundle_new 0 1) = Some b ∧
       Bundle_isFull b = true.
Proof.
  assert (length ops2 ≤ 2 ^ 1) as Hlen by (simpl; lia).
  split; [exact Hlen|].
  destruct (C5_full_after_capacity 0 compress 32 1 ops2 Hlen)
    as (b & Hb & _ & Hfull).
  exists b. split; [exact Hb|]. apply Hfull. reflexivity.
Defined.

Lemma C6_witness :
  wf_path 1 (AuthPath_new 0 1) ∧
  @AuthPath_marshal_in nat 0 Z nat_codec int_codec nat_codec
    (mkIs (@AuthPath_marshal_out nat Z nat_codec int_codec nat_codec
             (AuthPath_new 0 1) ++ [7%Z]) false)
    AuthPath_default
  = (true, AuthPath_new 0 1, mkIs [7%Z] false).
Proof.
  assert (wf_path 1 (AuthPath_new 0 1)) as Hwf by (repeat split).
  split; [exact Hwf|].
  apply (proj1 (@C6_marshal_roundtrip nat 0 Z nat_codec bool_codec int_codec
                  count_codec nat_codec nat_codec_laws bool_codec_laws
                  int_codec_laws count_codec_laws nat_codec_laws) 1);
    [exact Hwf|lia].
Defined.

(** Written out and read back, the default-constructed path makes
    [marshal_in] report failure. *)
Lemma C6_counterexample :
  (@AuthPath_marshal_in nat 0 Z nat_codec int_codec nat_codec
     (mkIs (@AuthPath_marshal_out nat Z nat_codec int_codec nat_codec
              AuthPath_default) false)
     AuthPath_default).1.1 = false.
Proof. vm_compute. reflexivity. Qed.

Lemma C7_witness :
  m_depth (@AuthPath_marshal_in nat 0 Z nat_codec int_codec nat_codec
             (mkIs [] false) (AuthPath_new 0 1)).1.2 = 0.
Proof.
  apply (proj1 (@C7_marshal_in_failure nat 0 Z nat_codec bool_codec int_codec
                  count_codec nat_codec nat_codec_laws bool_codec_laws
                  int_codec_laws count_codec_laws nat_codec_laws)
           (mkIs [] false) (mkIs [] true) (AuthPath_new 0 1)).
  vm_compute. reflexivity.
Defined.

(** A stream that ends after the accumulator: [marshal_in] into a fresh
    bundle reports failure and leaves a bundle that is not the fresh one,
    whose accumulator is not full and has depth 1. And an exhausted stream
    read into an accumulator of depth 1 leaves its frontier at depth 1. *)
Lemma C7_counterexample :
  let truncated :=
    @Tree_marshal_out nat Z nat_codec bool_codec int_codec nat_codec
      (Tree_new 0 1) in
  let r := @Bundle_marshal_in nat 0 Z nat_codec bool_codec int_codec
             count_codec nat_codec (mkIs truncated false) (Bundle_default 0) in
  let r' := @Tree_marshal_in nat 0 Z nat_codec bool_codec int_codec
              nat_codec (mkIs [] false) (Tree_new 0 1) in
  r.1.1 = false ∧ r.1.2 ≠ Bundle_default 0 ∧
  Bundle_isFull r.1.2 = false ∧
  m_depth (t_authPath (b_tree r.1.2)) = 1 ∧
  r'.1.1 = false ∧ m_depth (t_authPath r'.1.2) = 1.
Proof. vm_compute. repeat split; discriminate. Qed.

Lemma C8_witness :
  let b := mkBundle (Tree_new 0 1) 3 [10; 11; 12]
             [AuthPath_new 0 1; AuthPath_new 0 1; AuthPath_new 0 1] in
  length (b_authLeaf b) = length (b_authPath b) ∧
  ∃ b', authGarbageCollect {[10; 12]} b = Some b' ∧
        b_authLeaf b' = filter (λ cm, cm ∈ ({[10; 12]} : gset nat))
                               (b_authLeaf b).
Proof.
  intros b. assert (length (b_authLeaf b) = length (b_authPath b)) as Hlen
    by reflexivity.
  split; [exact Hlen|].
  destruct (C8_authGarbageCollect {[10; 12]} b Hlen)
    as (b' & Hb' & _ & Hleaf & _).
  exists b'. split; [exact Hb'|exact Hleaf].
Defined.

Lemma C9_witness :
  is_Some (updatePath 0 compress 10 (AuthPath_new 0 2) [AuthPath_new 0 2]).
Proof.
  apply (proj1 (C9_updatePath_frame 0 compress 10 (AuthPath_new 0 2)
                  [AuthPath_new 0 2]) 2).
  - repeat split.
  - repeat constructor.
Defined.

Lemma C10_witness :
  isFull (mkTree true (mkPath 1 [0] [5] [1%Z])) = true.
Proof.
  apply (proj1 (C10_isFull_latched 0 compress 32)
               [OpUpdateSiblings 5] (mkTree true (AuthPath_new 0 1))).
  - reflexivity.
  - vm_compute. reflexivity.
Defined.

(** ** Further properties, on the sample instance *)

Lemma X1_witness :
  bundle_wf 2 (Bundle_new 0 2) ∧
  ∃ b', addLeaf 0 compress 32 10 true (Bundle_new 0 2) = Some b' ∧
        bundle_wf 2 b'.
Proof.
  assert (bundle_wf 2 (Bundle_new 0 2)) as Hwf
    by (split; [repeat split|split; [reflexivity|constructor]]).
  split; [exact Hwf|].
  exact (X1_addLeaf_safe 0 compress 32 2 10 true (Bundle_new 0 2) Hwf).
Defined.

Lemma X2_witness :
  ∃ b', addLeaf 0 compress 32 10 true (Bundle_new 0 2) = Some b' ∧
        Bundle_rootHash b'
        = reconstruct 0 compress 10 (t_authPath (b_tree (Bundle_new 0 2))).
Proof.
  eexists. split; [vm_compute; reflexivity|].
  apply (X2_addLeaf_root 0 compress 32 2 10 true (Bundle_new 0 2)).
  - split; [repeat split|split; [reflexivity|constructor]].
  - vm_compute. reflexivity.
Defined.

Lemma X3_witness :
  wf_path 2 (AuthPath_new 0 2) ∧
  ∃ self',
    updatePath1 0 compress 10 (AuthPath_new 0 2) = Some self' ∧
    fst <$> updatePath 0 compress 10 (set_rootPath [5; 6] (AuthPath_new 0 2))
                       [AuthPath_new 0 2]
    = Some self' ∧
    updatePath1 0 compress 10 self' = Some self'.
Proof.
  assert (wf_path 2 (AuthPath_new 0 2)) as Hwf by (repeat split).
  split; [exact Hwf|].
  apply (X3_updatePath_receiver 0 compress 2 10 (AuthPath_new 0 2)
           [AuthPath_new 0 2] [5; 6] Hwf).
  - repeat constructor.
  - reflexivity.
Defined.

Lemma X4_witness :
  wf_path 2 (AuthPath_new 0 2) ∧
  ∃ self' olds',
    updatePath 0 compress 10 (AuthPath_new 0 2) [AuthPath_new 0 2]
    = Some (self', olds') ∧
    length olds' = 1.
Proof.
  assert (wf_path 2 (AuthPath_new 0 2)) as Hwf by (repeat split).
  split; [exact Hwf|].
  destruct (X4_updatePath_patch 0 compress 2 10 (AuthPath_new 0 2)
              [AuthPath_new 0 2] Hwf) as (self' & olds' & E & Hlen & _).
  - repeat constructor.
  - exists self', olds'. split; [exact E|exact Hlen].
Defined.

Lemma X5_witness :
  ∃ bits r,
    incChildBits (mkPath 2 [0; 0] [0; 0] [1; 0]%Z)
    = Some (set_childBits bits (mkPath 2 [0; 0] [0; 0] [1; 0]%Z), r) ∧
    (1 + 1 < 2 ^ 2 → bits = bits_of 2 (1 + 1)).
Proof.
  destruct (X5_incChildBits_counter 2 1 (mkPath 2 [0; 0] [0; 0] [1; 0]%Z))
    as (bits & r & E & _ & Hnext).
  - reflexivity.
  - reflexivity.
  - simpl. lia.
  - exists bits, r. split; [exact E|]. intros Hlt. exact (proj1 (Hnext Hlt)).
Defined.

Lemma X6_witness :
  wf_path 2 (AuthPath_new 0 2) ∧
  (is_Some (hashSibling 0 1 (AuthPath_new 0 2)) ↔ 1 ≤ 1 < 2).
Proof.
  assert (wf_path 2 (AuthPath_new 0 2)) as Hwf by (repeat split).
  split; [exact Hwf|].
  exact (proj1 (X6_hashSibling 0 2 1 (AuthPath_new 0 2) Hwf)).
Defined.

Lemma X7_witness :
  length ops3 ≤ 2 ^ 2 ∧
  ∃ b, addLeaves 0 compress 32 ops3 (Bundle_new 0 2) = Some b ∧
       Bundle_rootHash b = Some (node 0 compress ops3.*1 2 0).
Proof.
  assert (length ops3 ≤ 2 ^ 2) as Hlen by (simpl; lia).
  split; [exact Hlen|].
  destruct (X7_root_is_tree_root 0 compress 32 2 ops3 Hlen)
    as (b & Hb & _ & _ & Hroot).
  exists b. split; [exact Hb|]. apply Hroot; simpl; lia.
Defined.

Lemma X8_witness :
  let ops := [OpAddLeaf 10 true; OpAddLeaf 11 true; OpCollect {[11]};
              OpAddLeaf 12 false] in
  length (run_leaves [] ops) ≤ 2 ^ 2 ∧
  ∃ b, bundle_steps 0 compress 32 ops (Bundle_new 0 2) = Some b ∧
       b_authPath b
       = ideal_path 0 compress 2 (run_leaves [] ops)
         <$> run_retained 0 [] [] ops.
Proof.
  intros ops.
  assert (length (run_leaves [] ops) ≤ 2 ^ 2) as Hlen by (simpl; lia).
  split; [exact Hlen|].
  destruct (X8_runs_with_collection 0 compress 32 2 ops Hlen)
    as (b & Hb & _ & _ & Hpaths & _).
  exists b. split; [exact Hb|exact Hpaths].
Defined.

Lemma X9_witness :
  let b := mkBundle (Tree_new 0 1) 3 [10; 11; 12]
             [AuthPath_new 0 1; AuthPath_new 0 1; AuthPath_new 0 1] in
  length (b_authLeaf b) = length (b_authPath b) ∧
  authGarbageCollect {[10; 12]} b ≫= authGarbageCollect {[12]}
  = authGarbageCollect ({[10; 12]} ∩ {[12]}) b.
Proof.
  intros b. assert (length (b_authLeaf b) = length (b_authPath b)) as Hlen
    by reflexivity.
  split; [exact Hlen|].
  exact (proj1 (X9_collect_compose {[10; 12]} {[12]} b Hlen)).
Defined.

Lemma X10_witness :
  bundle_wf 2 (Bundle_new 0 2) ∧
  addLeaf 0 compress 32 10 true (Bundle_new 0 2) ≫= authGarbageCollect {[10]}
  = authGarbageCollect {[10]} (Bundle_new 0 2)
    ≫= addLeaf 0 compress 32 10 true.
Proof.
  assert (bundle_wf 2 (Bundle_new 0 2)) as Hwf
    by (split; [repeat split|split; [reflexivity|constructor]]).
  split; [exact Hwf|].
  apply (X10_collect_commutes 0 compress 32 2 {[10]} 10 true
           (Bundle_new 0 2) Hwf).
  intros _. apply elem_of_singleton. reflexivity.
Defined.


Lemma X12_witness :
  wf_path 1 (AuthPath_new 0 1) ∧
  (AuthPath_new 0 1 = AuthPath_new 0 1 ∧ [7%Z] = [7%Z]).
Proof.
  assert (wf_path 1 (AuthPath_new 0 1)) as Hwf by (repeat split).
  split; [exact Hwf|].
  apply (proj1 (@X12_marshal_out_unambiguous nat 0 Z nat_codec bool_codec
                  int_codec count_codec nat_codec nat_codec_laws
                  bool_codec_laws int_codec_laws count_codec_laws
                  nat_codec_laws) 1 1);
    [exact Hwf|lia|exact Hwf|lia|reflexivity].
Defined.

Lemma X13_witness :
  2 ^ 2 < 5 ∧
  ∃ b, fill_loop 0 compress 32 N.to_nat 1 5 (Bundle_new 0 2) = Some b ∧
       Bundle_isFull b = true ∧ b_authLeaf b = [1].
Proof.
  assert (2 ^ 2 < 5) as Hfuel by (simpl; lia).
  split; [exact Hfuel|].
  destruct (X13_runTest 0 compress 32 N.to_nat 2 1 5 Hfuel)
    as (b & Hb & Hfull & _ & Hfit & _).
  exists b. split; [exact Hb|]. split; [exact Hfull|].
  apply Hfit; vm_compute; reflexivity.
Defined.


End Examples.
